(** * tgstat/backfill: the label/identity composer and the linked-list recorder

    A shallow embedding of [backfill.go] (package [backfill] of ngrash/tgstat)
    and the properties of its recorder.

    Conventions of the embedding:
    - a [time.Time] is the instant it denotes, an integer number of
      nanoseconds since the Unix epoch; a [time.Duration] is a number of
      nanoseconds; the seconds of a [Time], counted from the year 1, are an
      [int64] ([time.inRange]): [time.Add] stops at the ends of this range
      as [Time.Add] does, and [time.Unix] is [int64] arithmetic;
    - a [uint64] is an integer in [0, 2^64), its addition wraps around;
    - a [*record] is an address into the memory of allocated records
      ([mem]); a new record gets the next free address, and a read through
      an address that is not allocated is a fault;
    - [io.Writer] is the class [Writer]; [fmt.Fprintf] on it may fail;
    - a [range] over a Go map visits the keys in an order the language
      leaves open: [Write] takes the order of every step as an argument
      ([order k] for step [k]);
    - the open-ended [for] loop of [Write] is bounded by fuel, and so is
      the recursion of [record.forward], which [Write] runs with the number
      of allocated records as fuel ([forward_total], [forward_fuel]:
      this is enough on every recorder built by [Inc]);
    - besides the writer, [Write] keeps the calls of [Fprintf] it makes,
      step by step ([rounds]), so that properties can speak of samples
      rather than of bytes; [Write_Builder] relates the two. *)

From Stdlib Require Import ZArith String Ascii DecimalString Lia.
From stdpp Require Import gmap strings list fin_maps.

Open Scope Z_scope.

(** ** Time, machine integers and formatting *)

Module time.
(** [time.Second], in nanoseconds. *)
Definition Second : Z := 1000000000.
(** [t.After(u)]: the instant [t] is after [u]. *)
Definition After (t u : Z) : bool := u <? t.
(** [t.Before(u)]. *)
Definition Before (t u : Z) : bool := t <? u.
(** The seconds from the year 1, where a [Time] starts to count its
    seconds, to 1970. *)
Definition unixToInternal : Z := 62135596800.
(** The greatest and the least [int64]. *)
Definition maxInt64 : Z := 2 ^ 63 - 1.
Definition minInt64 : Z := - 2 ^ 63.
(** The instants that a [Time] can hold: its seconds, counted from the
    year 1, are an [int64]. *)
Definition inRange (t : Z) : Prop :=
  minInt64 ≤ t / Second + unixToInternal ≤ maxInt64.
(** [t.Add(d)], on a time without a monotonic clock reading (as
    [time.Unix] and [time.Parse] make them). The seconds and the
    nanoseconds are added apart, with a carry; when the sum of the
    seconds overflows [int64], [addSec] sets it to [1<<63 - 1] or to
    [-(1<<63 - 1)] and keeps the nanoseconds. *)
Definition Add (t d : Z) : Z :=
  let ext := t / Second + unixToInternal in
  let nsec := t mod Second + Z.rem d Second in
  let '(dsec, nsec) :=
    if Second <=? nsec then (Z.quot d Second + 1, nsec - Second)
    else if nsec <? 0 then (Z.quot d Second - 1, nsec + Second)
    else (Z.quot d Second, nsec) in
  let ext' :=
    if (0 <? dsec) && (maxInt64 <? ext + dsec) then maxInt64
    else if (dsec <? 0) && (ext + dsec <? minInt64) then - maxInt64
    else ext + dsec in
  (ext' - unixToInternal) * Second + nsec.
(** An [int64] of the integer [z]: its arithmetic wraps around. *)
Definition wrap64 (z : Z) : Z := (z - minInt64) mod 2 ^ 64 + minInt64.
(** [t.Unix()]: the seconds of [t] less [unixToInternal], as an [int64]:
    the seconds since the epoch, rounded down, unless the difference
    wraps around. *)
Definition Unix (t : Z) : Z := wrap64 (t / Second).
(** [time.Unix(sec, 0)]: the seconds of the time are [sec] plus
    [unixToInternal], as an [int64]. *)
Definition FromUnix (sec : Z) : Z :=
  (wrap64 (sec + unixToInternal) - unixToInternal) * Second.
End time.

(** The modulus of [uint64] arithmetic. *)
Definition two64 : Z := 2 ^ 64.

(** [a + b] on [uint64]. *)
Definition add64 (a b : Z) : Z := (a + b) mod two64.

(** The verb [%d]. *)
Definition fmt_d (z : Z) : string := NilEmpty.string_of_int (Z.to_int z).

Definition newline : string := String (ascii_of_nat 10) EmptyString.

(** [s[:hi]] on a Go string: a run-time panic ([None]) unless
    [0 <= hi <= len(s)]. *)
Definition slice_to (s : string) (hi : Z) : option string :=
  if (0 <=? hi) && (hi <=? Z.of_nat (String.length s))
  then Some (substring 0 (Z.to_nat hi) s)
  else None.

(** ** Records, the recorder and its memory *)

Abbreviation addr := nat (only parsing).

(** [type record struct { value uint64; at time.Time; next *record }] *)
Record record := mkRecord { value : Z; at_ : Z; next : option addr }.

(** [type linkedListRecorder struct { first, current map[string]*record }] *)
Record linkedListRecorder := mkRecorder {
  first : gmap string nat;
  current : gmap string nat
}.

(** What the recorder's methods can see and change: the allocated records,
    the recorder itself and what was printed on standard output. *)
Record state := mkState {
  mem : list record;
  rec : linkedListRecorder;
  stdout : list string
}.

Definition newLinkedListRecorder : state :=
  mkState [] (mkRecorder ∅ ∅) [].

(** The message of [Inc] for a record that is not accepted. *)
Definition ignoring (name : string) (at' cur_at : Z) : string :=
  "backfill: " +:+ name +:+ ": ignoring record at " +:+ fmt_d (time.Unix at')
  +:+ ", current is at " +:+ fmt_d (time.Unix cur_at) +:+ newline.

(** [func (r *linkedListRecorder) Inc(name string, value uint64, at time.Time)].
    [None] is a fault (a pointer that is not allocated). *)
Definition Inc (name : string) (v : Z) (at' : Z) (s : state) : option state :=
  match current (rec s) !! name with
  | Some c =>
      cur ← mem s !! c;
      if time.After (at_ cur) at' then
        Some (mkState (mem s) (rec s) (stdout s ++ [ignoring name at' (at_ cur)]))
      else
        let next := length (mem s) in
        Some (mkState
                (<[c := mkRecord (value cur) (at_ cur) (Some next)]> (mem s)
                   ++ [mkRecord (add64 (value cur) v) at' None])
                (mkRecorder (first (rec s)) (<[name := next]> (current (rec s))))
                (stdout s))
  | None =>
      let next := length (mem s) in
      Some (mkState
              (mem s ++ [mkRecord v at' None])
              (mkRecorder (<[name := next]> (first (rec s)))
                          (<[name := next]> (current (rec s))))
              (stdout s))
  end.

(** One call of [Inc]. *)
Record event := Ev { ev_name : string; ev_value : Z; ev_at : Z }.

(** A sequence of calls of [Inc], in call order. *)
Fixpoint exec (evs : list event) (s : state) : option state :=
  match evs with
  | [] => Some s
  | e :: evs' => s' ← Inc (ev_name e) (ev_value e) (ev_at e) s; exec evs' s'
  end.

(** [record.forward(to)]: the record for the time [to], if any, and
    whether it has followup records.
    [None]: a fault, or the recursion is deeper than [fuel]. *)
Fixpoint forward (fuel : nat) (h : list record) (r : addr) (to : Z)
  : option (option nat * bool) :=
  match fuel with
  | O => None
  | S fuel' =>
      rc ← h !! r;
      if time.After (at_ rc) to then Some (None, true)
      else match next rc with
           | None => Some (Some r, false)
           | Some n =>
               nx ← h !! n;
               if time.After (at_ nx) to then Some (Some r, true)
               else forward fuel' h n to
           end
  end.

(** ** Labels and series identities *)

Module label.
(** [type label struct { key, value string }] *)
Record t := mk { key : string; value : string }.
End label.

(** [type recorder interface]: the method [Inc]. *)
Class recorder (R : Type) := rec_Inc : string → Z → Z → R → option R.

#[export] Instance linkedList_recorder : recorder state := Inc.

(** [labelTestRecorder] of the test file: it keeps the names. *)
#[export] Instance labelTestRecorder : recorder (list string) :=
  λ name _ _ names, Some (names ++ [name]).

Section Identity.
(** [%#v] on a string: the string quoted as a Go string literal
    ([strconv.Quote]), of Go's library. *)
Variable quote : string → string.

(** [func (l labels) with(key, value string) labels] *)
Definition labels_with (l : list label.t) (key value : string) : list label.t :=
  l ++ [label.mk key value].

(** [func (l labels) String() string]; [None] is the run-time panic of the
    slice expression [s[:len(s)-1]]. *)
Definition labels_String (l : list label.t) : option string :=
  let s :=
    fold_left
      (λ s lb, s +:+ (label.key lb +:+ "=" +:+ quote (label.value lb) +:+ ","))
      l EmptyString in
  slice_to s (Z.of_nat (String.length s) - 1).

(** [type Metric struct]; the recorder it points to is the state that [Inc]
    is run on. *)
Record Metric := mkMetric { name : string; labels : list label.t }.

(** [type Metrics struct] *)
Record Metrics := mkMetrics { metrics_labels : list label.t }.

Definition NewMetrics : Metrics := mkMetrics [].

Definition Metrics_With (m : Metrics) (key value : string) : Metrics :=
  mkMetrics (labels_with (metrics_labels m) key value).

Definition Metrics_Metric (m : Metrics) (name : string) : Metric :=
  mkMetric name (metrics_labels m).

Definition Metric_With (m : Metric) (key value : string) : Metric :=
  mkMetric (name m) (labels_with (labels m) key value).

(** [func (m *Metric) Inc(value uint64, at time.Time)] *)
Definition Metric_Inc {R : Type} `{!recorder R} (m : Metric) (v at' : Z) (r : R)
  : option R :=
  s ← labels_String (labels m);
  rec_Inc (name m +:+ "{" +:+ s +:+ "}") v at' r.
End Identity.

(** The double quote. *)
Definition dquote : string := String (ascii_of_nat 34) EmptyString.

(** [strconv.Quote] on strings of letters and digits. *)
Definition quote_plain (s : string) : string := dquote +:+ s +:+ dquote.

(** ** Writing *)

(** Go's [error], by its message. *)
Abbreviation error := string (only parsing).

Definition ErrNoRecords : error := "no records".

(** [io.Writer] under [fmt.Fprintf]: the writer after the call and the
    error of the call, if any. *)
Class Writer (W : Type) := Fprint : W → string → W * option error.

(** [strings.Builder]: never fails. *)
#[export] Instance Builder : Writer string := λ b s, (b +:+ s, None).

(** A writer whose every write fails. *)
Inductive closedPipe := ClosedPipe.
#[export] Instance closedPipe_Writer : Writer closedPipe :=
  λ p _, (p, Some "io: read/write on closed pipe").

(** A call of [Fprintf] by [Write]: series, value and the time of the step. *)
Abbreviation sample := (string * Z * Z)%type (only parsing).

(** ["%s %d %d\n"] *)
Definition line (name : string) (v unix : Z) : string :=
  name +:+ " " +:+ fmt_d v +:+ " " +:+ fmt_d unix +:+ newline.

Definition render (x : sample) : string :=
  line x.1.1 x.1.2 (time.Unix x.2).

Inductive control := Continue | Return (e : error) | Panic.

Inductive outcome := Returned (err : option error) | Panicked | OutOfFuel.

(** The body of the first loop of [Write]: [start] is [nil] or the earliest
    [at] seen so far. *)
Definition earlier (h : list record) (acc : option (option Z))
    (nf : string * nat) : option (option Z) :=
  start ← acc;
  f ← h !! nf.2;
  Some (match start with
        | None => Some (at_ f)
        | Some t => if time.Before (at_ f) t then Some (at_ f) else Some t
        end).

(** The first loop of [Write]: the earliest [at] of the first records.
    The result does not depend on the order of the visit. *)
Definition earliest (h : list record) (firsts : list (string * nat))
  : option (option Z) :=
  fold_left (earlier h) firsts (Some None).

Section Write.
Context {W : Type} `{!Writer W}.

(** The variables of the walk: the copy [current] of the map of first
    records, [hasActiveMetrics], the writer, and the calls of [Fprintf]
    of this step. *)
Record locals := mkLocals {
  cur : gmap string nat;
  hasActiveMetrics : bool;
  w : W;
  emitted : list (string * Z * Z)
}.

Record result := mkResult {
  final : state;
  sink : W;
  rounds : list (list (string * Z * Z));
  out : outcome
}.

(** The body of [for name, r := range current]. *)
Definition visit (h : list record) (now : Z) (name : string) (l : locals)
  : control * locals :=
  match cur l !! name with
  | None => (Continue, l)
  | Some r =>
      match forward (length h) h r now with
      | None => (Panic, l)
      | Some (None, _) => (Continue, l)
      | Some (Some nx, hasMore) =>
          let l1 :=
            if hasMore
            then mkLocals (<[name := nx]> (cur l)) true (w l) (emitted l)
            else l in
          match h !! nx with
          | None => (Panic, l1)
          | Some rc =>
              let '(w', err) :=
                Fprint (w l1) (line name (value rc) (time.Unix now)) in
              let l2 :=
                mkLocals (cur l1) (hasActiveMetrics l1) w'
                         (emitted l1 ++ [(name, value rc, now)]) in
              match err with
              | Some e => (Return e, l2)
              | None => (Continue, l2)
              end
          end
      end
  end.

Fixpoint range (h : list record) (now : Z) (names : list string) (l : locals)
  : control * locals :=
  match names with
  | [] => (Continue, l)
  | name :: names' =>
      match visit h now name l with
      | (Continue, l') => range h now names' l'
      | stop => stop
      end
  end.

(** [for now := *start; ; now = now.Add(resolution)], step [k] onwards. *)
Fixpoint walk (fuel : nat) (order : nat → list string) (k : nat)
    (resolution : Z) (s : state) (now : Z) (c : gmap string nat) (w0 : W)
    (rs : list (list (string * Z * Z))) : result :=
  match fuel with
  | O => mkResult s w0 rs OutOfFuel
  | S fuel' =>
      let '(ctl, l) := range (mem s) now (order k) (mkLocals c false w0 []) in
      let rs' := rs ++ [emitted l] in
      match ctl with
      | Return e => mkResult s (w l) rs' (Returned (Some e))
      | Panic => mkResult s (w l) rs' Panicked
      | Continue =>
          if hasActiveMetrics l
          then walk fuel' order (S k) resolution s
                    (time.Add now resolution) (cur l) (w l) rs'
          else mkResult s (w l) rs' (Returned None)
      end
  end.

(** [func (r *linkedListRecorder) Write(w io.Writer, resolution time.Duration) error] *)
Definition Write (fuel : nat) (order : nat → list string) (resolution : Z)
    (s : state) (w0 : W) : result :=
  match earliest (mem s) (map_to_list (first (rec s))) with
  | None => mkResult s w0 [] Panicked
  | Some None => mkResult s w0 [] (Returned (Some ErrNoRecords))
  | Some (Some start) =>
      walk fuel order 0 resolution s start (first (rec s)) w0 []
  end.

(** All calls of [Fprintf], in order. *)
Definition samples (r : result) : list (string * Z * Z) := concat (rounds r).
End Write.

Arguments locals : clear implicits.
Arguments result : clear implicits.

(** The visiting orders a [range] over the series can take. *)
Definition valid_order (s : state) (order : nat → list string) : Prop :=
  ∀ k, order k ≡ₚ (map_to_list (first (rec s))).*1.

(** The lines of a sequence of samples, one after the other. *)
Definition lines (xs : list (string * Z * Z)) : string :=
  foldr (λ x out, render x +:+ out) EmptyString xs.

(** The writes of the lines of the samples [xs] on the writer [w0], one
    after the other up to the first one that fails: the writer then, and
    the error of the write that failed, if any. *)
Fixpoint feed {W : Type} `{!Writer W} (w0 : W) (xs : list (string * Z * Z))
  : W * option string :=
  match xs with
  | [] => (w0, None)
  | x :: xs' =>
      let '(w1, err) := Fprint w0 (render x) in
      match err with
      | Some e => (w1, Some e)
      | None => feed w1 xs'
      end
  end.

(** ** The calls of [Inc] and the history of a series *)

Definition sumZ (l : list Z) : Z := foldr Z.add 0 l.

(** One more call [e], for the accepted increments (amount, timestamp) of
    the series [name]: a call for the series is accepted unless its
    timestamp is earlier than that of the last accepted one. *)
Definition accept (name : string) (acc : list (Z * Z)) (e : event)
  : list (Z * Z) :=
  if decide (ev_name e = name) then
    match last acc with
    | Some (_, t) =>
        if ev_at e <? t then acc else acc ++ [(ev_value e, ev_at e)]
    | None => acc ++ [(ev_value e, ev_at e)]
    end
  else acc.

(** The accepted increments of the series [name], in call order. *)
Definition accepted (name : string) (evs : list event) : list (Z * Z) :=
  fold_left (accept name) evs [].

(** The sum of the amounts of the increments with a timestamp [<= t]. *)
Definition total_until (t : Z) (acc : list (Z * Z)) : Z :=
  sumZ (filter (λ a, a.2 ≤ t) acc).*1.

(** The amounts are [uint64]s. *)
Definition uint64_amounts (evs : list event) : Prop :=
  Forall (λ e, 0 ≤ ev_value e < two64) evs.

(** The timestamp of the first record of a series. *)
Definition head_at (s : state) (name : string) : option Z :=
  f ← first (rec s) !! name; at_ <$> mem s !! f.

(** The timestamp of the last record of a series. *)
Definition tail_at (s : state) (name : string) : option Z :=
  c ← current (rec s) !! name; at_ <$> mem s !! c.

(** [ceil (a / b)] for [b > 0]. *)
Definition ceil_div (a b : Z) : Z := (a + b - 1) / b.

(** ** Chains in memory and the invariant of the recorder *)

(** One more call [e], for the nodes (cumulative value, timestamp) of the
    chain of the series [name]. *)
Definition grow (name : string) (l : list (Z * Z)) (e : event)
  : list (Z * Z) :=
  if decide (ev_name e = name) then
    match last l with
    | Some (c, t) =>
        if ev_at e <? t then l else l ++ [(add64 c (ev_value e), ev_at e)]
    | None => l ++ [(ev_value e, ev_at e)]
    end
  else l.

Definition nodes (name : string) (evs : list event) : list (Z * Z) :=
  fold_left (grow name) evs [].

(** The records at the addresses [al] form a chain with the contents [l]:
    each one points to the next, the last one to nothing. *)
Fixpoint chain (h : list record) (al : list nat) (l : list (Z * Z)) : Prop :=
  match al, l with
  | [], [] => True
  | a :: al', x :: l' =>
      h !! a = Some (mkRecord x.1 x.2 (head al')) ∧ chain h al' l'
  | _, _ => False
  end.

(** The invariant of the recorder after the calls [evs]. *)
Record inv (evs : list event) (s : state) : Prop := mkInv {
  inv_next : ∀ a rc n,
    mem s !! a = Some rc → next rc = Some n → (a < n < length (mem s))%nat;
  inv_chain : ∀ name, ∃ al,
    chain (mem s) al (nodes name evs)
    ∧ first (rec s) !! name = head al
    ∧ current (rec s) !! name = last al;
  inv_current : ∀ n1 n2 a,
    current (rec s) !! n1 = Some a → current (rec s) !! n2 = Some a → n1 = n2
}.

(** The timestamps of a history never decrease. *)
Definition sorted_at (acc : list (Z * Z)) : Prop :=
  ∀ i j x y, (i ≤ j)%nat → acc !! i = Some x → acc !! j = Some y → x.2 ≤ y.2.

(** The nodes [l] carry the timestamps of the increments [acc] and their
    running sums, as [uint64]s. *)
Definition sums (l acc : list (Z * Z)) : Prop :=
  l.*2 = acc.*2
  ∧ ∀ j x, l !! j = Some x → x.1 = sumZ (take (S j) acc).*1 mod two64.

(** A sample carries the value of the latest node of its series at or
    before its time. *)
Definition latest (evs : list event) (x : string * Z * Z) : Prop :=
  ∃ (j : nat) (tj : Z),
    nodes x.1.1 evs !! j = Some (x.1.2, tj)
    ∧ tj ≤ x.2
    ∧ ∀ y, nodes x.1.1 evs !! S j = Some y → x.2 < y.2.

(** The cursors of the walk point into the chains of their series. *)
Definition cursors_ok (evs : list event) (h : list record)
    (c : gmap string nat) : Prop :=
  ∀ name a, c !! name = Some a →
    ∃ al i, chain h al (nodes name evs) ∧ al !! i = Some a.

(** The memory is well formed for the walk: pointers go forward and stay
    inside. *)
Definition forward_safe (h : list record) : Prop :=
  ∀ a rc n, h !! a = Some rc → next rc = Some n → (a < n < length h)%nat.

Definition cursors_valid (h : list record) (c : gmap string nat) : Prop :=
  ∀ name a, c !! name = Some a → (a < length h)%nat.

(** Where the cursor [r] of a series goes at the time [now]: the record
    found, its value and whether it has followup records; nothing for a
    series that has not started. *)
Definition arrive (h : list record) (now : Z) (r : nat)
  : option (nat * Z * bool) :=
  match forward (length h) h r now with
  | Some (Some nx, hm) => rc ← h !! nx; Some (nx, value rc, hm)
  | _ => None
  end.

(** The variables after the visit of a series, with a [strings.Builder]. *)
Definition visited (h : list record) (now : Z) (l : locals string)
    (name : string) : locals string :=
  match cur l !! name ≫= arrive h now with
  | None => l
  | Some (nx, v, hm) =>
      mkLocals (if hm : bool then <[name := nx]> (cur l) else cur l)
               (hm || hasActiveMetrics l)
               (w l +:+ line name v (time.Unix now))
               (emitted l ++ [(name, v, now)])
  end.


(** ** Concrete recorders *)

(** The scenario of [TestLinkedListRecorder], from the start time [T]. *)
Definition scenario (T : Z) : list event :=
  [ Ev "foo" 1 (time.Add T (0 * time.Second));
    Ev "foo" 1 (time.Add T (10 * time.Second));
    Ev "foo" 1 (time.Add T (15 * time.Second));
    Ev "foo" 1 (time.Add T (20 * time.Second));
    Ev "foo" 1 (time.Add T (33 * time.Second)) ].

(** Thirty-five seconds before the last second of the range of
    [time.Time]: [time.Unix(1<<63 - 1 - 62135596800 - 35, 0)]. *)
Definition end_of_time : Z :=
  time.FromUnix (time.maxInt64 - time.unixToInternal - 35).

(** The recorder of the scenario of the test. *)
Definition scenario_state (T : Z) : state :=
  mkState
    [ mkRecord 1 (time.Add T (0 * time.Second)) (Some 1%nat);
      mkRecord 2 (time.Add T (10 * time.Second)) (Some 2%nat);
      mkRecord 3 (time.Add T (15 * time.Second)) (Some 3%nat);
      mkRecord 4 (time.Add T (20 * time.Second)) (Some 4%nat);
      mkRecord 5 (time.Add T (33 * time.Second)) None ]
    (mkRecorder {["foo" := 0%nat]} {["foo" := 4%nat]})
    [].

(** A counter that reaches the end of [uint64]. *)
Definition wrapping : list event :=
  [ Ev "a" (two64 - 1) 0; Ev "a" 1 0 ].

(** Two series, one call each at the same time. *)
Definition twins : list event :=
  [ Ev "a" 1 0; Ev "b" 1 0 ].

(** A series that starts when the other one has ended. *)
Definition late_start : list event :=
  [ Ev "a" 1 0; Ev "b" 1 (100 * time.Second) ].

(** The same, with two records in the early series. *)
Definition late_start2 : list event :=
  [ Ev "a" 1 0; Ev "a" 1 (5 * time.Second); Ev "b" 1 (100 * time.Second) ].

(** The two orders in which a [range] can visit the series [a] and [b]. *)
Definition a_then_b : nat → list string := λ _, ["a"; "b"].
Definition b_then_a : nat → list string := λ _, ["b"; "a"].

(** The recorder after the calls [late_start]. *)
Definition late_state : state :=
  mkState [mkRecord 1 0 None; mkRecord 1 (100 * time.Second) None]
          (mkRecorder {["a" := 0%nat; "b" := 1%nat]}
                      {["a" := 0%nat; "b" := 1%nat]}) [].

(** The cursors of the walk at the time [now]: each one is the first
    record of its series or a record with a timestamp at or before [now]. *)
Definition cursors_at (evs : list event) (h : list record) (now : Z)
    (c : gmap string nat) : Prop :=
  ∀ name a, c !! name = Some a →
    ∃ (al : list nat) (i : nat) (x : Z * Z),
      chain h al (nodes name evs) ∧ al !! i = Some a
      ∧ nodes name evs !! i = Some x ∧ (i = 0%nat ∨ x.2 ≤ now).

(** Every record lies at or before the last record of some series. *)
Definition covered (s : state) : Prop :=
  ∀ (a : nat) rc, mem s !! a = Some rc →
    ∃ name t, tail_at s name = Some t ∧ at_ rc ≤ t.


(** The calls of [Inc] for one series come in the order of their
    timestamps. *)
Definition in_order (evs : list event) : Prop :=
  ∀ (i j : nat) e1 e2, (i ≤ j)%nat →
    evs !! i = Some e1 → evs !! j = Some e2 →
    ev_name e1 = ev_name e2 → ev_at e1 ≤ ev_at e2.

(** All the calls for the series [name], as (amount, timestamp). *)
Definition calls_of (name : string) (evs : list event) : list (Z * Z) :=
  (λ e, (ev_value e, ev_at e)) <$> filter (λ e, ev_name e = name) evs.

(** ** Series identities, as text *)

(** One label of an identity: [key=] and the quoted value. *)
Definition item (quote : string → string) (lb : label.t) : string :=
  label.key lb +:+ "=" +:+ quote (label.value lb).

(** The identity of a series: the name and, in braces, the labels
    separated by commas. *)
Definition series (quote : string → string) (name : string)
    (ls : list label.t) : string :=
  name +:+ "{" +:+ String.concat "," (item quote <$> ls) +:+ "}".

(** ** The analysis of a chat export *)

Module tgexport.
(** [type TextEntity struct { Type, Text string }] *)
Record TextEntity := mkTextEntity { Type_ : string; Text : string }.

(** [type Message struct]; [Sender] is a string, [Time] a [time.Time]. *)
Record Message := mkMessage {
  From : string;
  TextEntities : list TextEntity;
  Date : Z
}.

(** [type Result struct { Messages []Message }] *)
Record Result := mkResult { Messages : list Message }.
End tgexport.

Module regexp.
(** [*regexp.Regexp], of Go's library, by the two methods that are called:
    [MatchString] and [String] (the source text of the expression). *)
Record Regexp := mk { MatchString : string → bool; String : string }.
End regexp.

Definition metricsPrefix : string := "tg_".
Definition tgMessagesTotal : string := metricsPrefix +:+ "messages_total".
Definition tgExpressionsTotal : string := metricsPrefix +:+ "expressions_total".
Definition tgBytesTotal : string := metricsPrefix +:+ "bytes_total".

(** [uint64(n)] on an [int]. *)
Definition uint64_of_int (n : Z) : Z := n mod two64.

(** [len(s)] on a string: the number of its bytes. *)
Definition len (s : string) : Z := Z.of_nat (String.length s).

(** A [for _, x := range l] loop whose body can panic ([None]). *)
Fixpoint for_range {A S : Type} (body : A → S → option S) (l : list A) (s : S)
  : option S :=
  match l with
  | [] => Some s
  | x :: l' => s' ← body x s; for_range body l' s'
  end.

Section Analyze.
Variable quote : string → string.
Context {R : Type} `{!recorder R}.

(** [func analyzeChat(data *tgexport.Result, metrics *backfill.Metrics,
    expressions []*regexp.Regexp) error], on the recorder that [metrics]
    points to. The error returned is always [nil]; [None] is a panic. *)
Definition analyzeChat (data : tgexport.Result) (metrics : Metrics)
    (expressions : list regexp.Regexp) (r : R) : option R :=
  for_range
    (λ msg r,
       if decide (tgexport.From msg = EmptyString) then Some r
       else
         let senderMetrics := Metrics_With metrics "sender" (tgexport.From msg) in
         r ← Metric_Inc quote (Metrics_Metric senderMetrics tgMessagesTotal)
               1 (tgexport.Date msg) r;
         for_range
           (λ txt r,
              r ← Metric_Inc quote (Metrics_Metric senderMetrics tgBytesTotal)
                    (uint64_of_int (len (tgexport.Text txt)))
                    (tgexport.Date msg) r;
              for_range
                (λ expr r,
                   if regexp.MatchString expr (tgexport.Text txt)
                   then Metric_Inc quote
                          (Metric_With
                             (Metrics_Metric senderMetrics tgExpressionsTotal)
                             "expression" (regexp.String expr))
                          1 (tgexport.Date msg) r
                   else Some r)
                expressions r)
           (tgexport.TextEntities msg) r)
    (tgexport.Messages data) r.
End Analyze.

(** [type aliasMap map[tgexport.Sender]tgexport.Sender] *)
Definition aliasMap := gmap string string.

(** [func applySenderAliases(data *tgexport.Result, aliases aliasMap)]:
    the export after the call. The loop reads the message at index [i]
    and writes its field [From] in place. *)
Definition applySenderAliases (data : tgexport.Result) (aliases : aliasMap)
  : tgexport.Result :=
  tgexport.mkResult
    (foldl
       (λ msgs i,
          match msgs !! i with
          | Some m =>
              match aliases !! tgexport.From m with
              | Some alias =>
                  <[i := tgexport.mkMessage alias (tgexport.TextEntities m)
                           (tgexport.Date m)]> msgs
              | None => msgs
              end
          | None => msgs
          end)
       (tgexport.Messages data)
       (seq 0 (length (tgexport.Messages data)))).

(** The calls of [Inc] for one message: one for the message, one for each
    text entity with its length, one for each expression that matches the
    entity, all at the date of the message, with the labels [base] and
    the sender; none for a message that has no sender. *)
Definition message_calls (quote : string → string) (base : list label.t)
    (expressions : list regexp.Regexp) (msg : tgexport.Message) : list event :=
  if decide (tgexport.From msg = EmptyString) then []
  else
    let ls := base ++ [label.mk "sender" (tgexport.From msg)] in
    Ev (series quote tgMessagesTotal ls) 1 (tgexport.Date msg)
    :: flat_map
         (λ txt,
            Ev (series quote tgBytesTotal ls)
               (uint64_of_int (len (tgexport.Text txt))) (tgexport.Date msg)
            :: ((λ expr,
                   Ev (series quote tgExpressionsTotal
                         (ls ++ [label.mk "expression" (regexp.String expr)]))
                      1 (tgexport.Date msg))
                <$> filter (λ expr, regexp.MatchString expr (tgexport.Text txt) = true)
                      expressions))
         (tgexport.TextEntities msg).

Definition chat_calls (quote : string → string) (base : list label.t)
    (expressions : list regexp.Regexp) (data : tgexport.Result) : list event :=
  flat_map (message_calls quote base expressions) (tgexport.Messages data).

(** The messages of an export come in the order of their dates. *)
Definition by_date (msgs : list tgexport.Message) : Prop :=
  ∀ (i j : nat) m1 m2, (i ≤ j)%nat →
    msgs !! i = Some m1 → msgs !! j = Some m2 →
    tgexport.Date m1 ≤ tgexport.Date m2.

(** A message after the replacement of its sender. *)
Definition renamed (aliases : aliasMap) (m : tgexport.Message)
  : tgexport.Message :=
  match aliases !! tgexport.From m with
  | Some alias =>
      tgexport.mkMessage alias (tgexport.TextEntities m) (tgexport.Date m)
  | None => m
  end.

(** An export of three messages, the second one without a sender. *)
Definition small_chat : tgexport.Result :=
  tgexport.mkResult
    [ tgexport.mkMessage "ann" [tgexport.mkTextEntity "plain" "hello"]
        (1 * time.Second);
      tgexport.mkMessage EmptyString [] (2 * time.Second);
      tgexport.mkMessage "ann" [] (3 * time.Second) ].
(** * Properties *)

(** ** Identities *)


(** C8, on the code. With no label, [labels.String] slices the empty
    string up to [-1], which is a run-time panic: [Metric.Inc] panics
    before it reaches the recorder, for every name, amount, time and
    recorder, and produces no identity at all. *)
Theorem Metric_Inc_no_labels_panics (quote : string → string) :
  labels_String quote [] = None
  ∧ labels (Metrics_Metric NewMetrics "qux") = []
  ∧ ∀ (R : Type) (I : recorder R) (name : string) (v t : Z) (r : R),
      Metric_Inc quote (mkMetric name []) v t r = None.
Proof. split; [reflexivity|]. split; reflexivity. Qed.

(** With labels, the identities are those of [TestMetrics]. *)
Example TestMetrics :
  let foo := Metrics_With NewMetrics "x" "foo" in
  let bar := Metrics_With NewMetrics "x" "bar" in
  (r ← Metric_Inc quote_plain (Metrics_Metric foo "qux") 1 0 [];
   r ← Metric_Inc quote_plain
         (Metrics_Metric (Metrics_With foo "y" "baz") "qux") 1 0 r;
   r ← Metric_Inc quote_plain (Metrics_Metric bar "qux") 1 0 r;
   Metric_Inc quote_plain (Metrics_Metric bar "zot") 1 0 r)
  = Some [ "qux{x=" +:+ quote_plain "foo" +:+ "}";
           "qux{x=" +:+ quote_plain "foo" +:+ ",y=" +:+ quote_plain "baz" +:+ "}";
           "qux{x=" +:+ quote_plain "bar" +:+ "}";
           "zot{x=" +:+ quote_plain "bar" +:+ "}" ].
Proof. reflexivity. Qed.

(** ** The cases of [Inc] *)

Lemma Inc_first_eq s name v t :
  current (rec s) !! name = None →
  Inc name v t s
  = Some (mkState (mem s ++ [mkRecord v t None])
            (mkRecorder (<[name := length (mem s)]> (first (rec s)))
                        (<[name := length (mem s)]> (current (rec s))))
            (stdout s)).
Proof. intros H. unfold Inc. by rewrite H. Qed.

Lemma Inc_append_eq s name v t c tail :
  current (rec s) !! name = Some c →
  mem s !! c = Some tail →
  at_ tail ≤ t →
  Inc name v t s
  = Some (mkState
            (<[c := mkRecord (value tail) (at_ tail) (Some (length (mem s)))]> (mem s)
               ++ [mkRecord (add64 (value tail) v) t None])
            (mkRecorder (first (rec s)) (<[name := length (mem s)]> (current (rec s))))
            (stdout s)).
Proof.
  intros Hc Ht Hle. unfold Inc. rewrite Hc, Ht. simpl.
  unfold time.After. by destruct (Z.ltb_spec t (at_ tail)); [lia|].
Qed.

Lemma Inc_drop_eq s name v t c tail :
  current (rec s) !! name = Some c →
  mem s !! c = Some tail →
  t < at_ tail →
  Inc name v t s
  = Some (mkState (mem s) (rec s) (stdout s ++ [ignoring name t (at_ tail)])).
Proof.
  intros Hc Ht Hlt. unfold Inc. rewrite Hc, Ht. simpl.
  unfold time.After. by destruct (Z.ltb_spec t (at_ tail)); [|lia].
Qed.


(** ** [Write]: what it leaves alone and how it fails *)

Section WriteBasics.
Context {W : Type} `{!Writer W}.

Lemma walk_final fuel order k resolution s now c (w0 : W) rs :
  final (walk fuel order k resolution s now c w0 rs) = s.
Proof.
  revert k now c w0 rs.
  induction fuel as [|fuel IH]; intros; simpl; [done|].
  destruct (range _ _ _ _) as [ctl l].
  destruct ctl; simpl; try done.
  destruct (hasActiveMetrics l); [apply IH | done].
Qed.

Lemma Write_final fuel order resolution (s : state) (w0 : W) :
  final (Write fuel order resolution s w0) = s.
Proof.
  unfold Write. destruct (earliest _ _) as [[start|]|]; simpl; try done.
  apply walk_final.
Qed.

(** C10. [Write] changes nothing: whatever the resolution, the writer, the
    order of the visits and the number of steps it is run for, the state
    after it (the records with their values, timestamps and successors, the
    map of first records, the map of current records) is the state before
    it. *)
Theorem Write_frame fuel order resolution (s : state) (w0 : W) :
  final (Write fuel order resolution s w0) = s
  ∧ mem (final (Write fuel order resolution s w0)) = mem s
  ∧ first (rec (final (Write fuel order resolution s w0))) = first (rec s)
  ∧ current (rec (final (Write fuel order resolution s w0))) = current (rec s).
Proof.
  by rewrite Write_final.
Qed.

Lemma visit_error h now name (l l' : locals W) e :
  visit h now name l = (Return e, l') → ∃ w1 b, (Fprint w1 b).2 = Some e.
Proof.
  unfold visit. destruct (cur l !! name); [|done].
  destruct (forward _ _ _ _) as [[[nx|] hm]|]; try done.
  destruct (h !! nx); [|done].
  destruct (Fprint _ _) as [w' [e'|]] eqn:HF; [|done].
  intros [= <- _]. eexists _, _. by rewrite HF.
Qed.

Lemma range_error h now names (l l' : locals W) e :
  range h now names l = (Return e, l') → ∃ w1 b, (Fprint w1 b).2 = Some e.
Proof.
  revert l. induction names as [|name names IH]; intros l; simpl; [done|].
  destruct (visit h now name l) as [[| e' |] l1] eqn:Hv.
  - apply IH.
  - intros [= <- _]. by eapply visit_error.
  - done.
Qed.

Lemma walk_error fuel order k resolution s now c (w0 : W) rs e :
  out (walk fuel order k resolution s now c w0 rs) = Returned (Some e) →
  ∃ w1 b, (Fprint w1 b).2 = Some e.
Proof.
  revert k now c w0 rs.
  induction fuel as [|fuel IH]; intros k now c w0 rs; simpl; [done|].
  destruct (range _ _ _ _) as [ctl l] eqn:Hr.
  destruct ctl; simpl.
  - destruct (hasActiveMetrics l); [apply IH | done].
  - intros [= <-]. by eapply range_error.
  - done.
Qed.
End WriteBasics.

(** *** The writes of [Write], one by one *)

Lemma feed_app {W : Type} `{!Writer W} (w0 w1 : W) xs ys :
  feed w0 xs = (w1, None) → feed w0 (xs ++ ys) = feed w1 ys.
Proof.
  revert w0. induction xs as [|x xs IH]; intros w0; simpl.
  { by intros [= ->]. }
  destruct (Fprint w0 (render x)) as [w2 [e|]]; [done|]. apply IH.
Qed.

Lemma visit_feed {W : Type} `{!Writer W} h now name (l l' : locals W) ctl :
  visit h now name l = (ctl, l') →
  match ctl with
  | Continue =>
      ∃ es, emitted l' = emitted l ++ es ∧ feed (w l) es = (w l', None)
  | Return e =>
      ∃ x, emitted l' = emitted l ++ [x]
           ∧ Fprint (w l) (render x) = (w l', Some e)
  | Panic => True
  end.
Proof.
  unfold visit.
  destruct (cur l !! name);
    [|intros [= <- <-]; exists []; by rewrite app_nil_r].
  destruct (forward _ _ _ _) as [[[nx|] hm]|];
    [|intros [= <- <-]; exists []; by rewrite app_nil_r|by intros [= <- <-]].
  assert (∀ l1 : locals W, w l1 = w l → emitted l1 = emitted l →
    match h !! nx with
    | Some rc =>
        let '(w', err) := Fprint (w l1) (line name (value rc) (time.Unix now)) in
        let l2 := mkLocals (cur l1) (hasActiveMetrics l1) w'
                    (emitted l1 ++ [(name, value rc, now)]) in
        match err with Some e => (Return e, l2) | None => (Continue, l2) end
    | None => (Panic, l1)
    end = (ctl, l') →
    match ctl with
    | Continue =>
        ∃ es, emitted l' = emitted l ++ es ∧ feed (w l) es = (w l', None)
    | Return e =>
        ∃ x, emitted l' = emitted l ++ [x]
             ∧ Fprint (w l) (render x) = (w l', Some e)
    | Panic => True
    end) as Haux.
  { intros l1 Hw He. destruct (h !! nx) as [rc|]; [|by intros [= <- <-]].
    rewrite Hw, He.
    destruct (Fprint (w l) (line name (value rc) (time.Unix now)))
      as [w' [e|]] eqn:HF; intros [= <- <-]; simpl.
    - by exists (name, value rc, now).
    - exists [(name, value rc, now)]. split; [done|]. simpl.
      unfold render. simpl. by rewrite HF. }
  destruct hm; by apply Haux.
Qed.

Lemma range_feed {W : Type} `{!Writer W} h now names (l l' : locals W) ctl :
  range h now names l = (ctl, l') →
  match ctl with
  | Continue =>
      ∃ es, emitted l' = emitted l ++ es ∧ feed (w l) es = (w l', None)
  | Return e =>
      ∃ es x w1, emitted l' = emitted l ++ es ++ [x]
                 ∧ feed (w l) es = (w1, None)
                 ∧ Fprint w1 (render x) = (w l', Some e)
  | Panic => True
  end.
Proof.
  revert l. induction names as [|name names IH]; intros l; simpl.
  { intros [= <- <-]. exists []. by rewrite app_nil_r. }
  destruct (visit h now name l) as [c1 l1] eqn:Hv.
  pose proof (visit_feed _ _ _ _ _ _ Hv) as H1. destruct c1.
  - destruct H1 as (es1 & He1 & Hf1). intros Hr.
    pose proof (IH _ Hr) as H2. destruct ctl; [| |done].
    + destruct H2 as (es2 & He2 & Hf2). exists (es1 ++ es2).
      rewrite He2, He1, app_assoc. split; [done|].
      by rewrite (feed_app _ _ _ _ Hf1).
    + destruct H2 as (es2 & x & w1 & He2 & Hf2 & HF).
      exists (es1 ++ es2), x, w1.
      rewrite He2, He1, <- !app_assoc. split; [done|]. split; [|done].
      by rewrite (feed_app _ _ _ _ Hf1).
  - intros [= <- <-]. destruct H1 as (x & He1 & HF).
    by exists [], x, (w l).
  - by intros [= <- <-].
Qed.

Lemma walk_feed {W : Type} `{!Writer W} fuel order k resolution s now c
    (w00 w0 : W) rs :
  feed w00 (concat rs) = (w0, None) →
  match out (walk fuel order k resolution s now c w0 rs) with
  | Returned (Some e) =>
      ∃ xs x w1,
        concat (rounds (walk fuel order k resolution s now c w0 rs)) = xs ++ [x]
        ∧ feed w00 xs = (w1, None)
        ∧ Fprint w1 (render x)
          = (sink (walk fuel order k resolution s now c w0 rs), Some e)
  | Panicked => True
  | _ =>
      feed w00 (concat (rounds (walk fuel order k resolution s now c w0 rs)))
      = (sink (walk fuel order k resolution s now c w0 rs), None)
  end.
Proof.
  revert k now c w0 rs.
  induction fuel as [|fuel IH]; intros k now c w0 rs Hrs; simpl; [done|].
  destruct (range _ _ _ _) as [ctl l] eqn:Hr.
  pose proof (range_feed _ _ _ _ _ _ Hr) as H1. simpl in H1.
  assert (concat (rs ++ [emitted l]) = concat rs ++ emitted l) as Hc.
  { rewrite concat_app. simpl. by rewrite app_nil_r. }
  destruct ctl; simpl.
  - destruct H1 as (es & He & Hf).
    assert (feed w00 (concat (rs ++ [emitted l])) = (w l, None)) as Hrs'.
    { rewrite Hc, He. by rewrite (feed_app _ _ _ _ Hrs). }
    destruct (hasActiveMetrics l); [by apply IH | done].
  - destruct H1 as (es & x & w1 & He & Hf & HF).
    exists (concat rs ++ es), x, w1. rewrite Hc, He, app_assoc.
    split; [done|]. split; [|done]. by rewrite (feed_app _ _ _ _ Hrs).
  - done.
Qed.

Lemma earliest_step h acc firsts :
  acc ≠ Some None → fold_left (earlier h) firsts acc ≠ Some None.
Proof.
  revert acc. induction firsts as [|nf firsts IH]; intros acc Hacc; simpl; [done|].
  apply IH. unfold earlier. destruct acc as [[t|]|]; simpl; try done.
  destruct (h !! nf.2); simpl; [|done]. by destruct (time.Before _ _).
Qed.

Lemma earliest_nonempty h firsts : firsts ≠ [] → earliest h firsts ≠ Some None.
Proof.
  destruct firsts as [|nf firsts]; [done|]. intros _.
  unfold earliest. simpl. apply earliest_step.
  unfold earlier. simpl. destruct (h !! nf.2); simpl; done.
Qed.


Lemma earlier_swap h acc x y :
  earlier h (earlier h acc x) y = earlier h (earlier h acc y) x.
Proof.
  unfold earlier. destruct acc as [[t|]|]; simpl; try done;
    destruct (h !! x.2) as [fx|]; simpl;
    destruct (h !! y.2) as [fy|]; simpl; try done;
    unfold time.Before;
    repeat match goal with
      | |- context [?a <? ?b] => destruct (Z.ltb_spec a b); simpl
      end;
    try done; do 2 f_equal; lia.
Qed.

(** The earliest first timestamp does not depend on the order in which the
    first loop of [Write] visits the series. *)
Lemma earliest_perm h firsts1 firsts2 :
  firsts1 ≡ₚ firsts2 → earliest h firsts1 = earliest h firsts2.
Proof.
  unfold earliest. generalize (Some (@None Z)).
  intros acc Hp. revert acc.
  induction Hp as [|x f1 f2 Hp IH|x y f|f1 f2 f3 Hp1 IH1 Hp2 IH2];
    intros acc; simpl.
  - done.
  - apply IH.
  - by rewrite earlier_swap.
  - by rewrite IH1.
Qed.

(** ** The bytes a [strings.Builder] receives *)

Lemma string_app_assoc (a b c : string) : (a +:+ b) +:+ c = a +:+ (b +:+ c).
Proof.
  induction a as [|x a IH]; [done|].
  change (String x ((a +:+ b) +:+ c) = String x (a +:+ (b +:+ c))).
  by rewrite IH.
Qed.

Lemma string_app_nil_r (a : string) : a +:+ EmptyString = a.
Proof.
  induction a as [|x a IH]; [done|].
  change (String x (a +:+ EmptyString) = String x a). by rewrite IH.
Qed.

Lemma lines_app xs ys : lines (xs ++ ys) = lines xs +:+ lines ys.
Proof.
  induction xs as [|x xs IH]; simpl; [done|].
  by rewrite IH, string_app_assoc.
Qed.

Lemma visit_Builder h now name (l l' : locals string) ctl b0 pre :
  visit h now name l = (ctl, l') →
  w l = b0 +:+ lines (pre ++ emitted l) →
  w l' = b0 +:+ lines (pre ++ emitted l').
Proof.
  unfold visit. destruct (cur l !! name); [|by intros [= <- <-]].
  destruct (forward _ _ _ _) as [[[nx|] hm]|]; try by intros [= <- <-].
  assert (∀ l1 : locals string, w l1 = w l → emitted l1 = emitted l →
    match h !! nx with
    | Some rc =>
        let '(w', err) := Fprint (w l1) (line name (value rc) (time.Unix now)) in
        let l2 := mkLocals (cur l1) (hasActiveMetrics l1) w'
                    (emitted l1 ++ [(name, value rc, now)]) in
        match err with Some e => (Return e, l2) | None => (Continue, l2) end
    | None => (Panic, l1)
    end = (ctl, l') →
    w l = b0 +:+ lines (pre ++ emitted l) →
    w l' = b0 +:+ lines (pre ++ emitted l')) as Haux.
  { intros l1 Hw He. destruct (h !! nx) as [rc|].
    - unfold Fprint, Builder. intros [= <- <-] Hl. simpl.
      rewrite Hw, He, Hl, app_assoc, !lines_app. simpl.
      unfold render. simpl. by rewrite string_app_nil_r, string_app_assoc.
    - intros [= <- <-] Hl. by rewrite Hw, He. }
  destruct hm; apply Haux; done.
Qed.

Lemma range_Builder h now names (l l' : locals string) ctl b0 pre :
  range h now names l = (ctl, l') →
  w l = b0 +:+ lines (pre ++ emitted l) →
  w l' = b0 +:+ lines (pre ++ emitted l').
Proof.
  revert l. induction names as [|name names IH]; intros l; simpl.
  { by intros [= <- <-]. }
  destruct (visit h now name l) as [c1 l1] eqn:Hv.
  intros Hr Hl. pose proof (visit_Builder _ _ _ _ _ _ _ _ Hv Hl) as H1.
  destruct c1; [by eapply IH | |]; by injection Hr as <- <-.
Qed.

Lemma walk_Builder fuel order k resolution s now c (b b0 : string) rs :
  b = b0 +:+ lines (concat rs) →
  let r := walk fuel order k resolution s now c b rs in
  sink r = b0 +:+ lines (concat (rounds r)).
Proof.
  revert k now c b rs.
  induction fuel as [|fuel IH]; intros k now c b rs Hb; simpl; [done|].
  destruct (range _ _ _ _) as [ctl l] eqn:Hr.
  assert (w l = b0 +:+ lines (concat (rs ++ [emitted l]))) as Hl.
  { rewrite concat_app. simpl. rewrite app_nil_r.
    eapply range_Builder; [exact Hr|]. simpl. by rewrite app_nil_r. }
  destruct ctl; simpl; try done.
  destruct (hasActiveMetrics l); [by apply IH | done].
Qed.

(** What a [strings.Builder] holds after [Write] is what it held before,
    followed by the lines of the samples, in the order of the calls. *)
Lemma Write_Builder fuel order resolution s (b0 : string) :
  let r := Write fuel order resolution s b0 in
  sink r = b0 +:+ lines (samples r).
Proof.
  unfold Write, samples.
  destruct (earliest _ _) as [[start|]|]; simpl;
    try by rewrite string_app_nil_r.
  apply walk_Builder. simpl. by rewrite string_app_nil_r.
Qed.

(** ** The scenario of the test *)

(** [Add] is exact as long as the sum is an instant that a [Time] can
    hold. *)
Lemma Add_exact (t d : Z) : time.inRange (t + d) → time.Add t d = t + d.
Proof.
  unfold time.inRange, time.Add, time.maxInt64, time.minInt64,
    time.unixToInternal, time.Second.
  intros H.
  destruct (Z.leb_spec 1000000000 (t mod 1000000000 + Z.rem d 1000000000));
    [|destruct (Z.ltb_spec (t mod 1000000000 + Z.rem d 1000000000) 0)].
  all: match goal with
       | |- context [(0 <? ?a) && (?m <? ?b)] =>
           destruct (Z.ltb_spec 0 a); destruct (Z.ltb_spec m b); simpl
       end.
  all: try match goal with
       | |- context [(?a <? 0) && (?b <? ?m)] =>
           destruct (Z.ltb_spec a 0); destruct (Z.ltb_spec b m); simpl
       end.
  all: Z.to_euclidean_division_equations; lia.
Qed.

(** [Unix] is exact on the instants whose seconds since the epoch are an
    [int64]. *)
Lemma Unix_exact (t : Z) :
  time.minInt64 ≤ t / time.Second ≤ time.maxInt64 →
  time.Unix t = t / time.Second.
Proof.
  unfold time.Unix, time.wrap64, time.minInt64, time.maxInt64. intros H.
  rewrite Z.mod_small; lia.
Qed.

Lemma Add_zero (t : Z) : time.Add t 0 = t.
Proof.
  unfold time.Add, time.Second. simpl Z.rem. simpl Z.quot.
  pose proof (Z.mod_pos_bound t 1000000000 ltac:(lia)).
  pose proof (Z.div_mod t 1000000000 ltac:(lia)).
  rewrite Z.add_0_r.
  destruct (Z.leb_spec 1000000000 (t mod 1000000000)); [lia|].
  destruct (Z.ltb_spec (t mod 1000000000) 0); [lia|].
  simpl. Z.to_euclidean_division_equations. lia.
Qed.

Lemma inRange_mid (a b t : Z) :
  time.inRange a → time.inRange b → a ≤ t ≤ b → time.inRange t.
Proof.
  unfold time.inRange, time.Second. intros Ha Hb Ht.
  pose proof (Z.div_le_mono a t 1000000000 ltac:(lia) ltac:(lia)).
  pose proof (Z.div_le_mono t b 1000000000 ltac:(lia) ltac:(lia)).
  lia.
Qed.

Lemma After_true (a b : Z) : b < a → time.After a b = true.
Proof. intros. unfold time.After. by apply Z.ltb_lt. Qed.

Lemma After_false (a b : Z) : a ≤ b → time.After a b = false.
Proof. intros. unfold time.After. by apply Z.ltb_ge. Qed.

Lemma walk_S {W : Type} `{!Writer W} fuel order k resolution s now c (w0 : W) rs :
  walk (S fuel) order k resolution s now c w0 rs
  = let '(ctl, l) := range (mem s) now (order k) (mkLocals c false w0 []) in
    let rs' := rs ++ [emitted l] in
    match ctl with
    | Return e => mkResult s (w l) rs' (Returned (Some e))
    | Panic => mkResult s (w l) rs' Panicked
    | Continue =>
        if hasActiveMetrics l
        then walk fuel order (S k) resolution s
                  (time.Add now resolution) (cur l) (w l) rs'
        else mkResult s (w l) rs' (Returned None)
    end.
Proof. reflexivity. Qed.

Lemma range_single h now name c (b : string) r nx hm rc :
  c !! name = Some r →
  forward (length h) h r now = Some (Some nx, hm) →
  h !! nx = Some rc →
  range h now [name] (mkLocals c false b [])
  = (Continue,
     mkLocals (if hm then <[name := nx]> c else c) hm
       (b +:+ line name (value rc) (time.Unix now))
       [(name, value rc, now)]).
Proof.
  intros Hc Hf Hrc. simpl. unfold visit. simpl. rewrite Hc, Hf.
  destruct hm; simpl; by rewrite Hrc.
Qed.

Section Scenario.
Variable T : Z.
Hypothesis HT : time.inRange T.
Hypothesis HT40 : time.inRange (T + 40 * time.Second).

(** Up to forty seconds after [T], [Add] is exact. *)
Lemma Add_scenario (t d : Z) :
  T ≤ t + d ≤ T + 40 * time.Second → time.Add t d = t + d.
Proof.
  intros H. apply Add_exact.
  by apply (inRange_mid T (T + 40 * time.Second)).
Qed.

Ltac exact_times :=
  repeat match goal with
    | |- context [time.Add ?a ?b] =>
        rewrite (Add_scenario a b) by (unfold time.Second; lia)
    end.

Ltac settle_times :=
  exact_times;
  repeat match goal with
    | |- context [time.After ?a ?b] =>
        first [ rewrite (After_true a b) by (unfold time.Second; lia)
              | rewrite (After_false a b) by (unfold time.Second; lia) ]
    end.

Lemma exec_scenario :
  exec (scenario T) newLinkedListRecorder = Some (scenario_state T).
Proof.
  unfold scenario, scenario_state. exact_times.
  cbn [exec ev_name ev_value ev_at].
  rewrite Inc_first_eq by reflexivity. cbn [mbind option_bind].
  do 4 (erewrite Inc_append_eq;
        [| reflexivity | reflexivity | unfold time.Second; simpl; lia];
        cbn [mbind option_bind]).
  reflexivity.
Qed.

#[local] Arguments time.After : simpl never.
#[local] Arguments time.Add : simpl never.
#[local] Arguments time.Unix : simpl never.
#[local] Arguments Z.mul : simpl never.
#[local] Arguments Z.add : simpl never.
#[local] Arguments line : simpl never.
#[local] Arguments walk : simpl never.

Ltac step_walk Ho :=
  rewrite walk_S, Ho;
  erewrite range_single;
    [ | reflexivity
      | repeat (progress (simpl; settle_times)); reflexivity
      | reflexivity ];
  cbn [hasActiveMetrics cur w emitted app value].

Lemma walk_scenario (fuel : nat) (order : nat → list string) (b0 : string) :
  (∀ k, order k = ["foo"]) →
  ∃ b,
    walk (5 + fuel) order 0 (10 * time.Second) (scenario_state T)
         (time.Add T (0 * time.Second)) {["foo" := 0%nat]} b0 []
    = mkResult (scenario_state T) b
        [ [("foo", 1, T)];
          [("foo", 2, T + 10 * time.Second)];
          [("foo", 4, T + 20 * time.Second)];
          [("foo", 4, T + 30 * time.Second)];
          [("foo", 5, T + 40 * time.Second)] ]
        (Returned None).
Proof.
  intros Ho. eexists.
  change (5 + fuel)%nat with (S (S (S (S (S fuel))))).
  do 5 step_walk Ho. exact_times.
  repeat (first [ progress (unfold time.Second; lia) | f_equal ]).
Qed.
End Scenario.

(** C2, the claim as stated fails at the end of the range of [time.Time]:
    from a start time [T] thirty-five seconds before the last second that a
    [Time] can hold, the calls of [Inc] are as in the test, and the fifth
    step of [Write], forty seconds after [T], is past the range: [Add]
    stops at the last second, and the fifth line carries [T+35]. *)
Lemma Test_at_the_end_of_time :
  let T := end_of_time in
  let r := Write 5 (λ _, ["foo"]) (10 * time.Second) (scenario_state T)
             EmptyString in
  let U := time.Unix T in
  time.inRange T
  ∧ exec (scenario T) newLinkedListRecorder = Some (scenario_state T)
  ∧ valid_order (scenario_state T) (λ _, ["foo"])
  ∧ out r = Returned None
  ∧ sink r = line "foo" 1 U +:+ line "foo" 2 (U + 10) +:+ line "foo" 4 (U + 20)
             +:+ line "foo" 4 (U + 30) +:+ line "foo" 5 (U + 35)
  ∧ sink r ≠ line "foo" 1 U +:+ line "foo" 2 (U + 10)
             +:+ line "foo" 4 (U + 20) +:+ line "foo" 4 (U + 30)
             +:+ line "foo" 5 (U + 40).
Proof.
  cbv zeta. split; [by vm_compute|].
  split; [by vm_compute|].
  split; [intros k; reflexivity|].
  split; [by vm_compute|].
  assert (sink (Write 5 (λ _, ["foo"]) (10 * time.Second)
                  (scenario_state end_of_time) EmptyString)
          = line "foo" 1 (time.Unix end_of_time)
            +:+ line "foo" 2 (time.Unix end_of_time + 10)
            +:+ line "foo" 4 (time.Unix end_of_time + 20)
            +:+ line "foo" 4 (time.Unix end_of_time + 30)
            +:+ line "foo" 5 (time.Unix end_of_time + 35)) as -> by (by vm_compute).
  split; [done|]. by vm_compute.
Qed.

(** C2, amended. The scenario of the test, from a start time [T] whose
    seconds since the epoch are an [int64] and such that the instant forty
    seconds later is in the range of [time.Time]: the calls of [Inc] all return, and [Write] with a
    resolution of ten seconds, into an empty [strings.Builder], returns
    without an error after five steps and has written exactly the five
    lines [foo 1 T], [foo 2 T+10], [foo 4 T+20], [foo 4 T+30] and
    [foo 5 T+40], in this order, each ended by a newline ([T] in
    seconds). *)
Theorem TestLinkedListRecorder (T : Z) (fuel : nat) (order : nat → list string) :
  time.minInt64 ≤ T / time.Second →
  time.inRange (T + 40 * time.Second) →
  (5 ≤ fuel)%nat →
  valid_order (scenario_state T) order →
  let r := Write fuel order (10 * time.Second) (scenario_state T) EmptyString in
  let U := time.Unix T in
  exec (scenario T) newLinkedListRecorder = Some (scenario_state T)
  ∧ out r = Returned None
  ∧ length (rounds r) = 5%nat
  ∧ sink r = line "foo" 1 U +:+ line "foo" 2 (U + 10) +:+ line "foo" 4 (U + 20)
             +:+ line "foo" 4 (U + 30) +:+ line "foo" 5 (U + 40).
Proof.
  intros Hlow HT40 Hfuel Ho.
  assert (T / time.Second + 40 = (T + 40 * time.Second) / time.Second) as Hdiv.
  { unfold time.Second. by rewrite Z.div_add. }
  assert (time.inRange T) as HT.
  { unfold time.inRange, time.unixToInternal, time.minInt64 in *. lia. }
  assert (∀ k, order k = ["foo"]) as Ho'.
  { intros k. apply Permutation_singleton_r. apply (Ho k). }
  assert (∃ b, Write fuel order (10 * time.Second) (scenario_state T) EmptyString
               = mkResult (scenario_state T) b
                   [ [("foo", 1, T)];
                     [("foo", 2, T + 10 * time.Second)];
                     [("foo", 4, T + 20 * time.Second)];
                     [("foo", 4, T + 30 * time.Second)];
                     [("foo", 5, T + 40 * time.Second)] ]
                   (Returned None)) as [b Hr].
  { replace fuel with (5 + (fuel - 5))%nat by lia.
    destruct (walk_scenario T HT HT40 (fuel - 5) order EmptyString Ho')
      as [b Hw].
    exists b. unfold Write.
    change (map_to_list (first (rec (scenario_state T))))
      with [("foo", 0%nat)].
    exact Hw. }
  pose proof (Write_Builder fuel order (10 * time.Second) (scenario_state T)
                EmptyString) as Hb.
  cbv zeta in *. rewrite Hb. unfold samples. rewrite Hr.
  split; [by apply exec_scenario|]. split; [done|]. split; [done|].
  cbn [rounds concat app lines foldr]. unfold render. cbn [fst snd].
  assert (∀ n, 0 ≤ n ≤ 40 →
            time.Unix (T + n * time.Second) = time.Unix T + n) as HU.
  { intros n Hn.
    assert ((T + n * time.Second) / time.Second = T / time.Second + n) as Hn'.
    { unfold time.Second. by rewrite Z.div_add. }
    unfold time.inRange, time.unixToInternal, time.minInt64, time.maxInt64 in *.
    rewrite !Unix_exact; unfold time.minInt64, time.maxInt64; lia. }
  rewrite !HU by lia. by rewrite string_app_nil_r.
Qed.

Lemma TestLinkedListRecorder_witness :
  sink (Write 5 (λ _, ["foo"]) (10 * time.Second)
          (scenario_state (time.FromUnix 1724512000)) EmptyString)
  = "foo 1 1724512000
foo 2 1724512010
foo 4 1724512020
foo 4 1724512030
foo 5 1724512040
".
Proof.
  apply (TestLinkedListRecorder (time.FromUnix 1724512000) 5 (λ _, ["foo"])).
  - by vm_compute.
  - by vm_compute.
  - lia.
  - intros k. reflexivity.
Defined.

(** ** Chains in memory *)

Lemma chain_length h al l : chain h al l → length al = length l.
Proof.
  revert l. induction al as [|a al IH]; intros [|x l]; simpl; try done.
  intros [_ H]. f_equal. by apply IH.
Qed.

Lemma chain_nil_l h l : chain h [] l → l = [].
Proof. by destruct l. Qed.

Lemma chain_lookup h al l (i a : nat) :
  chain h al l → al !! i = Some a →
  ∃ x, l !! i = Some x ∧ h !! a = Some (mkRecord x.1 x.2 (al !! S i)).
Proof.
  revert l i. induction al as [|a' al IH]; intros [|x l] i; simpl; try done.
  intros [Ha Hc]. destruct i as [|i]; simpl.
  - intros [= ->]. exists x. split; [done|]. by rewrite <- head_lookup.
  - intros Hi. by apply IH.
Qed.

Lemma chain_valid h al l (i a : nat) :
  chain h al l → al !! i = Some a → (a < length h)%nat.
Proof.
  intros Hc Hi. destruct (chain_lookup _ _ _ _ _ Hc Hi) as (x & _ & Hx).
  by eapply lookup_lt_Some.
Qed.

Lemma chain_last h al l (c : nat) :
  chain h al l → last al = Some c →
  ∃ x, last l = Some x ∧ h !! c = Some (mkRecord x.1 x.2 None).
Proof.
  revert l. induction al as [|a al IH]; intros [|x l]; simpl; try done.
  intros [Ha Hc]. destruct al as [|a' al].
  - intros [= ->]. apply chain_nil_l in Hc as ->. simpl in Ha. by exists x.
  - destruct l as [|x' l]; [done|]. intros Hl. exact (IH (x' :: l) Hc Hl).
Qed.

Lemma chain_app h h' al l : chain h al l → chain (h ++ h') al l.
Proof.
  revert l. induction al as [|a al IH]; intros [|x l]; simpl; try done.
  intros [Ha Hc]. split; [by apply lookup_app_l_Some | by apply IH].
Qed.

Lemma chain_update h al l (c : nat) rc r :
  chain h al l → h !! c = Some rc → next rc = None → last al ≠ Some c →
  chain (<[c := r]> h) al l.
Proof.
  intros Hc Hrc Hn. revert l Hc.
  induction al as [|a al IH]; intros [|x l]; simpl; try done.
  intros [Ha Hc] Hl. assert (a ≠ c) as Hne.
  { intros ->. rewrite Hrc in Ha. injection Ha as ->. simpl in Hn.
    destruct al; [by apply Hl | done]. }
  split; [by rewrite list_lookup_insert_ne|].
  apply IH; [done|]. destruct al; [done|]. exact Hl.
Qed.

Lemma chain_snoc h al l (c : nat) (x : Z * Z) (v t : Z) :
  chain h al l → last al = Some c → last l = Some x →
  chain (<[c := mkRecord x.1 x.2 (Some (length h))]> h ++ [mkRecord v t None])
        (al ++ [length h]) (l ++ [(v, t)]).
Proof.
  revert l. induction al as [|a al IH]; intros [|y l]; simpl; try done.
  intros [Ha Hc]. pose proof (lookup_lt_Some _ _ _ Ha) as Hlt.
  destruct al as [|a' al].
  - apply chain_nil_l in Hc as ->. intros [= ->] [= ->]. simpl. split.
    + rewrite lookup_app_l by (by rewrite length_insert).
      by rewrite list_lookup_insert_eq.
    + split; [|done]. rewrite lookup_app_r by (by rewrite length_insert).
      by rewrite length_insert, Nat.sub_diag.
  - destruct l as [|y' l]; [done|]. intros Hl Hx.
    pose proof (chain_last _ _ _ _ Hc Hl) as (x' & Hx' & Hhc).
    assert (a ≠ c) as Hne.
    { intros ->. rewrite Hhc in Ha. done. }
    split.
    + rewrite lookup_app_l by (by rewrite length_insert).
      by rewrite list_lookup_insert_ne.
    + by apply IH.
Qed.

(** ** The invariant of the recorder *)

Lemma nodes_snoc name evs e :
  nodes name (evs ++ [e]) = grow name (nodes name evs) e.
Proof. unfold nodes. by rewrite fold_left_app. Qed.

Lemma accepted_snoc name evs e :
  accepted name (evs ++ [e]) = accept name (accepted name evs) e.
Proof. unfold accepted. by rewrite fold_left_app. Qed.

Lemma grow_other name l e : ev_name e ≠ name → grow name l e = l.
Proof. intros. unfold grow. by destruct (decide _). Qed.

Lemma inv_new : inv [] newLinkedListRecorder.
Proof.
  split; simpl.
  - intros a rc n H. by destruct a.
  - intros name. exists []. by rewrite !lookup_empty.
  - intros n1 n2 a H. by rewrite lookup_empty in H.
Qed.

Lemma inv_current_valid evs s name a :
  inv evs s → current (rec s) !! name = Some a → (a < length (mem s))%nat.
Proof.
  intros Hi Ha. destruct (inv_chain _ _ Hi name) as (al & Hc & _ & Hl).
  rewrite Ha, last_lookup in Hl. symmetry in Hl. by eapply chain_valid.
Qed.

Lemma inv_first_valid evs s name a :
  inv evs s → first (rec s) !! name = Some a → (a < length (mem s))%nat.
Proof.
  intros Hi Ha. destruct (inv_chain _ _ Hi name) as (al & Hc & Hf & _).
  rewrite Ha, head_lookup in Hf. symmetry in Hf. by eapply chain_valid.
Qed.

(** ** [Inc] on a series that has a chain *)

(** C6. On a series that has a chain, [Inc] with a timestamp strictly
    earlier than that of the current tail record returns normally and
    changes neither the records (so no chain and no cumulative value), nor
    the maps of first and current records: it only prints the message. *)
Theorem Inc_out_of_order (s : state) (name : string) (v t : Z) (c : nat)
    (tail : record) :
  current (rec s) !! name = Some c →
  mem s !! c = Some tail →
  t < at_ tail →
  ∃ s', Inc name v t s = Some s'
        ∧ mem s' = mem s
        ∧ rec s' = rec s
        ∧ (mem s' !! c = Some tail ∧ current (rec s') !! name = Some c)
        ∧ stdout s' = stdout s ++ [ignoring name t (at_ tail)].
Proof.
  intros Hc Ht Hlt. unfold Inc. rewrite Hc, Ht. simpl.
  unfold time.After. destruct (Z.ltb_spec t (at_ tail)); [|lia].
  eexists. split; [reflexivity|]. simpl. by repeat split.
Qed.

Lemma Inc_out_of_order_witness :
  ∃ s', Inc "foo" 7 (32 * time.Second) (scenario_state 0) = Some s'
        ∧ mem s' = mem (scenario_state 0)
        ∧ rec s' = rec (scenario_state 0).
Proof.
  destruct (Inc_out_of_order (scenario_state 0) "foo" 7 (32 * time.Second) 4
              (mkRecord 5 (time.Add 0 (33 * time.Second)) None))
    as (s' & H1 & H2 & H3 & _); [reflexivity | reflexivity | reflexivity |].
  exists s'. by repeat split.
Defined.

(** C7, the claim as stated fails when the counter passes the end of
    [uint64]: after an increment of [2^64 - 1], an increment of [1] at the
    same time appends a record whose value is [0], not [2^64]. *)
Lemma Inc_value_wraps :
  ∃ s s' tail,
    exec [Ev "a" (two64 - 1) 0] newLinkedListRecorder = Some s
    ∧ current (rec s) !! "a" = Some 0%nat
    ∧ mem s !! 0%nat = Some tail
    ∧ at_ tail ≤ 0
    ∧ Inc "a" 1 0 s = Some s'
    ∧ (value <$> last (mem s')) = Some 0
    ∧ value tail + 1 = 18446744073709551616.
Proof.
  eexists _, _, _. split; [reflexivity|].
  split; [reflexivity|]. split; [reflexivity|].
  split; [simpl; lia|]. split; [reflexivity|]. split; reflexivity.
Qed.

(** C7, amended. On a series that has a chain, [Inc] with a timestamp equal
    to or later than that of the current tail record allocates exactly one
    record, with the value of the old tail plus the amount modulo 2^64
    (the sum itself when that is below 2^64) and no successor, makes it the
    successor of the old tail and the current record of the series, and
    leaves every other record, the first records and the other series
    alone, so that the chain of the series is the old chain followed by
    the new record; a timestamp equal to that of the tail is no exception,
    so two records then stand at the same instant. *)
Theorem Inc_appends (s : state) (name : string) (v t : Z) (c : nat)
    (tail : record) :
  current (rec s) !! name = Some c →
  mem s !! c = Some tail →
  at_ tail ≤ t →
  let new := mkRecord ((value tail + v) mod 2 ^ 64) t None in
  ∃ s', Inc name v t s = Some s'
        ∧ mem s' = <[c := mkRecord (value tail) (at_ tail) (Some (length (mem s)))]>
                     (mem s) ++ [new]
        ∧ length (mem s') = S (length (mem s))
        ∧ mem s' !! c = Some (mkRecord (value tail) (at_ tail) (Some (length (mem s))))
        ∧ mem s' !! length (mem s) = Some new
        ∧ (∀ a, a ≠ c → (a < length (mem s))%nat → mem s' !! a = mem s !! a)
        ∧ current (rec s') = <[name := length (mem s)]> (current (rec s))
        ∧ first (rec s') = first (rec s)
        ∧ stdout s' = stdout s
        ∧ (∀ al l, chain (mem s) al l → last al = Some c →
             chain (mem s') (al ++ [length (mem s)])
                   (l ++ [((value tail + v) mod 2 ^ 64, t)]))
        ∧ (value tail + v < 2 ^ 64 → 0 ≤ value tail + v → value new = value tail + v).
Proof.
  intros Hc Ht Hle new. unfold Inc. rewrite Hc, Ht. simpl.
  unfold time.After. destruct (Z.ltb_spec t (at_ tail)); [lia|].
  pose proof (lookup_lt_Some _ _ _ Ht) as Hlt.
  eexists. split; [reflexivity|]. simpl. repeat split.
  - by rewrite length_app, length_insert, Nat.add_1_r.
  - rewrite lookup_app_l by (by rewrite length_insert).
    by apply list_lookup_insert_eq.
  - rewrite lookup_app_r by (by rewrite length_insert).
    by rewrite length_insert, Nat.sub_diag.
  - intros a Hne Ha. rewrite lookup_app_l by (by rewrite length_insert).
    by rewrite list_lookup_insert_ne.
  - intros al l Hch Hl.
    destruct (chain_last _ _ _ _ Hch Hl) as (x & Hx & Hhc).
    rewrite Ht in Hhc. injection Hhc as ->. simpl.
    by apply (chain_snoc _ _ _ c x).
  - intros Hhi Hlo. apply Z.mod_small. lia.
Qed.

Lemma Inc_appends_witness :
  ∃ s', Inc "foo" 7 (33 * time.Second) (scenario_state 0) = Some s'
        ∧ mem s' !! 5%nat = Some (mkRecord 12 (33 * time.Second) None)
        ∧ mem s' !! 4%nat
          = Some (mkRecord 5 (time.Add 0 (33 * time.Second)) (Some 5%nat)).
Proof.
  destruct (Inc_appends (scenario_state 0) "foo" 7 (33 * time.Second) 4
              (mkRecord 5 (time.Add 0 (33 * time.Second)) None))
    as (s' & H1 & _ & _ & H4 & H5 & _);
    [reflexivity | reflexivity | by vm_compute |].
  exists s'. split; [exact H1|]. split; [exact H5 | exact H4].
Defined.


Lemma inv_next_app s (r' : record) (c : nat) (rc : record) :
  (∀ a rc n, mem s !! a = Some rc → next rc = Some n
             → (a < n < length (mem s))%nat) →
  mem s !! c = Some rc →
  ∀ a rc' n,
    (<[c := mkRecord (value rc) (at_ rc) (Some (length (mem s)))]> (mem s)
       ++ [r']) !! a = Some rc' →
    next r' = None →
    next rc' = Some n →
    (a < n < length (<[c := mkRecord (value rc) (at_ rc) (Some (length (mem s)))]>
                       (mem s) ++ [r']))%nat.
Proof.
  intros Hnext Hc a rc' n Ha Hr' Hn.
  pose proof (lookup_lt_Some _ _ _ Hc) as Hlt.
  rewrite length_app, length_insert. simpl.
  apply lookup_app_Some in Ha as [Ha|[Hge Ha]].
  - destruct (decide (a = c)) as [->|Hne].
    + rewrite list_lookup_insert_eq in Ha by done.
      injection Ha as <-. simpl in Hn. injection Hn as <-. lia.
    + rewrite list_lookup_insert_ne in Ha by done.
      pose proof (Hnext _ _ _ Ha Hn). lia.
  - rewrite length_insert in Hge, Ha.
    destruct (a - length (mem s))%nat; simpl in Ha; [|done].
    injection Ha as <-. congruence.
Qed.

(** A call of [Inc] on a recorder built by calls of [Inc] returns, and the
    recorder it leaves is the one built by one more call. *)
Lemma Inc_inv evs s e :
  inv evs s →
  ∃ s', Inc (ev_name e) (ev_value e) (ev_at e) s = Some s'
        ∧ inv (evs ++ [e]) s'.
Proof.
  intros Hi. destruct e as [name v t]. simpl.
  destruct (inv_chain _ _ Hi name) as (al & Hc & Hf & Hl).
  destruct (current (rec s) !! name) as [c|] eqn:Hcur.
  - (* the series has a chain *)
    symmetry in Hl.
    destruct (chain_last _ _ _ _ Hc Hl) as (x & Hx & Hhc).
    destruct (Z_lt_le_dec t x.2) as [Hlt|Hle].
    + (* not accepted *)
      rewrite (Inc_drop_eq _ _ _ _ _ _ Hcur Hhc) by done.
      eexists. split; [done|].
      split; simpl; [apply Hi | | apply Hi].
      intros name'. destruct (inv_chain _ _ Hi name') as (al' & Hc' & Hf' & Hl').
      exists al'. split; [|done].
      rewrite nodes_snoc. unfold grow. simpl.
      destruct (decide (name = name')) as [<-|Hne]; [|done].
      rewrite Hx. destruct x as [c0 t0]. simpl in Hlt.
      by destruct (Z.ltb_spec t t0); [|lia].
    + (* a new tail *)
      rewrite (Inc_append_eq _ _ _ _ _ _ Hcur Hhc) by done. simpl.
      eexists. split; [done|].
      split; simpl.
      * intros a rc' n Ha Hn.
        eapply (inv_next_app s _ c _ (inv_next _ _ Hi) Hhc); done.
      * intros name'. destruct (decide (name = name')) as [<-|Hne].
        -- exists (al ++ [length (mem s)]).
           rewrite nodes_snoc. unfold grow. simpl.
           destruct (decide (name = name)); [|done].
           rewrite Hx. destruct x as [c0 t0]. simpl in *.
           destruct (Z.ltb_spec t t0); [lia|].
           split; [by apply (chain_snoc _ _ _ c (c0, t0))|].
           rewrite lookup_insert_eq, last_snoc, head_app, <- Hf.
           split; [|done]. destruct al; [done|]. simpl in Hf.
           by rewrite Hf.
        -- destruct (inv_chain _ _ Hi name') as (al' & Hc' & Hf' & Hl').
           exists al'. rewrite nodes_snoc, grow_other by done.
           rewrite lookup_insert_ne by done. split; [|done].
           apply chain_app. eapply chain_update; [done|exact Hhc|done|].
           rewrite <- Hl'. intros Heq.
           by pose proof (inv_current _ _ Hi _ _ _ Heq Hcur).
      * intros n1 n2 a.
        destruct (decide (name = n1)) as [<-|H1];
          destruct (decide (name = n2)) as [<-|H2]; try done.
        -- rewrite lookup_insert_eq, lookup_insert_ne by done.
           intros [= <-] H. pose proof (inv_current_valid _ _ _ _ Hi H). lia.
        -- rewrite lookup_insert_eq, lookup_insert_ne by done.
           intros H [= <-]. pose proof (inv_current_valid _ _ _ _ Hi H). lia.
        -- rewrite !lookup_insert_ne by done. apply (inv_current _ _ Hi).
  - (* the first call for the series *)
    rewrite (Inc_first_eq _ _ _ _ Hcur).
    symmetry in Hl. apply last_None in Hl as ->.
    apply chain_nil_l in Hc as Hn. simpl in Hf.
    eexists. split; [done|].
    split; simpl.
    + intros a rc n Ha Hn'. rewrite length_app. simpl.
      apply lookup_app_Some in Ha as [Ha|[Hge Ha]].
      * pose proof (inv_next _ _ Hi _ _ _ Ha Hn'). lia.
      * destruct (a - length (mem s))%nat; simpl in Ha; [|done].
        injection Ha as <-. done.
    + intros name'. destruct (decide (name = name')) as [<-|Hne].
      * exists [length (mem s)]. rewrite nodes_snoc, Hn. unfold grow. simpl.
        destruct (decide (name = name)); [|done]. simpl.
        rewrite !lookup_insert_eq. split; [|done]. split; [|done].
        rewrite lookup_app_r by done. by rewrite Nat.sub_diag.
      * destruct (inv_chain _ _ Hi name') as (al' & Hc' & Hf' & Hl').
        exists al'. rewrite nodes_snoc, grow_other by done.
        rewrite !lookup_insert_ne by done. split; [|done].
        by apply chain_app.
    + intros n1 n2 a.
      destruct (decide (name = n1)) as [<-|H1];
        destruct (decide (name = n2)) as [<-|H2]; try done.
      * rewrite lookup_insert_eq, lookup_insert_ne by done.
        intros [= <-] H. pose proof (inv_current_valid _ _ _ _ Hi H). lia.
      * rewrite lookup_insert_eq, lookup_insert_ne by done.
        intros H [= <-]. pose proof (inv_current_valid _ _ _ _ Hi H). lia.
      * rewrite !lookup_insert_ne by done. apply (inv_current _ _ Hi).
Qed.

Lemma exec_inv evs0 s0 evs :
  inv evs0 s0 → ∃ s, exec evs s0 = Some s ∧ inv (evs0 ++ evs) s.
Proof.
  revert evs0 s0. induction evs as [|e evs IH]; intros evs0 s0 Hi; simpl.
  - exists s0. by rewrite app_nil_r.
  - destruct (Inc_inv _ _ e Hi) as (s1 & -> & H1). simpl.
    destruct (IH _ _ H1) as (s & Hs & H2). exists s.
    by rewrite <- app_assoc in H2.
Qed.

(** The calls of [Inc] never fault, and the invariant holds after them. *)
Lemma exec_new evs :
  ∃ s, exec evs newLinkedListRecorder = Some s ∧ inv evs s.
Proof. apply (exec_inv [] _ evs inv_new). Qed.

Lemma exec_new_inv evs s :
  exec evs newLinkedListRecorder = Some s → inv evs s.
Proof.
  intros H. destruct (exec_new evs) as (s' & Hs & Hi). congruence.
Qed.

(** ** Histories *)

Lemma sumZ_app (a b : list Z) : sumZ (a ++ b) = sumZ a + sumZ b.
Proof. induction a as [|x a IH]; simpl; [done|]. rewrite IH. lia. Qed.

Lemma filter_all {A} (P : A → Prop) `{!∀ x, Decision (P x)} (l : list A) :
  Forall P l → filter P l = l.
Proof.
  induction 1 as [|x l Hx Hl IH]; [done|].
  by rewrite filter_cons_True, IH.
Qed.

Lemma filter_none {A} (P : A → Prop) `{!∀ x, Decision (P x)} (l : list A) :
  Forall (λ x, ¬ P x) l → filter P l = [].
Proof.
  induction 1 as [|x l Hx Hl IH]; [done|].
  by rewrite filter_cons_False.
Qed.

Lemma history name evs :
  uint64_amounts evs →
  sums (nodes name evs) (accepted name evs) ∧ sorted_at (accepted name evs).
Proof.
  induction evs as [|e evs IH] using rev_ind; intros Hu.
  { split; [split; [done|]|]; by intros []. }
  apply Forall_app in Hu as [Hu He]. apply Forall_inv in He.
  destruct (IH Hu) as [[Hats Hsum] Hsort]. clear IH.
  rewrite nodes_snoc, accepted_snoc. unfold grow, accept.
  destruct (decide (ev_name e = name)) as [_|]; [|done].
  set (l := nodes name evs) in *. set (acc := accepted name evs) in *.
  assert (length l = length acc) as Hlen.
  { by rewrite <- (length_fmap snd l), Hats, length_fmap. }
  pose proof (fmap_last snd l) as Hl. rewrite Hats, fmap_last in Hl.
  destruct (last l) as [[c0 t0]|] eqn:Hll;
    destruct (last acc) as [[a0 t0']|] eqn:Hla; simplify_eq/=.
  - destruct (Z.ltb_spec (ev_at e) t0) as [Hlt|Hle]; [done|].
    rewrite last_lookup in Hll, Hla.
    assert (length acc ≠ 0)%nat as Hpos.
    { intros H0. rewrite H0 in Hla. by destruct acc. }
    split; [split|].
    + by rewrite !fmap_app, Hats.
    + intros j x Hj. apply lookup_app_Some in Hj as [Hj|[Hge Hj]].
      * pose proof (lookup_lt_Some _ _ _ Hj).
        rewrite take_app_le by lia. by apply Hsum.
      * destruct (j - length l)%nat eqn:Hjl; simpl in Hj; [|done].
        injection Hj as <-. simpl.
        rewrite take_ge by (rewrite length_app; simpl; lia).
        rewrite fmap_app, sumZ_app. simpl.
        pose proof (Hsum _ _ Hll) as Hc0. simpl in Hc0.
        replace (S (Init.Nat.pred (length l))) with (length acc) in Hc0 by lia.
        rewrite firstn_all in Hc0. rewrite Hc0. unfold add64.
        rewrite Zplus_mod_idemp_l. f_equal. lia.
    + intros i j x y Hij Hi Hj.
      apply lookup_app_Some in Hi as [Hi|[Hgi Hi]];
        apply lookup_app_Some in Hj as [Hj|[Hgj Hj]].
      * by eapply Hsort.
      * destruct (j - length acc)%nat; simpl in Hj; [|done].
        injection Hj as <-. simpl.
        pose proof (lookup_lt_Some _ _ _ Hi).
        assert (x.2 ≤ t0); [|lia].
        eapply (Hsort i (Init.Nat.pred (length acc)) x (a0, t0)); [lia|done|done].
      * pose proof (lookup_lt_Some _ _ _ Hj). lia.
      * destruct (i - length acc)%nat; simpl in Hi; [|done].
        destruct (j - length acc)%nat; simpl in Hj; [|done].
        by simplify_eq.
  - apply last_None in Hll, Hla. rewrite Hll, Hla. simpl.
    split; [split; [done|]|].
    + intros [|j] x Hj; [|done]. injection Hj as <-. simpl.
      unfold two64 in *. rewrite Z.mod_small; lia.
    + intros [|i] [|j] x y _ Hi Hj; try done. by simplify_eq/=.
Qed.

(** The value of the node that is current at the time [to]. *)
Lemma total_at l acc (j : nat) (x : Z * Z) (to : Z) :
  sums l acc → sorted_at acc →
  l !! j = Some x → x.2 ≤ to → (∀ y, l !! S j = Some y → to < y.2) →
  x.1 = total_until to acc mod two64.
Proof.
  intros [Hats Hsum] Hsort Hj Hle Hnext.
  rewrite (Hsum _ _ Hj). unfold total_until. do 3 f_equal.
  assert (∀ i y, acc !! i = Some y → ∃ z, l !! i = Some z ∧ z.2 = y.2) as Hback.
  { intros i y Hi.
    assert (acc.*2 !! i = Some y.2) as H by (by rewrite list_lookup_fmap, Hi).
    rewrite <- Hats, list_lookup_fmap in H.
    destruct (l !! i) as [z|]; [|done]. exists z. split; [done|].
    by injection H. }
  assert (∃ a, acc !! j = Some a ∧ a.2 = x.2) as (a & Ha & Hax).
  { assert (l.*2 !! j = Some x.2) as H by (by rewrite list_lookup_fmap, Hj).
    rewrite Hats, list_lookup_fmap in H.
    destruct (acc !! j) as [a|]; [|done]. exists a. split; [done|].
    by injection H. }
  rewrite <- (take_drop (S j) acc) at 2. rewrite filter_app.
  rewrite filter_all, filter_none; [by rewrite app_nil_r | |].
  - apply Forall_lookup. intros i y Hi. rewrite lookup_drop in Hi.
    destruct (acc !! S j) as [b|] eqn:Hb.
    + destruct (Hback _ _ Hb) as (z & Hz & Hzb).
      pose proof (Hnext _ Hz).
      pose proof (Hsort (S j) (S j + i)%nat b y ltac:(lia) Hb Hi). lia.
    + apply lookup_ge_None in Hb. apply lookup_lt_Some in Hi. lia.
  - apply Forall_lookup. intros i y Hi.
    apply lookup_take_Some in Hi as [Hi Hlt].
    pose proof (Hsort i j y a ltac:(lia) Hi Ha). simpl. lia.
Qed.

(** ** [forward] on a chain *)

Lemma forward_chain h al l :
  chain h al l →
  ∀ fuel (i a : nat) to nx hm,
    al !! i = Some a →
    forward fuel h a to = Some (Some nx, hm) →
    ∃ (j : nat) x,
      (i ≤ j)%nat ∧ al !! j = Some nx ∧ l !! j = Some x ∧ x.2 ≤ to
      ∧ ∀ y, l !! S j = Some y → to < y.2.
Proof.
  intros Hc fuel. induction fuel as [|fuel IH]; intros i a to nx hm Hi; [done|].
  simpl. destruct (chain_lookup _ _ _ _ _ Hc Hi) as (x & Hx & Hh).
  rewrite Hh. simpl. unfold time.After.
  destruct (Z.ltb_spec to x.2) as [|Hle]; [done|].
  destruct (al !! S i) as [n|] eqn:Hn.
  - destruct (chain_lookup _ _ _ _ _ Hc Hn) as (y & Hy & Hhn).
    rewrite Hhn. simpl. destruct (Z.ltb_spec to y.2) as [Hlt|].
    + intros [= <- <-]. exists i, x. repeat split; try done.
      intros y' Hy'. by simplify_eq.
    + intros Hf. destruct (IH _ _ _ _ _ Hn Hf) as (j & x' & Hij & Hrest).
      exists j, x'. split; [lia | done].
  - intros [= <- <-]. exists i, x. repeat split; try done.
    intros y Hy. apply lookup_ge_None in Hn. apply lookup_lt_Some in Hy.
    apply chain_length in Hc. lia.
Qed.

(** Where pointers go forward, [forward] returns within the depth of the
    memory, with an allocated record if any. *)
Lemma forward_total h fuel (a : nat) to :
  forward_safe h → (a < length h)%nat → (length h - a ≤ fuel)%nat →
  ∃ nx hm, forward fuel h a to = Some (nx, hm)
           ∧ ∀ b, nx = Some b → (b < length h)%nat.
Proof.
  intros Hs. revert a. induction fuel as [|fuel IH]; intros a Ha Hf; [lia|].
  simpl. destruct (lookup_lt_is_Some_2 _ _ Ha) as [rc Hrc]. rewrite Hrc. simpl.
  destruct (time.After (at_ rc) to); [by eexists _, _|].
  destruct (next rc) as [n|] eqn:Hn.
  - pose proof (Hs _ _ _ Hrc Hn) as Hlt.
    destruct (lookup_lt_is_Some_2 h n ltac:(lia)) as [nrc Hnrc].
    rewrite Hnrc. simpl. destruct (time.After (at_ nrc) to).
    + eexists _, _. split; [done|]. by intros b [= <-].
    + apply IH; lia.
  - eexists _, _. split; [done|]. by intros b [= <-].
Qed.

(** More fuel does not change what [forward] returns. *)
Lemma forward_fuel h fuel fuel' (a : nat) to r :
  forward fuel h a to = Some r → (fuel ≤ fuel')%nat →
  forward fuel' h a to = Some r.
Proof.
  revert fuel' a. induction fuel as [|fuel IH]; intros fuel' a; [done|].
  intros Hf Hle. destruct fuel' as [|fuel']; [lia|]. simpl in *.
  destruct (h !! a) as [rc|]; simpl in *; [|done].
  destruct (time.After (at_ rc) to); [done|].
  destruct (next rc) as [n|]; [|done].
  destruct (h !! n) as [nrc|]; simpl in *; [|done].
  destruct (time.After (at_ nrc) to); [done|].
  apply IH; [done | lia].
Qed.

Lemma inv_forward_safe evs s : inv evs s → forward_safe (mem s).
Proof. intros Hi. exact (inv_next _ _ Hi). Qed.

Lemma inv_cursors_ok evs s : inv evs s → cursors_ok evs (mem s) (first (rec s)).
Proof.
  intros Hi name a Ha. destruct (inv_chain _ _ Hi name) as (al & Hc & Hf & _).
  exists al, 0%nat. by rewrite <- head_lookup, <- Hf.
Qed.

Lemma inv_cursors_valid evs s : inv evs s → cursors_valid (mem s) (first (rec s)).
Proof. intros Hi name a Ha. by eapply inv_first_valid. Qed.

(** ** The samples of the walk *)

Section Samples.
Context {W : Type} `{!Writer W}.

Lemma visit_latest evs h now name (l l' : locals W) ctl :
  cursors_ok evs h (cur l) → Forall (latest evs) (emitted l) →
  visit h now name l = (ctl, l') →
  cursors_ok evs h (cur l') ∧ Forall (latest evs) (emitted l').
Proof.
  intros Hok Hem. unfold visit.
  destruct (cur l !! name) as [r|] eqn:Hr; [|by intros [= <- <-]].
  destruct (forward _ _ _ _) as [[[nx|] hm]|] eqn:Hf; try by intros [= <- <-].
  destruct (Hok _ _ Hr) as (al & i & Hc & Hi).
  destruct (forward_chain _ _ _ Hc _ _ _ _ _ _ Hi Hf)
    as (j & x & Hij & Hj & Hx & Hle & Hnext).
  destruct (chain_lookup _ _ _ _ _ Hc Hj) as (x' & Hx' & Hnx).
  assert (x' = x) as -> by congruence. rewrite Hnx.
  assert (cursors_ok evs h (<[name := nx]> (cur l))) as Hok'.
  { intros name' a. destruct (decide (name = name')) as [<-|Hne].
    - rewrite lookup_insert_eq. intros [= <-]. by exists al, j.
    - rewrite lookup_insert_ne by done. apply Hok. }
  assert (latest evs (name, x.1, now)) as Hlat.
  { exists j, x.2. simpl. by destruct x. }
  destruct hm; simpl; destruct (Fprint _ _) as [w' [e|]];
    intros [= <- <-]; simpl; (split; [done|]);
    apply Forall_app; split; try done; by apply Forall_singleton.
Qed.

Lemma range_latest evs h now names (l l' : locals W) ctl :
  cursors_ok evs h (cur l) → Forall (latest evs) (emitted l) →
  range h now names l = (ctl, l') →
  cursors_ok evs h (cur l') ∧ Forall (latest evs) (emitted l').
Proof.
  revert l. induction names as [|name names IH]; intros l Hok Hem; simpl.
  { by intros [= <- <-]. }
  destruct (visit h now name l) as [c1 l1] eqn:Hv.
  destruct (visit_latest _ _ _ _ _ _ _ Hok Hem Hv) as [Hok1 Hem1].
  destruct c1; [by apply IH | |]; by intros [= <- <-].
Qed.

Lemma walk_latest evs fuel order k resolution s now c (w0 : W) rs :
  cursors_ok evs (mem s) c → Forall (Forall (latest evs)) rs →
  Forall (Forall (latest evs))
    (rounds (walk fuel order k resolution s now c w0 rs)).
Proof.
  revert k now c w0 rs.
  induction fuel as [|fuel IH]; intros k now c w0 rs Hok Hrs; simpl; [done|].
  destruct (range _ _ _ _) as [ctl l] eqn:Hr.
  destruct (range_latest evs _ _ _ (mkLocals c false w0 []) _ _ Hok
              (Forall_nil_2 _) Hr) as [Hok' Hem].
  assert (Forall (Forall (latest evs)) (rs ++ [emitted l])) as Hrs'.
  { apply Forall_app. split; [done|]. by apply Forall_singleton. }
  destruct ctl; simpl; try done.
  destruct (hasActiveMetrics l); [by apply IH | done].
Qed.

Lemma Write_latest evs fuel order resolution s (w0 : W) x :
  exec evs newLinkedListRecorder = Some s →
  x ∈ samples (Write fuel order resolution s w0) → latest evs x.
Proof.
  intros He%exec_new_inv Hx. unfold samples in Hx.
  apply list_elem_of_In, in_concat in Hx as (r & Hr & Hx).
  apply list_elem_of_In in Hr, Hx.
  assert (Forall (Forall (latest evs))
            (rounds (Write fuel order resolution s w0))) as Hall.
  { unfold Write. destruct (earliest _ _) as [[start|]|]; simpl; try done.
    apply walk_latest; [by apply inv_cursors_ok | done]. }
  rewrite Forall_forall in Hall. specialize (Hall _ Hr).
  rewrite Forall_forall in Hall. by apply Hall.
Qed.
End Samples.

Lemma accepted_amounts name evs :
  uint64_amounts evs → Forall (λ a, 0 ≤ a.1) (accepted name evs).
Proof.
  induction evs as [|e evs IH] using rev_ind; intros Hu; [done|].
  apply Forall_app in Hu as [Hu He]. apply Forall_inv in He.
  rewrite accepted_snoc. unfold accept.
  destruct (decide _); [|by apply IH].
  assert (Forall (λ a, 0 ≤ a.1) (accepted name evs ++ [(ev_value e, ev_at e)])).
  { apply Forall_app. split; [by apply IH|]. apply Forall_singleton. simpl. lia. }
  destruct (last _) as [[c t]|]; [|done].
  destruct (_ <? _); [by apply IH | done].
Qed.

Lemma total_until_bounds t acc :
  Forall (λ a, 0 ≤ a.1) acc → 0 ≤ total_until t acc ≤ sumZ acc.*1.
Proof.
  unfold total_until, sumZ. induction 1 as [|a acc Ha Hacc IH]; [simpl; lia|].
  destruct (decide (a.2 ≤ t)).
  - rewrite filter_cons_True by done. rewrite !fmap_cons. cbn [foldr]. lia.
  - rewrite filter_cons_False by done. rewrite !fmap_cons. cbn [foldr]. lia.
Qed.

(** C1, the claim as stated fails when the sum passes the end of [uint64]:
    after increments of [2^64 - 1] and [1], [Write] emits the value [0]
    for a series whose accepted increments sum up to [2^64]. *)
Lemma Write_value_wraps :
  uint64_amounts wrapping
  ∧ ∃ s, exec wrapping newLinkedListRecorder = Some s
         ∧ ("a", 0, 0) ∈ samples (Write 1 (λ _, ["a"]) time.Second s EmptyString)
         ∧ total_until 0 (accepted "a" wrapping) = 18446744073709551616.
Proof.
  split.
  - repeat constructor; unfold two64; simpl; lia.
  - eexists. split; [reflexivity|]. split; [|reflexivity].
    apply list_elem_of_In. vm_compute. by left.
Qed.

(** C1, amended. For every recorder built by calls of [Inc], and every
    sample that [Write] emits for a series at a step (whatever the
    resolution, the writer and the order of the visits, and however long
    the walk is run), the value of the sample is that of the latest node of
    the series with a timestamp at or before the time of the step, and it
    equals the sum of the amounts of the accepted increments of the series
    with such a timestamp, modulo 2^64: the sum itself as long as the
    accepted increments of the series sum up to less than 2^64. *)
Theorem Write_value_is_sum_mod {W : Type} `{!Writer W} (evs : list event)
    (s : state) fuel order resolution (w0 : W) (name : string) (v t : Z) :
  uint64_amounts evs →
  exec evs newLinkedListRecorder = Some s →
  (name, v, t) ∈ samples (Write fuel order resolution s w0) →
  latest evs (name, v, t)
  ∧ v = total_until t (accepted name evs) mod 2 ^ 64
  ∧ (sumZ (accepted name evs).*1 < 2 ^ 64 →
     v = total_until t (accepted name evs)).
Proof.
  intros Hu He Hx. pose proof (Write_latest _ _ _ _ _ _ _ He Hx) as Hlat.
  split; [done|].
  destruct Hlat as (j & tj & Hj & Hle & Hnext). simpl in *.
  destruct (history name evs Hu) as [Hsums Hsort].
  pose proof (total_at _ _ _ _ _ Hsums Hsort Hj Hle Hnext) as Hv. simpl in Hv.
  split; [done|]. intros Hsum. rewrite Hv. apply Z.mod_small.
  pose proof (total_until_bounds t _ (accepted_amounts name evs Hu)).
  unfold two64. lia.
Qed.

Lemma Write_value_is_sum_mod_witness :
  4 = total_until (30 * time.Second) (accepted "foo" (scenario 0)).
Proof.
  apply (Write_value_is_sum_mod (scenario 0) (scenario_state 0) 5
           (λ _, ["foo"]) (10 * time.Second) EmptyString "foo" 4
           (30 * time.Second)).
  - repeat constructor; unfold two64; simpl; lia.
  - reflexivity.
  - apply list_elem_of_In. vm_compute. tauto.
  - vm_compute. reflexivity.
Defined.

Lemma sorted_nodes l acc : sums l acc → sorted_at acc → sorted_at l.
Proof.
  intros [Hats _] Hs i j x y Hij Hi Hj.
  assert (∀ k z, l !! k = Some z → ∃ z', acc !! k = Some z' ∧ z'.2 = z.2) as Hto.
  { intros k z Hk.
    assert (l.*2 !! k = Some z.2) as H by (by rewrite list_lookup_fmap, Hk).
    rewrite Hats, list_lookup_fmap in H.
    destruct (acc !! k) as [z'|]; [|done]. exists z'. split; [done|].
    by injection H. }
  destruct (Hto _ _ Hi) as (x' & Hx' & <-).
  destruct (Hto _ _ Hj) as (y' & Hy' & <-).
  by eapply Hs.
Qed.

Lemma inv_head_at evs s name :
  inv evs s → head_at s name = snd <$> nodes name evs !! 0%nat.
Proof.
  intros Hi. destruct (inv_chain _ _ Hi name) as (al & Hc & Hf & _).
  unfold head_at. rewrite Hf. destruct al as [|a al]; simpl.
  - by apply chain_nil_l in Hc as ->.
  - destruct (chain_lookup _ _ _ 0 a Hc eq_refl) as (x & -> & ->). done.
Qed.

(** [Write] emits no sample for a series at a step before the first
    record of the series. *)
Lemma Write_not_before_start {W : Type} `{!Writer W} (evs : list event)
    (s : state) fuel order resolution (w0 : W) (name : string) (v t : Z) :
  uint64_amounts evs →
  exec evs newLinkedListRecorder = Some s →
  (name, v, t) ∈ samples (Write fuel order resolution s w0) →
  ∃ t0, head_at s name = Some t0 ∧ t0 ≤ t.
Proof.
  intros Hu He Hx.
  destruct (Write_latest _ _ _ _ _ _ _ He Hx) as (j & tj & Hj & Hle & _).
  simpl in *. destruct (history name evs Hu) as [Hsums Hsort].
  pose proof (sorted_nodes _ _ Hsums Hsort) as Hsn.
  rewrite (inv_head_at evs) by (by apply exec_new_inv).
  destruct (nodes name evs !! 0%nat) as [x|] eqn:H0.
  - exists x.2. split; [done|].
    pose proof (Hsn 0%nat j x (v, tj) ltac:(lia) H0 Hj). simpl in *. lia.
  - apply lookup_ge_None in H0. apply lookup_lt_Some in Hj. lia.
Qed.

(** ** No fault, and termination *)

Section Safety.
Context {W : Type} `{!Writer W}.

Lemma visit_safe h now name (l l' : locals W) ctl :
  forward_safe h → cursors_valid h (cur l) →
  visit h now name l = (ctl, l') →
  ctl ≠ Panic ∧ cursors_valid h (cur l').
Proof.
  intros Hs Hv. unfold visit.
  destruct (cur l !! name) as [r|] eqn:Hr; [|by intros [= <- <-]].
  destruct (forward_total h (length h) r now Hs (Hv _ _ Hr) ltac:(lia))
    as (nx & hm & -> & Hnx).
  destruct nx as [nx|]; [|by intros [= <- <-]].
  destruct (lookup_lt_is_Some_2 h nx (Hnx _ eq_refl)) as [rc Hrc].
  rewrite Hrc.
  assert (cursors_valid h (<[name := nx]> (cur l))) as Hv'.
  { intros name' a. destruct (decide (name = name')) as [<-|Hne].
    - rewrite lookup_insert_eq. intros [= <-]. by apply Hnx.
    - rewrite lookup_insert_ne by done. apply Hv. }
  destruct hm; simpl; destruct (Fprint _ _) as [w' [e|]];
    by intros [= <- <-].
Qed.

Lemma range_safe h now names (l l' : locals W) ctl :
  forward_safe h → cursors_valid h (cur l) →
  range h now names l = (ctl, l') →
  ctl ≠ Panic ∧ cursors_valid h (cur l').
Proof.
  intros Hs. revert l. induction names as [|name names IH]; intros l Hv; simpl.
  { by intros [= <- <-]. }
  destruct (visit h now name l) as [c1 l1] eqn:Hv1.
  destruct (visit_safe _ _ _ _ _ _ Hs Hv Hv1) as [Hc1 Hv'].
  destruct c1; [by apply IH | by intros [= <- <-] | done].
Qed.

Lemma walk_safe fuel order k resolution s now c (w0 : W) rs :
  forward_safe (mem s) → cursors_valid (mem s) c →
  out (walk fuel order k resolution s now c w0 rs) ≠ Panicked.
Proof.
  intros Hs. revert k now c w0 rs.
  induction fuel as [|fuel IH]; intros k now c w0 rs Hv; simpl; [done|].
  destruct (range _ _ _ _) as [ctl l] eqn:Hr.
  destruct (range_safe _ _ _ (mkLocals c false w0 []) _ _ Hs Hv Hr) as [Hc Hv'].
  destruct ctl; simpl; try done.
  destruct (hasActiveMetrics l); [by apply IH | done].
Qed.

Lemma earliest_safe h firsts acc :
  Forall (λ nf : string * nat, (nf.2 < length h)%nat) firsts →
  acc ≠ None → fold_left (earlier h) firsts acc ≠ None.
Proof.
  intros Hf. revert acc.
  induction Hf as [|nf firsts Hnf Hf IH]; intros acc Hacc; simpl; [done|].
  apply IH. unfold earlier. destruct acc as [start|]; [|done]. simpl.
  destruct (lookup_lt_is_Some_2 h nf.2 Hnf) as [rc ->]. simpl.
  by destruct start as [t|]; [destruct (time.Before _ _)|].
Qed.

(** On a recorder built by calls of [Inc], [Write] never faults. *)
Lemma Write_no_panic evs s fuel order resolution (w0 : W) :
  exec evs newLinkedListRecorder = Some s →
  out (Write fuel order resolution s w0) ≠ Panicked.
Proof.
  intros Hi%exec_new_inv. unfold Write.
  pose proof (earliest_safe (mem s) (map_to_list (first (rec s))) (Some None))
    as He.
  destruct (earliest _ _) as [[start|]|] eqn:Hst; simpl; [|done|].
  - apply walk_safe; [by eapply inv_forward_safe | by eapply inv_cursors_valid].
  - exfalso. unfold earliest in Hst. apply He; [|done|done].
    apply Forall_forall. intros [name a] Hin%elem_of_map_to_list. simpl.
    by eapply inv_first_valid.
Qed.

(** A series is active at a step only if a record lies after the time of
    the step. *)
Lemma forward_more h fuel (r : nat) to nx :
  forward fuel h r to = Some (Some nx, true) →
  ∃ (a : nat) rc, h !! a = Some rc ∧ to < at_ rc.
Proof.
  revert r. induction fuel as [|fuel IH]; intros r; simpl; [done|].
  destruct (h !! r) as [rc|]; simpl; [|done].
  destruct (time.After (at_ rc) to); [done|].
  destruct (next rc) as [n|]; [|done].
  destruct (h !! n) as [nrc|] eqn:Hn; simpl; [|done].
  unfold time.After. destruct (Z.ltb_spec to (at_ nrc)).
  - intros _. by exists n, nrc.
  - apply IH.
Qed.

Lemma visit_active h now name (l l' : locals W) ctl :
  visit h now name l = (ctl, l') →
  hasActiveMetrics l' = true →
  hasActiveMetrics l = true ∨ ∃ (a : nat) rc, h !! a = Some rc ∧ now < at_ rc.
Proof.
  unfold visit. destruct (cur l !! name); [|intros [= <- <-]; by left].
  destruct (forward _ _ _ _) as [[[nx|] hm]|] eqn:Hf;
    try (intros [= <- <-]; by left).
  destruct hm.
  - intros _ _. right. by eapply forward_more.
  - destruct (h !! nx); [|intros [= <- <-]; by left].
    destruct (Fprint _ _) as [w' [e|]]; intros [= <- <-]; by left.
Qed.

Lemma range_active h now names (l l' : locals W) ctl :
  range h now names l = (ctl, l') →
  hasActiveMetrics l' = true →
  hasActiveMetrics l = true ∨ ∃ (a : nat) rc, h !! a = Some rc ∧ now < at_ rc.
Proof.
  revert l. induction names as [|name names IH]; intros l; simpl.
  { intros [= <- <-]. by left. }
  destruct (visit h now name l) as [c1 l1] eqn:Hv.
  assert (hasActiveMetrics l1 = true →
          hasActiveMetrics l = true
          ∨ ∃ (a : nat) rc, h !! a = Some rc ∧ now < at_ rc) as H1.
  { by eapply visit_active. }
  destruct c1.
  - intros Hr Ha. destruct (IH _ Hr Ha) as [?|?]; [by apply H1 | by right].
  - intros [= <- <-]. exact H1.
  - intros [= <- <-]. exact H1.
Qed.

(** With a positive resolution the walk ends, as long as its steps stay in
    the range of [time.Time]: it has returned at the latest at the first
    step whose time is not before the latest record. *)
Lemma walk_terminates fuel order k resolution s now c (w0 : W) rs (B : Z) :
  0 < resolution →
  (∀ (a : nat) rc, mem s !! a = Some rc → at_ rc ≤ B) →
  time.inRange (B + resolution) →
  time.inRange now →
  (1 ≤ fuel)%nat → B ≤ now + (Z.of_nat fuel - 1) * resolution →
  out (walk fuel order k resolution s now c w0 rs) ≠ OutOfFuel.
Proof.
  intros Hres HB HBr. revert k now c w0 rs.
  induction fuel as [|fuel IH]; intros k now c w0 rs Hin Hf Hnow; [lia|].
  simpl. destruct (range _ _ _ _) as [ctl l] eqn:Hr.
  destruct ctl; simpl; try done.
  destruct (hasActiveMetrics l) eqn:Ha; [|done].
  destruct (range_active _ _ _ _ _ _ Hr Ha) as [?|(a & rc & Hrc & Hlt)]; [done|].
  pose proof (HB _ _ Hrc).
  assert (time.inRange (now + resolution)) as Hin'.
  { apply (inRange_mid now (B + resolution)); [done|done|lia]. }
  rewrite (Add_exact now resolution Hin'). apply IH; [done|nia|nia].
Qed.

Lemma walk_fuel fuel fuel' order k resolution s now c (w0 : W) rs :
  out (walk fuel order k resolution s now c w0 rs) ≠ OutOfFuel →
  (fuel ≤ fuel')%nat →
  walk fuel' order k resolution s now c w0 rs
  = walk fuel order k resolution s now c w0 rs.
Proof.
  revert fuel' k now c w0 rs.
  induction fuel as [|fuel IH]; intros fuel' k now c w0 rs; simpl; [done|].
  intros Ho Hle. destruct fuel' as [|fuel']; [lia|]. simpl.
  destruct (range _ _ _ _) as [ctl l]. destruct ctl; try done.
  destruct (hasActiveMetrics l); [|done]. apply IH; [done | lia].
Qed.

(** With a positive resolution [Write] returns, after at most
    [ceil ((B - start) / resolution) + 1] steps, for [B] the latest
    timestamp of a record and [start] the earliest first timestamp; with
    more fuel the result is the same. *)
Lemma Write_terminates evs s order resolution (w0 : W) (B : Z) :
  exec evs newLinkedListRecorder = Some s →
  0 < resolution →
  (∀ (a : nat) rc, mem s !! a = Some rc → at_ rc ≤ B) →
  time.inRange (B + resolution) →
  (∀ start, earliest (mem s) (map_to_list (first (rec s))) = Some (Some start) →
            time.inRange start) →
  ∃ fuel err,
    out (Write fuel order resolution s w0) = Returned err
    ∧ (∀ start, earliest (mem s) (map_to_list (first (rec s))) = Some (Some start) →
         Z.of_nat fuel = Z.max 0 (ceil_div (B - start) resolution) + 1)
    ∧ ∀ fuel', (fuel ≤ fuel')%nat →
        Write fuel' order resolution s w0 = Write fuel order resolution s w0.
Proof.
  intros He Hres HB HBr Hin.
  pose proof (λ fuel, Write_no_panic evs s fuel order resolution w0 He) as Hnp.
  unfold Write in *.
  destruct (earliest _ _) as [[start|]|] eqn:Hst.
  - set (n := Z.max 0 (ceil_div (B - start) resolution)).
    assert (B ≤ start + n * resolution) as Hn.
    { unfold n, ceil_div.
      pose proof (Z.mul_div_le (B - start + resolution - 1) resolution Hres).
      pose proof (Z.mod_pos_bound (B - start + resolution - 1) resolution Hres).
      pose proof (Z.div_mod (B - start + resolution - 1) resolution ltac:(lia)).
      nia. }
    assert (out (walk (S (Z.to_nat n)) order 0 resolution s start
                   (first (rec s)) w0 []) ≠ OutOfFuel) as Hout.
    { apply (walk_terminates _ _ _ _ _ _ _ _ _ B); try done;
        [by apply Hin|lia|].
      rewrite Nat2Z.inj_succ, Z2Nat.id by lia. lia. }
    exists (S (Z.to_nat n)).
    specialize (Hnp (S (Z.to_nat n))).
    destruct (out (walk _ _ _ _ _ _ _ _ _)) as [err| |] eqn:Ho; try done.
    exists err. split; [done|]. split.
    + intros ? [= <-]. rewrite Nat2Z.inj_succ, Z2Nat.id by lia. lia.
    + intros fuel' Hle. apply walk_fuel; [by rewrite Ho | done].
  - exists 0%nat, (Some ErrNoRecords). by repeat split.
  - by specialize (Hnp 0%nat).
Qed.
End Safety.

(** ** The errors of [Write] *)

(** C5, the claim as stated fails: on a recorder with a series, [Write]
    fails when the writer does, with the writer's error. *)
Lemma Write_fails_on_closed_pipe :
  ∃ s, exec twins newLinkedListRecorder = Some s
       ∧ first (rec s) ≠ ∅
       ∧ out (Write 1 a_then_b time.Second s ClosedPipe)
         = Returned (Some "io: read/write on closed pipe")
       ∧ "io: read/write on closed pipe" ≠ ErrNoRecords.
Proof.
  eexists. split; [reflexivity|]. split; [|split; [reflexivity | done]].
  intros H. apply (f_equal (λ m, m !! "a")) in H. vm_compute in H. done.
Qed.

(** C5, amended. On a recorder with no series, [Write] returns
    [ErrNoRecords], has written nothing and has run no step. On a recorder
    with a series (built by calls of [Inc]), [Write] does not fault, and it
    returns an error exactly when a write on the writer fails: the error is
    that of the first write that fails, which is the last write of [Write],
    all the writes before having succeeded; when [Write] returns [nil] (or
    is still running) every write has succeeded. With a writer that cannot
    fail, [Write] does not fail. *)
Theorem Write_errors {W : Type} `{!Writer W} (evs : list event) (s : state)
    fuel order resolution (w0 : W) :
  exec evs newLinkedListRecorder = Some s →
  (first (rec s) = ∅ →
     Write fuel order resolution s w0
     = mkResult s w0 [] (Returned (Some ErrNoRecords)))
  ∧ (first (rec s) ≠ ∅ →
     out (Write fuel order resolution s w0) ≠ Panicked
     ∧ match out (Write fuel order resolution s w0) with
       | Returned (Some e) =>
           ∃ xs x w1,
             samples (Write fuel order resolution s w0) = xs ++ [x]
             ∧ feed w0 xs = (w1, None)
             ∧ Fprint w1 (render x)
               = (sink (Write fuel order resolution s w0), Some e)
       | _ =>
           feed w0 (samples (Write fuel order resolution s w0))
           = (sink (Write fuel order resolution s w0), None)
       end
     ∧ (∀ e, out (Write fuel order resolution s w0) = Returned (Some e) →
             ∃ w1 b, (Fprint w1 b).2 = Some e)
     ∧ ((∀ w1 b, (Fprint w1 b).2 = None) →
        ∀ e, out (Write fuel order resolution s w0) ≠ Returned (Some e))).
Proof.
  intros Hex.
  assert (first (rec s) ≠ ∅ →
     ∀ e, out (Write fuel order resolution s w0) = Returned (Some e) →
          ∃ w1 b, (Fprint w1 b).2 = Some e) as Hne.
  { intros Hne e. unfold Write.
    pose proof (earliest_nonempty (mem s) (map_to_list (first (rec s)))) as He.
    destruct (earliest _ _) as [[start|]|]; simpl.
    - apply walk_error.
    - exfalso. apply He; [|done]. intros Hl. by apply map_to_list_empty_iff in Hl.
    - done. }
  split; [|intros Hs; split; [|split; [|split]]].
  - intros He. unfold Write. by rewrite He, map_to_list_empty.
  - by eapply Write_no_panic.
  - pose proof (Write_no_panic evs s fuel order resolution w0 Hex) as Hnp.
    unfold samples. unfold Write in *.
    pose proof (earliest_nonempty (mem s) (map_to_list (first (rec s)))) as He.
    destruct (earliest _ _) as [[start|]|]; simpl in *.
    + pose proof (walk_feed fuel order 0 resolution s start (first (rec s))
                    w0 w0 [] eq_refl) as Hw.
      by destruct (out (walk _ _ _ _ _ _ _ _ _)) as [[e|]| |].
    + exfalso. apply He; [|done]. intros Hl. by apply map_to_list_empty_iff in Hl.
    + done.
  - by apply Hne.
  - intros Hok e He. destruct (Hne Hs e He) as (w1 & b & Hb).
    by rewrite Hok in Hb.
Qed.

Lemma Write_errors_witness :
  Write 3 (λ _, []) time.Second newLinkedListRecorder EmptyString
  = mkResult newLinkedListRecorder EmptyString [] (Returned (Some ErrNoRecords))
  ∧ (∀ e, out (Write 3 a_then_b time.Second
                 (mkState [mkRecord 1 0 None; mkRecord 1 0 None]
                    (mkRecorder {["a" := 0%nat; "b" := 1%nat]}
                                {["a" := 0%nat; "b" := 1%nat]}) [])
                 EmptyString)
          ≠ Returned (Some e))
  ∧ ∃ xs x w1,
      samples (Write 3 a_then_b time.Second
                 (mkState [mkRecord 1 0 None; mkRecord 1 0 None]
                    (mkRecorder {["a" := 0%nat; "b" := 1%nat]}
                                {["a" := 0%nat; "b" := 1%nat]}) [])
                 ClosedPipe) = xs ++ [x]
      ∧ feed ClosedPipe xs = (w1, None)
      ∧ Fprint w1 (render x)
        = (ClosedPipe, Some "io: read/write on closed pipe").
Proof.
  assert ((mkRecorder {["a" := 0%nat; "b" := 1%nat]}
                      {["a" := 0%nat; "b" := 1%nat]}).(first) ≠ ∅) as Hne.
  { intros H. apply (f_equal (λ m, m !! "a")) in H. vm_compute in H. done. }
  split; [|split].
  - apply (Write_errors [] newLinkedListRecorder 3 (λ _, []) time.Second
             EmptyString); reflexivity.
  - apply (Write_errors twins _ 3 a_then_b time.Second EmptyString).
    + reflexivity.
    + exact Hne.
    + reflexivity.
  - destruct (Write_errors twins
                (mkState [mkRecord 1 0 None; mkRecord 1 0 None]
                   (mkRecorder {["a" := 0%nat; "b" := 1%nat]}
                               {["a" := 0%nat; "b" := 1%nat]}) [])
                3 a_then_b time.Second ClosedPipe eq_refl) as [_ H].
    destruct (H Hne) as (_ & Hm & _). exact Hm.
Defined.

(** ** The order of the visits *)

Lemma visit_visited h now name (l : locals string) :
  forward_safe h → cursors_valid h (cur l) →
  visit h now name l = (Continue, visited h now l name).
Proof.
  intros Hs Hv. unfold visit, visited, arrive.
  destruct (cur l !! name) as [r|] eqn:Hr; simpl; [|done].
  destruct (forward_total h (length h) r now Hs (Hv _ _ Hr) ltac:(lia))
    as (nx & hm & -> & Hnx).
  destruct nx as [nx|]; [|done].
  destruct (lookup_lt_is_Some_2 h nx (Hnx _ eq_refl)) as [rc Hrc].
  rewrite Hrc. simpl. by destruct hm.
Qed.

Lemma visited_valid h now name (l : locals string) :
  forward_safe h → cursors_valid h (cur l) →
  cursors_valid h (cur (visited h now l name)).
Proof.
  intros Hs Hv. unfold visited, arrive.
  destruct (cur l !! name) as [r|] eqn:Hr; simpl; [|done].
  destruct (forward_total h (length h) r now Hs (Hv _ _ Hr) ltac:(lia))
    as (nx & hm & -> & Hnx).
  destruct nx as [nx|]; [|done].
  destruct (h !! nx) as [rc|]; simpl; [|done].
  destruct hm; [|done]. intros name' a.
  destruct (decide (name = name')) as [<-|Hne].
  - rewrite lookup_insert_eq. intros [= <-]. by apply Hnx.
  - rewrite lookup_insert_ne by done. apply Hv.
Qed.

Lemma range_visited h now names (l : locals string) :
  forward_safe h → cursors_valid h (cur l) →
  range h now names l = (Continue, foldl (visited h now) l names)
  ∧ cursors_valid h (cur (foldl (visited h now) l names)).
Proof.
  intros Hs. revert l. induction names as [|name names IH]; intros l Hv; simpl.
  { done. }
  rewrite visit_visited by done. apply IH. by apply visited_valid.
Qed.













(** ** A series that starts after the others have ended *)

(** C3, on the code. Two series: [a] with records at 0 s and 5 s, [b] with
    one record at 100 s. The earliest first record is at 0 s and the
    latest last record at 100 s, so with a resolution of 10 s the claim
    counts [ceil (100 / 10) + 1 = 11] steps. [Write] returns after two
    steps, in whatever order it visits the series: at 10 s the series [a]
    is at its last record and [b] has not started: [forward] reports a
    followup for [b], but [Write] skips the series before it looks at
    that, no series counts as active and the loop ends. *)
Theorem Write_stops_before_late_series :
  ∃ s, exec late_start2 newLinkedListRecorder = Some s
       ∧ first (rec s) ≠ ∅
       ∧ head_at s "a" = Some 0 ∧ tail_at s "a" = Some (5 * time.Second)
       ∧ head_at s "b" = Some (100 * time.Second)
       ∧ tail_at s "b" = Some (100 * time.Second)
       ∧ ceil_div (100 * time.Second - 0) (10 * time.Second) + 1 = 11
       ∧ forward (length (mem s)) (mem s) 2 (10 * time.Second) = Some (None, true)
       ∧ Forall
           (λ order,
              let r := Write 11 order (10 * time.Second) s EmptyString in
              out r = Returned None
              ∧ length (rounds r) = 2%nat
              ∧ sink r = line "a" 1 0 +:+ line "a" 2 10)
           [a_then_b; b_then_a].
Proof.
  eexists. split; [reflexivity|]. split.
  { intros H. apply (f_equal (λ m, m !! "a")) in H. vm_compute in H. done. }
  do 6 (split; [reflexivity|]).
  repeat constructor.
Qed.

(** C4, on the code. Two series with different first timestamps: [a] with
    one record at 0 s, [b] with one record at 100 s. [Write] with a
    resolution of 10 s returns after the step at 0 s, where [a] is at its
    last record and [b] has not started ([forward] reports a followup for
    [b], which [Write] does not look at): the walk stops before [b] has
    reached its one record, and no sample of [b] is ever written. *)
Theorem Write_drops_late_series :
  ∃ s, exec late_start newLinkedListRecorder = Some s
       ∧ head_at s "a" = Some 0
       ∧ head_at s "b" = Some (100 * time.Second)
       ∧ tail_at s "b" = Some (100 * time.Second)
       ∧ forward (length (mem s)) (mem s) 1 0 = Some (None, true)
       ∧ Forall
           (λ order,
              let r := Write 11 order (10 * time.Second) s EmptyString in
              out r = Returned None
              ∧ rounds r = [[("a", 1, 0)]]
              ∧ samples r = [("a", 1, 0)]
              ∧ sink r = line "a" 1 0)
           [a_then_b; b_then_a].
Proof.
  eexists. split; [reflexivity|]. do 4 (split; [reflexivity|]).
  repeat constructor.
Qed.

(** * Further properties of the recorder *)

(** ** What the calls of [Inc] keep *)

Lemma nodes_sorted name evs : sorted_at (nodes name evs).
Proof.
  induction evs as [|e evs IH] using rev_ind.
  { by intros []. }
  rewrite nodes_snoc. unfold grow.
  destruct (decide (ev_name e = name)) as [_|]; [|done].
  destruct (last (nodes name evs)) as [[c0 t0]|] eqn:Hl.
  - destruct (Z.ltb_spec (ev_at e) t0) as [|Hle]; [done|].
    rewrite last_lookup in Hl.
    intros i j x y Hij Hi Hj.
    apply lookup_app_Some in Hi as [Hi|[Hgi Hi]];
      apply lookup_app_Some in Hj as [Hj|[Hgj Hj]].
    + by eapply IH.
    + destruct (j - length (nodes name evs))%nat; simpl in Hj; [|done].
      injection Hj as <-. simpl.
      pose proof (lookup_lt_Some _ _ _ Hi).
      assert (x.2 ≤ t0); [|lia].
      eapply (IH i (Init.Nat.pred (length (nodes name evs))) x (c0, t0));
        [lia | done | done].
    + pose proof (lookup_lt_Some _ _ _ Hj). lia.
    + destruct (i - length (nodes name evs))%nat; simpl in Hi; [|done].
      destruct (j - length (nodes name evs))%nat; simpl in Hj; [|done].
      by simplify_eq.
  - apply last_None in Hl. rewrite Hl. simpl.
    intros [|i] [|j] x y _ Hi Hj; try done. by simplify_eq/=.
Qed.

(** X1. Any sequence of calls of [Inc] on a new recorder returns without a
    fault. Afterwards, for every series, [first] and [current] hold the
    first and the last record of one chain of records linked by [next]
    (and both hold nothing for a series that was never incremented), the
    last record has no successor, and the timestamps along the chain never
    decrease. *)
Theorem Inc_calls_keep_chains (evs : list event) :
  ∃ s, exec evs newLinkedListRecorder = Some s
       ∧ ∀ name, ∃ (al : list nat) (l : list (Z * Z)),
           chain (mem s) al l
           ∧ first (rec s) !! name = head al
           ∧ current (rec s) !! name = last al
           ∧ (is_Some (first (rec s) !! name) ↔ is_Some (current (rec s) !! name))
           ∧ (∀ c, current (rec s) !! name = Some c →
                ∃ rc, mem s !! c = Some rc ∧ next rc = None)
           ∧ sorted_at l.
Proof.
  destruct (exec_new evs) as (s & Hs & Hi). exists s. split; [done|].
  intros name. destruct (inv_chain _ _ Hi name) as (al & Hc & Hf & Hl).
  exists al, (nodes name evs). repeat split; try done.
  - rewrite Hf, Hl. destruct al as [|a al]; simpl; [by intros [? ?]|].
    intros _. rewrite last_lookup. apply lookup_lt_is_Some. simpl. lia.
  - rewrite Hf, Hl. destruct al as [|a al]; simpl; [by intros [? ?]|].
    intros _. by eexists.
  - intros c Hcur. rewrite Hcur in Hl. symmetry in Hl.
    destruct (chain_last _ _ _ _ Hc Hl) as (x & _ & Hx). by eexists.
  - apply nodes_sorted.
Qed.

(** X2. After any calls of [Inc] with [uint64] amounts, the current (last)
    record of a series carries the sum of the amounts of all accepted
    increments of the series, modulo 2^64, and the timestamp of the last
    accepted one. *)
Theorem tail_value_is_total (evs : list event) (s : state) (name : string)
    (c : nat) :
  uint64_amounts evs →
  exec evs newLinkedListRecorder = Some s →
  current (rec s) !! name = Some c →
  ∃ rc, mem s !! c = Some rc
        ∧ value rc = sumZ (accepted name evs).*1 mod 2 ^ 64
        ∧ Some (at_ rc) = snd <$> last (accepted name evs).
Proof.
  intros Hu He%exec_new_inv Hc.
  destruct (inv_chain _ _ He name) as (al & Hch & _ & Hl).
  rewrite Hc in Hl. symmetry in Hl.
  destruct (chain_last _ _ _ _ Hch Hl) as (x & Hx & Hrc).
  exists (mkRecord x.1 x.2 None). split; [done|]. simpl.
  destruct (history name evs Hu) as [[Hats Hsum] _].
  assert (length (nodes name evs) = length (accepted name evs)) as Hlen.
  { by rewrite <- (length_fmap snd (nodes name evs)), Hats, length_fmap. }
  split.
  - rewrite last_lookup in Hx. rewrite (Hsum _ _ Hx).
    apply lookup_lt_Some in Hx as Hlt.
    by rewrite take_ge by lia.
  - rewrite <- fmap_last, <- Hats, fmap_last, Hx. done.
Qed.

Lemma tail_value_is_total_witness :
  ∃ rc, mem (scenario_state 0) !! 4%nat = Some rc
        ∧ value rc = sumZ (accepted "foo" (scenario 0)).*1 mod 2 ^ 64.
Proof.
  destruct (tail_value_is_total (scenario 0) (scenario_state 0) "foo" 4)
    as (rc & H1 & H2 & _).
  - repeat constructor; unfold two64; simpl; lia.
  - reflexivity.
  - reflexivity.
  - by exists rc.
Defined.

(** X3. A call of [Inc] for one series leaves every other series alone:
    its first and current records are the same, and the records of its
    chain, with their values, timestamps and successors, are unchanged. *)
Theorem Inc_other_series (evs : list event) (s s' : state) (name name' : string)
    (v t : Z) :
  exec evs newLinkedListRecorder = Some s →
  name ≠ name' →
  Inc name v t s = Some s' →
  first (rec s') !! name' = first (rec s) !! name'
  ∧ current (rec s') !! name' = current (rec s) !! name'
  ∧ head_at s' name' = head_at s name'
  ∧ tail_at s' name' = tail_at s name'
  ∧ ∀ al, chain (mem s) al (nodes name' evs) →
          last al = current (rec s) !! name' →
          chain (mem s') al (nodes name' evs)
          ∧ Forall (λ a, mem s' !! a = mem s !! a) al.
Proof.
  intros He%exec_new_inv Hne HInc.
  assert (∀ al, chain (mem s) al (nodes name' evs) →
            last al = current (rec s) !! name' →
            chain (mem s') al (nodes name' evs)
            ∧ Forall (λ a, mem s' !! a = mem s !! a) al) as Hchain.
  { intros al Hch Hl.
    assert (∀ a, a ∈ al → is_Some (mem s !! a)) as Hal.
    { intros a [i Hi]%list_elem_of_lookup.
      destruct (chain_lookup _ _ _ _ _ Hch Hi) as (x & _ & Hx). by eexists. }
    destruct (current (rec s) !! name) as [c|] eqn:Hcur.
    - destruct (inv_chain _ _ He name) as (al0 & Hc0 & _ & Hl0).
      rewrite Hcur in Hl0. symmetry in Hl0.
      destruct (chain_last _ _ _ _ Hc0 Hl0) as (x & Hx & Hhc).
      destruct (Z_lt_le_dec t x.2) as [Hlt|Hle].
      + rewrite (Inc_drop_eq _ _ _ _ _ _ Hcur Hhc) in HInc by done.
        injection HInc as <-. simpl. split; [done|]. by apply Forall_forall.
      + rewrite (Inc_append_eq _ _ _ _ _ _ Hcur Hhc) in HInc by done.
        injection HInc as <-. simpl.
        assert (last al ≠ Some c) as Hlast.
        { rewrite Hl. intros Heq.
          by pose proof (inv_current _ _ He _ _ _ Heq Hcur). }
        split.
        * apply chain_app. eapply chain_update; [done | exact Hhc | done | done].
        * apply Forall_forall. intros a Ha. destruct (Hal a Ha) as [rc Hrc].
          rewrite lookup_app_l
            by (rewrite length_insert; by eapply lookup_lt_Some).
          rewrite list_lookup_insert_ne; [done|]. intros <-.
          apply list_elem_of_lookup in Ha as [i Hi].
          destruct (chain_lookup _ _ _ _ _ Hch Hi) as (y & Hy & Hhy).
          rewrite Hhc in Hhy. injection Hhy as _ _ Hnone.
          symmetry in Hnone. apply lookup_ge_None in Hnone.
          apply Hlast. rewrite last_lookup.
          apply lookup_lt_Some in Hi as Hlt.
          replace (Init.Nat.pred (length al)) with i by lia. done.
    - rewrite (Inc_first_eq _ _ _ _ Hcur) in HInc. injection HInc as <-. simpl.
      split; [by apply chain_app|].
      apply Forall_forall. intros a Ha. destruct (Hal a Ha) as [rc Hrc].
      by rewrite lookup_app_l by (by eapply lookup_lt_Some). }
  assert (first (rec s') !! name' = first (rec s) !! name'
          ∧ current (rec s') !! name' = current (rec s) !! name') as [Hf Hc].
  { unfold Inc in HInc. destruct (current (rec s) !! name) as [c|].
    - destruct (mem s !! c) as [rc|]; simpl in HInc; [|done].
      destruct (time.After _ _); injection HInc as <-; simpl; [done|].
      by rewrite lookup_insert_ne.
    - injection HInc as <-. simpl. by rewrite !lookup_insert_ne. }
  destruct (inv_chain _ _ He name') as (al & Hch & Hfa & Hla).
  destruct (Hchain al Hch (eq_sym Hla)) as [Hch' Hsame].
  rewrite Forall_forall in Hsame.
  split; [done|]. split; [done|]. split; [|split; [|done]].
  - unfold head_at. rewrite Hf, Hfa. destruct al as [|a al]; simpl; [done|].
    rewrite Hsame; [done | by left].
  - unfold tail_at. rewrite Hc, Hla.
    destruct (last al) as [a|] eqn:Hlast; simpl; [|done].
    rewrite Hsame; [done|]. rewrite last_lookup in Hlast.
    by eapply list_elem_of_lookup_2.
Qed.

Lemma Inc_other_series_witness :
  ∃ s', Inc "foo" 3 7 late_state = Some s'
        ∧ tail_at s' "b" = Some (100 * time.Second).
Proof.
  eexists. split; [reflexivity|].
  destruct (Inc_other_series late_start late_state
              (mkState (mem late_state ++ [mkRecord 3 7 None])
                 (mkRecorder (<["foo" := 2%nat]> (first (rec late_state)))
                             (<["foo" := 2%nat]> (current (rec late_state))))
                 []) "foo" "b" 3 7)
    as (_ & _ & _ & H & _); [reflexivity | done | reflexivity |].
  exact H.
Defined.

(** * Further properties of [Write] *)

(** ** The start of the walk *)

Lemma earlier_fold_None h firsts : fold_left (earlier h) firsts None = None.
Proof. induction firsts as [|x firsts IH]; simpl; [done | apply IH]. Qed.

Lemma earlier_fold_min h firsts acc start :
  fold_left (earlier h) firsts (Some acc) = Some (Some start) →
  (∀ t, acc = Some t → start ≤ t)
  ∧ (∀ nf, nf ∈ firsts → ∃ rc, h !! nf.2 = Some rc ∧ start ≤ at_ rc)
  ∧ (acc = Some start
     ∨ ∃ nf rc, nf ∈ firsts ∧ h !! nf.2 = Some rc ∧ at_ rc = start).
Proof.
  revert acc. induction firsts as [|nf firsts IH]; intros acc.
  { simpl. intros [= ->]. split; [by intros t [= ->]|].
    split; [|by left]. intros nf Hin. inversion Hin. }
  cbn [fold_left]. destruct (h !! nf.2) as [f|] eqn:Hf.
  2:{ assert (earlier h (Some acc) nf = None) as ->.
      { unfold earlier. simpl. by rewrite Hf. }
      by rewrite earlier_fold_None. }
  set (m := match acc with
            | None => at_ f
            | Some t => if time.Before (at_ f) t then at_ f else t
            end).
  assert (earlier h (Some acc) nf = Some (Some m)) as ->.
  { unfold earlier, m. simpl. rewrite Hf. simpl.
    destruct acc as [t|]; [|done]. by destruct (time.Before _ _). }
  intros H. apply IH in H as (Hle & Hall & Hex).
  pose proof (Hle _ eq_refl) as Hm.
  assert (m ≤ at_ f ∧ (∀ t, acc = Some t → m ≤ t)
          ∧ (m = at_ f ∨ acc = Some m)) as (Hmf & Hmacc & Hmeq).
  { unfold m, time.Before. destruct acc as [t|].
    - destruct (Z.ltb_spec (at_ f) t).
      + split; [lia|]. split; [|by left]. intros ? [= <-]. lia.
      + split; [lia|]. split; [|by right]. by intros ? [= <-].
    - split; [lia|]. split; [done | by left]. }
  split; [|split].
  - intros t Ht. pose proof (Hmacc _ Ht). lia.
  - intros nf' [->|Hin]%elem_of_cons; [|by apply Hall].
    exists f. split; [done | lia].
  - destruct Hex as [[= Hex]|(nf' & rc & Hin & Hrc & Hat)].
    + destruct Hmeq as [Heq|Heq].
      * right. exists nf, f. split; [by left|]. split; [done | lia].
      * left. by rewrite Heq, Hex.
    + right. exists nf', rc. split; [by right | done].
Qed.

Lemma earliest_bounds (s : state) (start : Z) :
  earliest (mem s) (map_to_list (first (rec s))) = Some (Some start) →
  (∀ name t0, head_at s name = Some t0 → start ≤ t0)
  ∧ ∃ name, head_at s name = Some start.
Proof.
  intros H. apply earlier_fold_min in H as (_ & Hall & Hex). split.
  - intros name t0. unfold head_at.
    destruct (first (rec s) !! name) as [a|] eqn:Ha; simpl; [|done].
    apply elem_of_map_to_list in Ha. destruct (Hall _ Ha) as (rc & Hrc & Hle).
    simpl in Hrc. rewrite Hrc. simpl. by intros [= <-].
  - destruct Hex as [|([name a] & rc & Hin & Hrc & Hat)]; [done|].
    exists name. unfold head_at. apply elem_of_map_to_list in Hin.
    rewrite Hin. simpl in *. by rewrite Hrc, <- Hat.
Qed.

(** X4. The start time that [Write] computes in its first loop is the
    earliest timestamp of a first record: no series starts before it and
    some series starts at it. *)
Theorem Write_start_is_earliest (s : state) (start : Z) :
  earliest (mem s) (map_to_list (first (rec s))) = Some (Some start) →
  (∀ name t0, head_at s name = Some t0 → start ≤ t0)
  ∧ ∃ name, head_at s name = Some start.
Proof. apply earliest_bounds. Qed.

Lemma Write_start_is_earliest_witness :
  (∀ name t0, head_at late_state name = Some t0 → 0 ≤ t0)
  ∧ ∃ name, head_at late_state name = Some 0.
Proof. apply (Write_start_is_earliest late_state 0). reflexivity. Defined.

(** ** The steps of the walk, one by one *)

Section Rounds.
Context {W : Type} `{!Writer W}.
Variables (order : nat → list string) (resolution : Z) (s : state).
Variable P : nat → Z → list (string * Z * Z) → Prop.
Variable I : nat → Z → gmap string nat → Prop.
Hypothesis step : ∀ k now c (w0 : W) ctl l,
  I k now c →
  range (mem s) now (order k) (mkLocals c false w0 []) = (ctl, l) →
  P k now (emitted l) ∧ I (S k) (time.Add now resolution) (cur l).

Lemma walk_rounds fuel (k : nat) now c (w0 : W) rs :
  I k now c → length rs = k →
  ∀ (k' : nat) round,
    rounds (walk fuel order k resolution s now c w0 rs) !! k' = Some round →
    rs !! k' = Some round
    ∨ (k ≤ k')%nat ∧ ∃ now', P k' now' round.
Proof.
  revert k now c w0 rs.
  induction fuel as [|fuel IH]; intros k now c w0 rs HI Hlen k' round; simpl.
  { by left. }
  destruct (range _ _ _ _) as [ctl l] eqn:Hr.
  destruct (step _ _ _ _ _ _ HI Hr) as [HP HI'].
  assert ((rs ++ [emitted l]) !! k' = Some round →
          rs !! k' = Some round
          ∨ (k ≤ k')%nat ∧ ∃ now', P k' now' round)
    as Hhere.
  { intros [?|[Hge Hk]]%lookup_app_Some; [by left|]. right.
    destruct (k' - length rs)%nat eqn:Hd; simpl in Hk; [|done].
    injection Hk as <-. assert (k' = k) as -> by lia. split; [done|].
    by exists now. }
  destruct ctl; simpl; try done.
  destruct (hasActiveMetrics l); [|done].
  intros Hk.
  assert (length (rs ++ [emitted l]) = S k) as Hlen'
    by (rewrite length_app; simpl; lia).
  destruct (IH (S k) _ _ _ _ HI' Hlen' _ _ Hk) as [Hk'|[Hge HP']].
  - by apply Hhere.
  - right. split; [lia | done].
Qed.
End Rounds.

(** As long as they stay in the range of [time.Time], the steps are
    [resolution] apart. *)
Lemma steps_exact (start resolution : Z) (k : nat) :
  time.inRange start → time.inRange (start + Z.of_nat k * resolution) →
  ∀ j : nat, (j ≤ k)%nat →
    Nat.iter j (λ now, time.Add now resolution) start
    = start + Z.of_nat j * resolution.
Proof.
  intros Hs Hk j. induction j as [|j IH]; intros Hj; simpl; [lia|].
  rewrite IH by lia.
  replace (start + Z.of_nat (S j) * resolution)
    with (start + Z.of_nat j * resolution + resolution) by lia.
  apply Add_exact.
  destruct (Z.le_gt_cases 0 resolution).
  - apply (inRange_mid start (start + Z.of_nat k * resolution)); [done|done|nia].
  - apply (inRange_mid (start + Z.of_nat k * resolution) start); [done|done|nia].
Qed.

Lemma visit_times {W : Type} `{!Writer W} h now name (l l' : locals W) ctl :
  visit h now name l = (ctl, l') →
  (∀ x, x ∈ emitted l → x.2 = now) → ∀ x, x ∈ emitted l' → x.2 = now.
Proof.
  unfold visit. destruct (cur l !! name); [|by intros [= <- <-]].
  destruct (forward _ _ _ _) as [[[nx|] hm]|]; try by intros [= <- <-].
  assert (∀ l1 : locals W, emitted l1 = emitted l →
    match h !! nx with
    | Some rc =>
        let '(w', err) := Fprint (w l1) (line name (value rc) (time.Unix now)) in
        let l2 := mkLocals (cur l1) (hasActiveMetrics l1) w'
                    (emitted l1 ++ [(name, value rc, now)]) in
        match err with Some e => (Return e, l2) | None => (Continue, l2) end
    | None => (Panic, l1)
    end = (ctl, l') →
    (∀ x, x ∈ emitted l → x.2 = now) → ∀ x, x ∈ emitted l' → x.2 = now) as Haux.
  { intros l1 He. destruct (h !! nx) as [rc|].
    - destruct (Fprint _ _) as [w' [e|]]; intros [= <- <-] Hall x; simpl;
        rewrite He; (intros [Hx|Hx]%elem_of_app; [by apply Hall|]);
        apply list_elem_of_singleton in Hx; by subst.
    - intros [= <- <-]. by rewrite He. }
  destruct hm; by apply Haux.
Qed.

Lemma range_times {W : Type} `{!Writer W} h now names (l l' : locals W) ctl :
  range h now names l = (ctl, l') →
  (∀ x, x ∈ emitted l → x.2 = now) → ∀ x, x ∈ emitted l' → x.2 = now.
Proof.
  revert l. induction names as [|name names IH]; intros l; simpl.
  { by intros [= <- <-]. }
  destruct (visit h now name l) as [c1 l1] eqn:Hv.
  intros Hr Hl. pose proof (visit_times _ _ _ _ _ _ Hv Hl) as H1.
  destruct c1; [by eapply IH | |]; by injection Hr as <- <-.
Qed.

(** X5. The samples that [Write] emits in its step number [k] (from 0) all
    carry the time of the step: the earliest first timestamp [start]
    advanced [k] times by the resolution with [Time.Add], whatever the
    writer, the order of the visits and the resolution. As long as the
    steps stay in the range of [time.Time], this is
    [start + k * resolution]. *)
Theorem Write_step_times {W : Type} `{!Writer W} fuel order resolution
    (s : state) (w0 : W) (start : Z) (k : nat) round name v t :
  earliest (mem s) (map_to_list (first (rec s))) = Some (Some start) →
  rounds (Write fuel order resolution s w0) !! k = Some round →
  (name, v, t) ∈ round →
  t = Nat.iter k (λ now, time.Add now resolution) start
  ∧ (time.inRange start →
     time.inRange (start + Z.of_nat k * resolution) →
     t = start + Z.of_nat k * resolution).
Proof.
  intros Hst Hk Hx. unfold Write in Hk. rewrite Hst in Hk.
  assert (t = Nat.iter k (λ now, time.Add now resolution) start) as Ht.
  { destruct (walk_rounds order resolution s
                (λ j now r,
                   now = Nat.iter j (λ now, time.Add now resolution) start
                   ∧ ∀ x, x ∈ r → x.2 = now)
                (λ j now _,
                   now = Nat.iter j (λ now, time.Add now resolution) start)) with
      (fuel := fuel) (k := 0%nat) (now := start) (c := first (rec s)) (w0 := w0)
      (rs := @nil (list (string * Z * Z))) (k' := k) (round := round)
      as [?|[_ (now' & -> & HP)]]; try done.
    - intros k0 now c w1 ctl l -> Hr. split; [split; [done|]|done].
      eapply range_times; [exact Hr|]. simpl. by intros x Hin; inversion Hin.
    - by apply (HP (name, v, t)). }
  split; [done|]. intros Hs Hin. rewrite Ht. by apply (steps_exact _ _ k).
Qed.

Lemma Write_step_times_witness :
  30 * time.Second
  = Nat.iter 3 (λ now, time.Add now (10 * time.Second)) 0
  ∧ 30 * time.Second = 0 + Z.of_nat 3 * (10 * time.Second).
Proof.
  destruct (Write_step_times 5 (λ _, ["foo"]) (10 * time.Second)
              (scenario_state 0) EmptyString 0 3
              [("foo", 4, 30 * time.Second)] "foo" 4 (30 * time.Second))
    as [H1 H2].
  - reflexivity.
  - reflexivity.
  - by left.
  - split; [exact H1|]. apply H2; by vm_compute.
Defined.

(** ** One sample for every started series at every step *)

Lemma forward_started h fuel (a : nat) to hm rc :
  forward fuel h a to = Some (None, hm) → h !! a = Some rc → to < at_ rc.
Proof.
  revert a rc. induction fuel as [|fuel IH]; intros a rc; simpl; [done|].
  intros Hf Ha. rewrite Ha in Hf. simpl in Hf. unfold time.After in Hf.
  destruct (Z.ltb_spec to (at_ rc)); [done|].
  destruct (next rc) as [n|]; [|done].
  destruct (h !! n) as [nrc|] eqn:Hn; simpl in Hf; [|done].
  destruct (Z.ltb_spec to (at_ nrc)); [done|].
  pose proof (IH _ _ Hf Hn). lia.
Qed.

Lemma forward_chain_more h al l :
  chain h al l →
  ∀ fuel (i a : nat) to nx hm,
    al !! i = Some a →
    forward fuel h a to = Some (Some nx, hm) →
    ∃ (j : nat) x,
      (i ≤ j)%nat ∧ al !! j = Some nx ∧ l !! j = Some x ∧ x.2 ≤ to
      ∧ (∀ y, l !! S j = Some y → to < y.2)
      ∧ (hm = true ↔ is_Some (l !! S j)).
Proof.
  intros Hc fuel. induction fuel as [|fuel IH]; intros i a to nx hm Hi; [done|].
  simpl. destruct (chain_lookup _ _ _ _ _ Hc Hi) as (x & Hx & Hh).
  rewrite Hh. simpl. unfold time.After.
  destruct (Z.ltb_spec to x.2) as [|Hle]; [done|].
  destruct (al !! S i) as [n|] eqn:Hn.
  - destruct (chain_lookup _ _ _ _ _ Hc Hn) as (y & Hy & Hhn).
    rewrite Hhn. simpl. destruct (Z.ltb_spec to y.2) as [Hlt|].
    + intros [= <- <-]. exists i, x. do 4 (split; [done|]). split.
      * intros y' Hy'. by simplify_eq.
      * split; [by eexists | done].
    + intros Hf. destruct (IH _ _ _ _ _ Hn Hf) as (j & x' & Hij & Hrest).
      exists j, x'. split; [lia | done].
  - intros [= <- <-]. exists i, x.
    assert (l !! S i = None) as Hnone.
    { apply lookup_ge_None in Hn. apply lookup_ge_None.
      apply chain_length in Hc. lia. }
    do 4 (split; [done|]). rewrite Hnone. split; [done|].
    split; [done | by intros [? ?]].
Qed.

(** Where the cursor of a series that has started goes. *)
Lemma arrive_started evs h now (a : nat) name al (i : nat) x :
  forward_safe h → chain h al (nodes name evs) →
  al !! i = Some a → nodes name evs !! i = Some x → x.2 ≤ now →
  ∃ nx hm (j : nat) y,
    arrive h now a = Some (nx, y.1, hm)
    ∧ al !! j = Some nx ∧ nodes name evs !! j = Some y ∧ y.2 ≤ now
    ∧ (hm = true ↔ is_Some (nodes name evs !! S j)).
Proof.
  intros Hs Hc Hi Hx Hle.
  destruct (chain_lookup _ _ _ _ _ Hc Hi) as (x' & Hx' & Ha).
  assert (x' = x) as -> by congruence.
  pose proof (lookup_lt_Some _ _ _ Ha) as Hlt.
  destruct (forward_total h (length h) a now Hs Hlt ltac:(lia))
    as (nx & hm & Hf & Hnx).
  destruct nx as [nx|].
  2:{ pose proof (forward_started _ _ _ _ _ _ Hf Ha). simpl in *. lia. }
  destruct (forward_chain_more _ _ _ Hc _ _ _ _ _ _ Hi Hf)
    as (j & y & _ & Hj & Hy & Hyle & _ & Hhm).
  destruct (chain_lookup _ _ _ _ _ Hc Hj) as (y' & Hy' & Hrc).
  assert (y' = y) as -> by congruence.
  exists nx, hm, j, y. unfold arrive. rewrite Hf, Hrc. simpl.
  do 4 (split; [done|]). exact Hhm.
Qed.

Lemma arrive_cursor evs h now (a : nat) name nx v hm al (i : nat) :
  chain h al (nodes name evs) → al !! i = Some a →
  arrive h now a = Some (nx, v, hm) →
  ∃ (j : nat) y, al !! j = Some nx ∧ nodes name evs !! j = Some y ∧ y.2 ≤ now.
Proof.
  intros Hc Hi Harr. unfold arrive in Harr.
  destruct (forward _ _ _ _) as [[[b|] hm']|] eqn:Hf; try done.
  destruct (h !! b); simplify_eq/=.
  destruct (forward_chain _ _ _ Hc _ _ _ _ _ _ Hi Hf)
    as (j & y & _ & Hj & Hy & Hle & _).
  by exists j, y.
Qed.

Lemma visited_cursors_at evs h now name (l : locals string) :
  cursors_at evs h now (cur l) →
  cursors_at evs h now (cur (visited h now l name)).
Proof.
  intros Hat. unfold visited.
  destruct (cur l !! name) as [a|] eqn:Ha; simpl; [|done].
  destruct (arrive h now a) as [[[nx v] hm]|] eqn:Harr; [|done]. simpl.
  destruct hm; [|done]. intros name' a'.
  destruct (decide (name = name')) as [<-|Hne].
  - rewrite lookup_insert_eq. intros [= <-].
    destruct (Hat _ _ Ha) as (al & i & x & Hc & Hi & _).
    destruct (arrive_cursor _ _ _ _ _ _ _ _ _ _ Hc Hi Harr) as (j & y & Hj & Hy & Hle).
    exists al, j, y. repeat split; try done. by right.
  - rewrite lookup_insert_ne by done. apply Hat.
Qed.

Lemma visited_dom h now name (l : locals string) m :
  is_Some (cur l !! m) → is_Some (cur (visited h now l name) !! m).
Proof.
  intros Hm. unfold visited.
  destruct (cur l !! name ≫= arrive h now) as [[[nx v] hm]|]; [|done].
  simpl. destruct hm; [|done].
  destruct (decide (name = m)) as [<-|Hne].
  - rewrite lookup_insert_eq. by eexists.
  - by rewrite lookup_insert_ne.
Qed.

Lemma visited_emitted h now name (l : locals string) :
  ∃ es, emitted (visited h now l name) = emitted l ++ es
        ∧ (es = [] ∨ ∃ v, es = [(name, v, now)])
        ∧ (hasActiveMetrics l = true →
           hasActiveMetrics (visited h now l name) = true).
Proof.
  unfold visited.
  destruct (cur l !! name ≫= arrive h now) as [[[nx v] hm]|].
  - exists [(name, v, now)]. simpl. split; [done|]. split; [by right; eexists|].
    intros ->. by destruct hm.
  - exists []. rewrite app_nil_r. split; [done|]. split; [by left | done].
Qed.

Lemma foldl_visited_emitted h now names (l : locals string) :
  ∃ es, emitted (foldl (visited h now) l names) = emitted l ++ es
        ∧ sublist es.*1.*1 names
        ∧ (hasActiveMetrics l = true →
           hasActiveMetrics (foldl (visited h now) l names) = true).
Proof.
  revert l. induction names as [|name names IH]; intros l; simpl.
  { exists []. rewrite app_nil_r. by repeat split. }
  destruct (visited_emitted h now name l) as (es1 & He1 & Hes1 & Ha1).
  destruct (IH (visited h now l name)) as (es2 & He2 & Hsub & Ha2).
  exists (es1 ++ es2). rewrite He2, He1, app_assoc. split; [done|].
  split; [|by intros H; apply Ha2, Ha1].
  destruct Hes1 as [->|[v ->]]; simpl.
  - by apply sublist_cons.
  - by apply sublist_skip.
Qed.

Lemma foldl_visited_cursors evs h now names (l : locals string) :
  forward_safe h → cursors_valid h (cur l) → cursors_at evs h now (cur l) →
  cursors_at evs h now (cur (foldl (visited h now) l names))
  ∧ ∀ m, is_Some (cur l !! m) →
         is_Some (cur (foldl (visited h now) l names) !! m).
Proof.
  intros Hs. revert l. induction names as [|name names IH]; intros l Hv Hat; simpl.
  { done. }
  destruct (IH (visited h now l name)) as [Hat' Hdom'];
    [by apply visited_valid | by apply visited_cursors_at |].
  split; [done|]. intros m Hm. by apply Hdom', visited_dom.
Qed.

(** A series that has started and is visited in a step gets a sample. *)
Lemma foldl_visited_covers evs h now names (l : locals string) name x0 :
  forward_safe h → cursors_valid h (cur l) → cursors_at evs h now (cur l) →
  name ∈ names → is_Some (cur l !! name) →
  nodes name evs !! 0%nat = Some x0 → x0.2 ≤ now →
  ∃ v, (name, v, now) ∈ emitted (foldl (visited h now) l names).
Proof.
  intros Hs. revert l.
  induction names as [|n names IH]; intros l Hv Hat Hin Hdom H0 Hle.
  { inversion Hin. }
  simpl. destruct (decide (n = name)) as [->|Hne].
  - destruct Hdom as [a Ha].
    destruct (Hat _ _ Ha) as (al & i & x & Hc & Hi & Hx & Hcase).
    assert (x.2 ≤ now) as Hxle.
    { destruct Hcase as [->|?]; [|done]. by simplify_eq. }
    destruct (arrive_started evs h now a name al i x Hs Hc Hi Hx Hxle)
      as (nx & hm & j & y & Harr & _).
    exists y.1.
    destruct (foldl_visited_emitted h now names (visited h now l name))
      as (es & -> & _).
    apply elem_of_app. left. unfold visited. rewrite Ha. simpl. rewrite Harr.
    simpl. apply elem_of_app. right. by left.
  - apply IH; try done.
    + by apply visited_valid.
    + by apply visited_cursors_at.
    + by apply elem_of_cons in Hin as [?|?].
    + by apply visited_dom.
Qed.

Lemma cursors_at_later evs h now now' c :
  now ≤ now' → cursors_at evs h now c → cursors_at evs h now' c.
Proof.
  intros Hle Hat name a Ha.
  destruct (Hat _ _ Ha) as (al & i & x & Hc & Hi & Hx & Hcase).
  exists al, i, x. repeat split; try done. destruct Hcase; [by left | right; lia].
Qed.

Lemma inv_cursors_at evs s now : inv evs s → cursors_at evs (mem s) now (first (rec s)).
Proof.
  intros Hi name a Ha. destruct (inv_chain _ _ Hi name) as (al & Hc & Hf & _).
  rewrite Ha, head_lookup in Hf. symmetry in Hf.
  destruct (chain_lookup _ _ _ _ _ Hc Hf) as (x & Hx & _).
  exists al, 0%nat, x. repeat split; try done. by left.
Qed.

(** X6. Into a [strings.Builder] and with a resolution that is not
    negative, every step that [Write] runs on a recorder built by [Inc],
    up to a step whose time [start + k * resolution] is in the range of
    [time.Time], emits at most one sample per series, and it emits one for
    a series exactly when the series has started, that is, when its first
    record is at or before the time of the step: a series is written at
    every step from its start on until the walk ends. *)
Theorem Write_step_samples (evs : list event) (s : state) fuel order
    resolution (b0 : string) (start : Z) (k : nat) round :
  exec evs newLinkedListRecorder = Some s →
  valid_order s order →
  0 ≤ resolution →
  earliest (mem s) (map_to_list (first (rec s))) = Some (Some start) →
  time.inRange start →
  time.inRange (start + Z.of_nat k * resolution) →
  rounds (Write fuel order resolution s b0) !! k = Some round →
  NoDup round.*1.*1
  ∧ ∀ name t0, head_at s name = Some t0 →
      (t0 ≤ start + Z.of_nat k * resolution
       ↔ ∃ v, (name, v, start + Z.of_nat k * resolution) ∈ round).
Proof.
  intros He Ho Hres Hst Hin Hink Hk. pose proof (exec_new_inv _ _ He) as Hi.
  pose proof (inv_forward_safe _ _ Hi) as Hs.
  assert (∀ name, name ∈ (map_to_list (first (rec s))).*1
                  ↔ is_Some (first (rec s) !! name)) as Hkeys.
  { intros name. rewrite list_elem_of_fmap. split.
    - intros ([n a] & -> & Hin'%elem_of_map_to_list). by eexists.
    - intros [a Ha]. exists (name, a). by rewrite elem_of_map_to_list. }
  pose proof Hk as Hk0. unfold Write in Hk. rewrite Hst in Hk.
  destruct (walk_rounds (W := string) order resolution s
              (λ j now r,
                 (j ≤ k)%nat →
                 now = start + Z.of_nat j * resolution
                 ∧ NoDup r.*1.*1
                 ∧ ∀ name x0, nodes name evs !! 0%nat = Some x0 → x0.2 ≤ now →
                     ∃ v, (name, v, now) ∈ r)
              (λ j now c,
                 (j ≤ k)%nat →
                 now = start + Z.of_nat j * resolution
                 ∧ cursors_valid (mem s) c ∧ cursors_at evs (mem s) now c
                 ∧ ∀ m, is_Some (first (rec s) !! m) → is_Some (c !! m))) with
    (fuel := fuel) (k := 0%nat) (now := start) (c := first (rec s)) (w0 := b0)
    (rs := @nil (list (string * Z * Z))) (k' := k) (round := round)
    as [?|[_ (now' & HP)]]; try done.
  - intros k0 now c w1 ctl l HI Hr. split.
    + intros Hk0le. destruct (HI Hk0le) as (Hnow & Hv & Hat & Hdom).
      destruct (range_visited (mem s) now (order k0) (mkLocals c false w1 []) Hs Hv)
        as [Hr' Hv'].
      rewrite Hr' in Hr. injection Hr as <- <-.
      destruct (foldl_visited_emitted (mem s) now (order k0)
                  (mkLocals c false w1 [])) as (es & Hes & Hsub & _).
      simpl in Hes. split; [done|]. split.
      * rewrite Hes. eapply sublist_NoDup; [|exact Hsub].
        rewrite (Ho k0). apply NoDup_fst_map_to_list.
      * intros name x0 H0 Hle.
        assert (is_Some (first (rec s) !! name)) as Hfirst.
        { destruct (inv_chain _ _ Hi name) as (al & Hc & Hf & _).
          rewrite Hf. destruct al as [|a al]; [|by eexists].
          apply chain_nil_l in Hc. by rewrite Hc in H0. }
        eapply (foldl_visited_covers evs); try done.
        -- rewrite (Ho k0). by apply Hkeys.
        -- by apply Hdom.
    + intros Hk0le. destruct (HI ltac:(lia)) as (Hnow & Hv & Hat & Hdom).
      destruct (range_visited (mem s) now (order k0) (mkLocals c false w1 []) Hs Hv)
        as [Hr' Hv'].
      rewrite Hr' in Hr. injection Hr as <- <-.
      destruct (foldl_visited_cursors evs (mem s) now (order k0)
                  (mkLocals c false w1 []) Hs Hv Hat) as [Hat' Hdom'].
      assert (time.Add now resolution = now + resolution) as Hadd.
      { apply Add_exact.
        apply (inRange_mid start (start + Z.of_nat k * resolution));
          [done|done|nia]. }
      rewrite Hadd. split; [lia|]. split; [done|]. split.
      * apply (cursors_at_later evs _ now); [lia | done].
      * intros m Hm. by apply Hdom', Hdom.
  - intros _. split; [lia|].
    repeat split; [by eapply inv_cursors_valid | by apply inv_cursors_at | done].
  - destruct (HP ltac:(lia)) as (-> & Hnd & Hcov). split; [done|].
    intros name t0 Hhead. rewrite (inv_head_at evs) in Hhead by done.
    destruct (nodes name evs !! 0%nat) as [x0|] eqn:H0; [|done].
    injection Hhead as <-. split; [by apply Hcov|].
    intros [v Hin'].
    assert ((name, v, start + Z.of_nat k * resolution)
            ∈ samples (Write fuel order resolution s b0)) as Hsam.
    { unfold samples. apply list_elem_of_In, in_concat.
      exists round. split; apply list_elem_of_In; [|done].
      by eapply list_elem_of_lookup_2. }
    destruct (Write_latest _ _ _ _ _ _ _ He Hsam) as (j & tj & Hj & Hle & _).
    simpl in *.
    pose proof (nodes_sorted name evs 0%nat j x0 (v, tj) ltac:(lia) H0 Hj).
    simpl in *. lia.
Qed.

Lemma Write_step_samples_witness :
  NoDup [("a", 2, time.Second); ("b", 1, time.Second)].*1.*1
  ∧ (0 ≤ 0 + Z.of_nat 1 * time.Second
     ↔ ∃ v, ("a", v, 0 + Z.of_nat 1 * time.Second)
            ∈ [("a", 2, time.Second); ("b", 1, time.Second)]).
Proof.
  destruct (Write_step_samples [Ev "a" 1 0; Ev "a" 1 time.Second; Ev "b" 1 0]
              (mkState [mkRecord 1 0 (Some 1%nat); mkRecord 2 time.Second None;
                        mkRecord 1 0 None]
                 (mkRecorder {["a" := 0%nat; "b" := 2%nat]}
                             {["a" := 1%nat; "b" := 2%nat]}) [])
              3 a_then_b time.Second EmptyString 0 1
              [("a", 2, time.Second); ("b", 1, time.Second)])
    as [H1 H2].
  - reflexivity.
  - intros k. reflexivity.
  - unfold time.Second. lia.
  - reflexivity.
  - by vm_compute.
  - by vm_compute.
  - reflexivity.
  - split; [exact H1|]. apply (H2 "a" 0). reflexivity.
Defined.

(** ** How long the walk runs *)

Lemma covered_new : covered newLinkedListRecorder.
Proof. intros a rc H. by destruct a. Qed.

Lemma Inc_covered evs s s' name v t :
  inv evs s → covered s → Inc name v t s = Some s' → covered s'.
Proof.
  intros Hi Hcov HInc.
  destruct (current (rec s) !! name) as [c|] eqn:Hcur.
  - destruct (inv_chain _ _ Hi name) as (al0 & Hc0 & _ & Hl0).
    rewrite Hcur in Hl0. symmetry in Hl0.
    destruct (chain_last _ _ _ _ Hc0 Hl0) as (x & Hx & Hhc).
    pose proof (lookup_lt_Some _ _ _ Hhc) as Hclt.
    destruct (Z_lt_le_dec t x.2) as [Hlt|Hle].
    + rewrite (Inc_drop_eq _ _ _ _ _ _ Hcur Hhc) in HInc by done.
      injection HInc as <-. exact Hcov.
    + rewrite (Inc_append_eq _ _ _ _ _ _ Hcur Hhc) in HInc by done.
      injection HInc as <-.
      assert (tail_at
                (mkState
                   (<[c := mkRecord x.1 x.2 (Some (length (mem s)))]> (mem s)
                      ++ [mkRecord (add64 x.1 v) t None])
                   (mkRecorder (first (rec s))
                      (<[name := length (mem s)]> (current (rec s))))
                   (stdout s)) name = Some t) as Hnew.
      { unfold tail_at. simpl. rewrite lookup_insert_eq. simpl.
        rewrite lookup_app_r by (by rewrite length_insert).
        by rewrite length_insert, Nat.sub_diag. }
      intros a rc Ha. simpl in Ha.
      apply lookup_app_Some in Ha as [Ha|[Hge Ha]].
      * destruct (decide (a = c)) as [->|Hne].
        -- rewrite list_lookup_insert_eq in Ha by done. injection Ha as <-.
           exists name, t. split; [exact Hnew | simpl in *; lia].
        -- rewrite list_lookup_insert_ne in Ha by done.
           destruct (Hcov _ _ Ha) as (name0 & t0 & Ht0 & Hle0).
           destruct (decide (name = name0)) as [<-|Hn0].
           ++ exists name, t. split; [exact Hnew|].
              unfold tail_at in Ht0. rewrite Hcur in Ht0. simpl in Ht0.
              rewrite Hhc in Ht0. simpl in *. injection Ht0 as <-. lia.
           ++ exists name0, t0. split; [|done].
              unfold tail_at in *. simpl. rewrite lookup_insert_ne by done.
              destruct (current (rec s) !! name0) as [c0|] eqn:Hc0'; [|done].
              simpl in *. assert (c0 ≠ c) as Hcc.
              { intros ->. by pose proof (inv_current _ _ Hi _ _ _ Hc0' Hcur). }
              destruct (mem s !! c0) as [r0|] eqn:Hr0; [|done].
              rewrite lookup_app_l
                by (rewrite length_insert; by eapply lookup_lt_Some).
              by rewrite list_lookup_insert_ne, Hr0 by done.
      * rewrite length_insert in Hge, Ha.
        destruct (a - length (mem s))%nat; simpl in Ha; [|done].
        injection Ha as <-. exists name, t. split; [exact Hnew | simpl; lia].
  - rewrite (Inc_first_eq _ _ _ _ Hcur) in HInc. injection HInc as <-.
    assert (tail_at
              (mkState (mem s ++ [mkRecord v t None])
                 (mkRecorder (<[name := length (mem s)]> (first (rec s)))
                    (<[name := length (mem s)]> (current (rec s))))
                 (stdout s)) name = Some t) as Hnew.
    { unfold tail_at. simpl. rewrite lookup_insert_eq. simpl.
      rewrite lookup_app_r by done. by rewrite Nat.sub_diag. }
    intros a rc Ha. simpl in Ha.
    apply lookup_app_Some in Ha as [Ha|[Hge Ha]].
    + destruct (Hcov _ _ Ha) as (name0 & t0 & Ht0 & Hle0).
      exists name0, t0. split; [|done].
      unfold tail_at in *. simpl.
      destruct (decide (name = name0)) as [<-|Hn0].
      { rewrite Hcur in Ht0. by simpl in Ht0. }
      rewrite lookup_insert_ne by done.
      destruct (current (rec s) !! name0) as [c0|]; [|done]. simpl in *.
      destruct (mem s !! c0) as [r0|] eqn:Hr0; [|done].
      by rewrite (lookup_app_l_Some _ _ _ _ Hr0).
    + destruct (a - length (mem s))%nat; simpl in Ha; [|done].
      injection Ha as <-. exists name, t. split; [exact Hnew | simpl; lia].
Qed.

Lemma exec_covered evs0 s0 evs s :
  inv evs0 s0 → covered s0 → exec evs s0 = Some s → covered s.
Proof.
  revert evs0 s0. induction evs as [|e evs IH]; intros evs0 s0 Hi Hcov; simpl.
  { by intros [= <-]. }
  destruct (Inc_inv _ _ e Hi) as (s1 & HInc & Hi1). rewrite HInc. simpl.
  apply (IH _ _ Hi1). exact (Inc_covered _ _ _ _ _ _ Hi Hcov HInc).
Qed.

Lemma walk_rounds_length {W : Type} `{!Writer W} fuel order k resolution s now c
    (w0 : W) rs :
  (length (rounds (walk fuel order k resolution s now c w0 rs))
   ≤ length rs + fuel)%nat.
Proof.
  revert k now c w0 rs.
  induction fuel as [|fuel IH]; intros k now c w0 rs; simpl; [lia|].
  destruct (range _ _ _ _) as [ctl l].
  assert (length (rs ++ [emitted l]) = S (length rs)) as Hlen
    by (rewrite length_app; simpl; lia).
  destruct ctl; simpl; try lia.
  destruct (hasActiveMetrics l); simpl; [|lia].
  etrans; [apply IH|]. lia.
Qed.

(** X7. With a positive resolution, [Write] on a recorder built by [Inc]
    returns (with [nil] or with an error of the writer, never with a
    fault), whatever the writer and the order of the visits, and it runs at
    most [ceil ((last - start) / resolution) + 1] steps, for [start] the
    earliest first timestamp and [last] the latest timestamp of a last
    record, provided that the instant one resolution after [last] is still
    in the range of [time.Time]; running it for longer gives the same
    result. *)
Theorem Write_returns {W : Type} `{!Writer W} (evs : list event) (s : state)
    order resolution (w0 : W) (start last : Z) :
  exec evs newLinkedListRecorder = Some s →
  0 < resolution →
  earliest (mem s) (map_to_list (first (rec s))) = Some (Some start) →
  (∀ name t, tail_at s name = Some t → t ≤ last) →
  time.inRange start →
  time.inRange (last + resolution) →
  ∃ fuel err,
    out (Write fuel order resolution s w0) = Returned err
    ∧ Z.of_nat (length (rounds (Write fuel order resolution s w0)))
      ≤ Z.max 0 (ceil_div (last - start) resolution) + 1
    ∧ ∀ fuel', (fuel ≤ fuel')%nat →
        Write fuel' order resolution s w0 = Write fuel order resolution s w0.
Proof.
  intros He Hres Hst Hlast Hin Hinl.
  assert (∀ (a : nat) rc, mem s !! a = Some rc → at_ rc ≤ last) as HB.
  { intros a rc Ha.
    destruct (exec_covered [] _ _ _ inv_new covered_new He _ _ Ha)
      as (name & t & Ht & Hle).
    pose proof (Hlast _ _ Ht). lia. }
  destruct (Write_terminates evs s order resolution w0 last He Hres HB Hinl)
    as (fuel & err & Hout & Hfuel & Hmore).
  { intros start' Hst'. rewrite Hst in Hst'. by injection Hst' as <-. }
  exists fuel, err. split; [done|]. split; [|done].
  rewrite <- (Hfuel _ Hst). unfold Write. rewrite Hst.
  pose proof (walk_rounds_length fuel order 0 resolution s start
                (first (rec s)) w0 []) as Hlen.
  simpl in Hlen. lia.
Qed.

Lemma Write_returns_witness :
  ∃ fuel err,
    out (Write fuel a_then_b (10 * time.Second) late_state EmptyString)
    = Returned err
    ∧ Z.of_nat (length (rounds (Write fuel a_then_b (10 * time.Second)
                                  late_state EmptyString)))
      ≤ 11.
Proof.
  destruct (Write_returns late_start late_state a_then_b (10 * time.Second)
              EmptyString 0 (100 * time.Second))
    as (fuel & err & H1 & H2 & _).
  - reflexivity.
  - unfold time.Second. lia.
  - reflexivity.
  - intros name t. unfold tail_at, late_state. cbn [rec current mem].
    destruct (decide (name = "a")) as [->|Ha].
    { rewrite lookup_insert_eq. cbn. intros [= <-]. done. }
    destruct (decide (name = "b")) as [->|Hb].
    { rewrite lookup_insert_ne, lookup_singleton_eq by done. cbn.
      intros [= <-]. unfold time.Second. lia. }
    rewrite lookup_insert_ne by done. by rewrite lookup_singleton_ne.
  - by vm_compute.
  - by vm_compute.
  - exists fuel, err. split; [exact H1|]. exact H2.
Defined.

(** ** The values over time *)

Lemma total_until_mono t1 t2 acc :
  Forall (λ a : Z * Z, 0 ≤ a.1) acc → t1 ≤ t2 →
  total_until t1 acc ≤ total_until t2 acc.
Proof.
  unfold total_until, sumZ. intros Hacc Hle.
  induction Hacc as [|a acc Ha Hacc IH]; [simpl; lia|].
  destruct (decide (a.2 ≤ t1)); destruct (decide (a.2 ≤ t2)); try lia.
  - rewrite !filter_cons_True by done. rewrite !fmap_cons. cbn [foldr]. lia.
  - rewrite filter_cons_False, filter_cons_True by done.
    rewrite !fmap_cons. cbn [foldr]. lia.
  - rewrite !filter_cons_False by done. lia.
Qed.

Lemma sample_value {W : Type} `{!Writer W} (evs : list event) (s : state)
    fuel order resolution (w0 : W) (name : string) (v t : Z) :
  uint64_amounts evs →
  exec evs newLinkedListRecorder = Some s →
  (name, v, t) ∈ samples (Write fuel order resolution s w0) →
  v = total_until t (accepted name evs) mod two64.
Proof.
  intros Hu He Hx.
  destruct (Write_latest _ _ _ _ _ _ _ He Hx) as (j & tj & Hj & Hle & Hnext).
  simpl in *. destruct (history name evs Hu) as [Hsums Hsort].
  by apply (total_at _ _ _ _ _ Hsums Hsort Hj Hle Hnext).
Qed.

(** X8. As long as the accepted increments of a series sum up to less than
    2^64, the values that [Write] emits for the series never decrease
    with the time of the step. *)
Theorem Write_values_never_decrease {W : Type} `{!Writer W} (evs : list event)
    (s : state) fuel order resolution (w0 : W) (name : string)
    (v1 t1 v2 t2 : Z) :
  uint64_amounts evs →
  exec evs newLinkedListRecorder = Some s →
  sumZ (accepted name evs).*1 < 2 ^ 64 →
  (name, v1, t1) ∈ samples (Write fuel order resolution s w0) →
  (name, v2, t2) ∈ samples (Write fuel order resolution s w0) →
  t1 ≤ t2 → v1 ≤ v2.
Proof.
  intros Hu He Hsum H1 H2 Hle.
  rewrite (sample_value _ _ _ _ _ _ _ _ _ Hu He H1).
  rewrite (sample_value _ _ _ _ _ _ _ _ _ Hu He H2).
  pose proof (accepted_amounts name evs Hu) as Hpos.
  pose proof (total_until_bounds t1 _ Hpos).
  pose proof (total_until_bounds t2 _ Hpos).
  pose proof (total_until_mono t1 t2 _ Hpos Hle).
  unfold two64. rewrite !Z.mod_small by lia. done.
Qed.

Lemma Write_values_never_decrease_witness : 2 ≤ 4.
Proof.
  apply (Write_values_never_decrease (scenario 0) (scenario_state 0) 5
           (λ _, ["foo"]) (10 * time.Second) EmptyString "foo"
           2 (10 * time.Second) 4 (30 * time.Second)).
  - repeat constructor; unfold two64; simpl; lia.
  - reflexivity.
  - vm_compute. reflexivity.
  - apply list_elem_of_In. vm_compute. tauto.
  - apply list_elem_of_In. vm_compute. tauto.
  - unfold time.Second. lia.
Defined.

(** ** Degenerate resolutions *)

Lemma tail_at_last evs s name t :
  inv evs s → tail_at s name = Some t →
  ∃ x, last (nodes name evs) = Some x ∧ x.2 = t.
Proof.
  intros Hi Ht. destruct (inv_chain _ _ Hi name) as (al & Hc & _ & Hl).
  unfold tail_at in Ht.
  destruct (current (rec s) !! name) as [c|] eqn:Hcur; simpl in Ht; [|done].
  symmetry in Hl. destruct (chain_last _ _ _ _ Hc Hl) as (x & Hx & Hrc).
  rewrite Hrc in Ht. simpl in Ht. injection Ht as <-. by exists x.
Qed.

(** A series that has started and has a record after the time of the step
    keeps the walk going. *)
Lemma foldl_visited_active evs h now names (l : locals string) name x0 y :
  forward_safe h → cursors_valid h (cur l) → cursors_at evs h now (cur l) →
  name ∈ names → is_Some (cur l !! name) →
  nodes name evs !! 0%nat = Some x0 → x0.2 ≤ now →
  last (nodes name evs) = Some y → now < y.2 →
  hasActiveMetrics (foldl (visited h now) l names) = true.
Proof.
  intros Hs. revert l.
  induction names as [|n names IH]; intros l Hv Hat Hin Hdom H0 Hle Hlast Hlt.
  { inversion Hin. }
  simpl. destruct (decide (n = name)) as [->|Hne].
  - destruct Hdom as [a Ha].
    destruct (Hat _ _ Ha) as (al & i & x & Hc & Hi & Hx & Hcase).
    assert (x.2 ≤ now) as Hxle.
    { destruct Hcase as [->|?]; [|done]. by simplify_eq. }
    destruct (arrive_started evs h now a name al i x Hs Hc Hi Hx Hxle)
      as (nx & hm & j & z & Harr & Hj & Hz & Hzle & Hhm).
    destruct (foldl_visited_emitted h now names (visited h now l name))
      as (es & _ & _ & Hact).
    apply Hact. unfold visited. rewrite Ha. simpl. rewrite Harr. simpl.
    assert (hm = true) as ->; [|done].
    apply Hhm. apply lookup_lt_is_Some.
    rewrite last_lookup in Hlast.
    apply lookup_lt_Some in Hz as Hjlt.
    destruct (decide (j = Init.Nat.pred (length (nodes name evs)))) as [->|];
      [|lia].
    rewrite Hz in Hlast. injection Hlast as <-. lia.
  - apply IH; try done.
    + by apply visited_valid.
    + by apply visited_cursors_at.
    + by apply elem_of_cons in Hin as [?|?].
    + by apply visited_dom.
Qed.

(** X9. With a resolution of zero, [Write] into a [strings.Builder] never
    returns when the series that starts first has a later record: every
    step is at the start time, the series stays active, and the walk runs
    for as many steps as it is given. *)
Theorem Write_zero_resolution_runs_on (evs : list event) (s : state) order
    (b0 : string) (name : string) (start t : Z) :
  exec evs newLinkedListRecorder = Some s →
  valid_order s order →
  earliest (mem s) (map_to_list (first (rec s))) = Some (Some start) →
  head_at s name = Some start →
  tail_at s name = Some t →
  start < t →
  ∀ fuel, out (Write fuel order 0 s b0) = OutOfFuel
          ∧ length (rounds (Write fuel order 0 s b0)) = fuel.
Proof.
  intros He Ho Hst Hhead Htail Hlt fuel.
  pose proof (exec_new_inv _ _ He) as Hi.
  pose proof (inv_forward_safe _ _ Hi) as Hs.
  rewrite (inv_head_at evs) in Hhead by done.
  destruct (nodes name evs !! 0%nat) as [x0|] eqn:H0; [|done].
  injection Hhead as Hx0.
  destruct (tail_at_last _ _ _ _ Hi Htail) as (y & Hy & Hyt).
  assert (is_Some (first (rec s) !! name)) as Hfirst.
  { destruct (inv_chain _ _ Hi name) as (al & Hc & Hf & _).
    rewrite Hf. destruct al as [|a al]; [|by eexists].
    apply chain_nil_l in Hc. by rewrite Hc in H0. }
  assert (∀ k, name ∈ order k) as Hin.
  { intros k. rewrite (Ho k). apply list_elem_of_fmap.
    destruct Hfirst as [a Ha]. exists (name, a).
    by rewrite elem_of_map_to_list. }
  unfold Write. rewrite Hst.
  assert (∀ k c (b : string) rs,
            cursors_valid (mem s) c → cursors_at evs (mem s) start c →
            is_Some (c !! name) →
            out (walk fuel order k 0 s start c b rs) = OutOfFuel
            ∧ length (rounds (walk fuel order k 0 s start c b rs))
              = (length rs + fuel)%nat) as Hwalk.
  { induction fuel as [|fuel IH]; intros k c b rs Hv Hat Hdom; simpl.
    { split; [done | lia]. }
    destruct (range_visited (mem s) start (order k) (mkLocals c false b []) Hs Hv)
      as [-> Hv'].
    destruct (foldl_visited_cursors evs (mem s) start (order k)
                (mkLocals c false b []) Hs Hv Hat) as [Hat' Hdom'].
    rewrite (foldl_visited_active evs (mem s) start (order k)
               (mkLocals c false b []) name x0 y); try done; [|lia|lia].
    rewrite Add_zero.
    destruct (IH (S k) _ (w (foldl (visited (mem s) start)
                               (mkLocals c false b []) (order k)))
                (rs ++ [emitted (foldl (visited (mem s) start)
                                   (mkLocals c false b []) (order k))])
                Hv' Hat' (Hdom' _ Hdom)) as [Hout Hlen].
    split; [done|]. rewrite Hlen, length_app. simpl. lia. }
  destruct (Hwalk 0%nat (first (rec s)) b0 [])
    as [Hout Hlen]; [by eapply inv_cursors_valid | by apply inv_cursors_at | done |].
  split; [done|]. by rewrite Hlen.
Qed.

Lemma Write_zero_resolution_runs_on_witness :
  out (Write 3 (λ _, ["foo"]) 0 (scenario_state 0) EmptyString) = OutOfFuel
  ∧ length (rounds (Write 3 (λ _, ["foo"]) 0 (scenario_state 0) EmptyString))
    = 3%nat.
Proof.
  refine (Write_zero_resolution_runs_on (scenario 0) (scenario_state 0)
            (λ _, ["foo"]) EmptyString "foo" 0 (33 * time.Second)
            _ _ _ _ _ _ 3%nat).
  - reflexivity.
  - intros k. reflexivity.
  - reflexivity.
  - reflexivity.
  - reflexivity.
  - unfold time.Second. lia.
Defined.

Lemma arrive_before h now (a : nat) rc :
  h !! a = Some rc → now < at_ rc → arrive h now a = None.
Proof.
  intros Ha Hlt. unfold arrive.
  pose proof (lookup_lt_Some _ _ _ Ha) as Hlen.
  destruct (length h) as [|n] eqn:Hn; [lia|].
  simpl. rewrite Ha. simpl. unfold time.After.
  destruct (Z.ltb_spec now (at_ rc)); [done | lia].
Qed.

(** Before the earliest first timestamp no cursor finds a record, and the
    body of a step changes nothing. *)
Lemma foldl_visited_before evs h now t start names (l : locals string) :
  (∀ name x, nodes name evs !! 0%nat = Some x → start ≤ x.2) →
  now < start → cursors_at evs h t (cur l) →
  foldl (visited h now) l names = l.
Proof.
  intros Hmin Hlt Hat. induction names as [|name names IH]; [done|].
  simpl. assert (visited h now l name = l) as ->; [|done].
  unfold visited. destruct (cur l !! name) as [a|] eqn:Ha; [|done]. simpl.
  destruct (Hat _ _ Ha) as (al & i & x & Hc & Hi & Hx & _).
  destruct (chain_lookup _ _ _ _ _ Hc Hi) as (x' & Hx' & Hrc).
  assert (x' = x) as -> by congruence.
  destruct (nodes name evs !! 0%nat) as [x0|] eqn:H0.
  - pose proof (Hmin _ _ H0).
    pose proof (nodes_sorted name evs 0%nat i x0 x ltac:(lia) H0 Hx).
    rewrite (arrive_before h now a _ Hrc); [done | simpl; lia].
  - apply lookup_lt_Some in Hx. apply lookup_ge_None in H0. lia.
Qed.

(** X10. With a negative resolution such that the instant one resolution
    before the start is in the range of [time.Time], [Write] into a
    [strings.Builder] returns [nil] after at most two steps, and the second
    step emits nothing: its time is before every record, so that no series
    counts as active. *)
Theorem Write_negative_resolution (evs : list event) (s : state) order
    resolution (b0 : string) (start : Z) (fuel : nat) :
  exec evs newLinkedListRecorder = Some s →
  resolution < 0 →
  earliest (mem s) (map_to_list (first (rec s))) = Some (Some start) →
  time.inRange (start + resolution) →
  (2 ≤ fuel)%nat →
  out (Write fuel order resolution s b0) = Returned None
  ∧ ∃ r0, rounds (Write fuel order resolution s b0) = [r0]
          ∨ rounds (Write fuel order resolution s b0) = [r0; []].
Proof.
  intros He Hres Hst Hin Hfuel.
  pose proof (exec_new_inv _ _ He) as Hi.
  pose proof (inv_forward_safe _ _ Hi) as Hs.
  destruct (earliest_bounds _ _ Hst) as [Hmin _].
  assert (∀ name x, nodes name evs !! 0%nat = Some x → start ≤ x.2) as Hmin'.
  { intros name x Hx. apply (Hmin name).
    by rewrite (inv_head_at evs), Hx by done. }
  destruct fuel as [|[|fuel]]; [lia|lia|].
  unfold Write. rewrite Hst. rewrite walk_S.
  destruct (range_visited (mem s) start (order 0%nat)
              (mkLocals (first (rec s)) false b0 []) Hs) as [-> Hv].
  { by eapply inv_cursors_valid. }
  destruct (foldl_visited_cursors evs (mem s) start (order 0%nat)
              (mkLocals (first (rec s)) false b0 []) Hs) as [Hat _].
  { by eapply inv_cursors_valid. }
  { by apply inv_cursors_at. }
  set (l := foldl (visited (mem s) start)
              (mkLocals (first (rec s)) false b0 []) (order 0%nat)) in *.
  cbv zeta. destruct (hasActiveMetrics l).
  2:{ simpl. split; [done|]. exists (emitted l). by left. }
  rewrite walk_S, (Add_exact start resolution Hin).
  destruct (range_visited (mem s) (start + resolution) (order 1%nat)
              (mkLocals (cur l) false (w l) []) Hs Hv) as [-> _].
  rewrite (foldl_visited_before evs (mem s) (start + resolution)
             start start); [|done|lia|done].
  simpl. split; [done|]. exists (emitted l). by right.
Qed.

Lemma Write_negative_resolution_witness :
  out (Write 5 (λ _, ["foo"]) (-1) (scenario_state 0) EmptyString)
  = Returned None.
Proof.
  refine (proj1 (Write_negative_resolution (scenario 0) (scenario_state 0)
                   (λ _, ["foo"]) (-1) EmptyString 0 5 _ _ _ _ _)).
  - reflexivity.
  - lia.
  - reflexivity.
  - by vm_compute.
  - lia.
Defined.

(** ** The search of [forward] *)

(** X11. On a chain of records, [forward] from a record returns no record
    (and [true]) when the time searched is before the record; otherwise
    it returns a record of the chain at or before the time whose
    successor, if any, is after the time, and tells whether there is a
    successor. With as much fuel as there are records it never fails. *)
Theorem forward_finds_latest h al l (i a : nat) (x : Z * Z) (to : Z) :
  forward_safe h → chain h al l →
  al !! i = Some a → l !! i = Some x →
  (to < x.2 → forward (length h) h a to = Some (None, true))
  ∧ (x.2 ≤ to →
     ∃ (j : nat) nx y hm,
       forward (length h) h a to = Some (Some nx, hm)
       ∧ (i ≤ j)%nat ∧ al !! j = Some nx ∧ l !! j = Some y ∧ y.2 ≤ to
       ∧ (∀ z, l !! S j = Some z → to < z.2)
       ∧ (hm = true ↔ is_Some (l !! S j))).
Proof.
  intros Hs Hc Hi Hx.
  destruct (chain_lookup _ _ _ _ _ Hc Hi) as (x' & Hx' & Ha).
  assert (x' = x) as -> by congruence.
  pose proof (lookup_lt_Some _ _ _ Ha) as Hlt. split.
  - intros Hto. destruct (length h) as [|n]; [lia|]. simpl. rewrite Ha. simpl.
    unfold time.After. by destruct (Z.ltb_spec to x.2); [|lia].
  - intros Hto.
    destruct (forward_total h (length h) a to Hs Hlt ltac:(lia))
      as (nx & hm & Hf & _).
    destruct nx as [nx|].
    2:{ pose proof (forward_started _ _ _ _ _ _ Hf Ha). simpl in *. lia. }
    destruct (forward_chain_more _ _ _ Hc _ _ _ _ _ _ Hi Hf)
      as (j & y & Hij & Hj & Hy & Hyle & Hnext & Hhm).
    by exists j, nx, y, hm.
Qed.

Lemma forward_finds_latest_witness :
  ∃ nx hm,
    forward 5 (mem (scenario_state 0)) 0 (12 * time.Second) = Some (Some nx, hm).
Proof.
  destruct (forward_finds_latest (mem (scenario_state 0)) [0; 1; 2; 3; 4]%nat
              (nodes "foo" (scenario 0)) 0 0 (1, 0) (12 * time.Second))
    as [_ H].
  - apply (inv_forward_safe (scenario 0)). apply exec_new_inv. reflexivity.
  - vm_compute. repeat split.
  - reflexivity.
  - reflexivity.
  - destruct H as (j & nx & y & hm & H & _).
    + simpl. unfold time.Second. lia.
    + by exists nx, hm.
Defined.

(** ** Calls in the order of time *)

Lemma in_order_snoc evs e : in_order (evs ++ [e]) → in_order evs.
Proof.
  intros H i j e1 e2 Hij H1 H2. apply (H i j); [done| |].
  - by apply lookup_app_l_Some.
  - by apply lookup_app_l_Some.
Qed.

(** The timestamp of a node is that of a call for its series. *)
Lemma nodes_from_calls name evs x :
  x ∈ nodes name evs → ∃ e, e ∈ evs ∧ ev_name e = name ∧ ev_at e = x.2.
Proof.
  revert x. induction evs as [|e evs IH] using rev_ind; intros x.
  { by intros ?%elem_of_nil. }
  rewrite nodes_snoc. unfold grow.
  assert (x ∈ nodes name evs →
          ∃ e0, e0 ∈ evs ++ [e] ∧ ev_name e0 = name ∧ ev_at e0 = x.2) as Hold.
  { intros (e0 & ? & ? & ?)%IH. exists e0. split; [|done].
    apply elem_of_app. by left. }
  destruct (decide (ev_name e = name)) as [Hn|]; [|done].
  assert (∀ v, x ∈ nodes name evs ++ [(v, ev_at e)] →
          ∃ e0, e0 ∈ evs ++ [e] ∧ ev_name e0 = name ∧ ev_at e0 = x.2) as Hnew.
  { intros v [?|Hx%list_elem_of_singleton]%elem_of_app; [by apply Hold|].
    subst x. exists e. split; [|done]. apply elem_of_app. right. by left. }
  destruct (last (nodes name evs)) as [[c t]|]; [|by apply Hnew].
  destruct (ev_at e <? t); [done | by apply Hnew].
Qed.

Lemma in_order_last name evs e x :
  in_order (evs ++ [e]) → ev_name e = name →
  last (nodes name evs) = Some x → x.2 ≤ ev_at e.
Proof.
  intros Ho Hn Hl.
  assert (x ∈ nodes name evs) as Hin.
  { rewrite last_lookup in Hl. by eapply list_elem_of_lookup_2. }
  destruct (nodes_from_calls _ _ _ Hin) as (e0 & [i Hi]%list_elem_of_lookup & Hn0 & <-).
  apply (Ho i (length evs)).
  - apply lookup_lt_Some in Hi. lia.
  - by apply lookup_app_l_Some.
  - rewrite lookup_app_r by lia. by rewrite Nat.sub_diag.
  - congruence.
Qed.

Lemma accepted_times name evs : (nodes name evs).*2 = (accepted name evs).*2.
Proof.
  induction evs as [|e evs IH] using rev_ind; [done|].
  rewrite nodes_snoc, accepted_snoc. unfold grow, accept.
  destruct (decide (ev_name e = name)); [|done].
  assert (snd <$> last (nodes name evs) = snd <$> last (accepted name evs)) as Hl.
  { by rewrite <- !fmap_last, IH. }
  destruct (last (nodes name evs)) as [[c t]|],
           (last (accepted name evs)) as [[c' t']|]; simpl in Hl; try done.
  - injection Hl as <-. destruct (ev_at e <? t); [done|].
    by rewrite !fmap_app, IH.
  - by rewrite !fmap_app, IH.
Qed.

Lemma accepted_in_order name evs :
  in_order evs → accepted name evs = calls_of name evs.
Proof.
  unfold calls_of. induction evs as [|e evs IH] using rev_ind; intros Ho; [done|].
  rewrite accepted_snoc, filter_app, fmap_app. unfold accept.
  pose proof (IH (in_order_snoc _ _ Ho)) as IH'.
  destruct (decide (ev_name e = name)) as [Hn|Hn].
  - rewrite filter_cons_True, filter_nil by done. simpl.
    destruct (last (accepted name evs)) as [[c t]|] eqn:Hl; [|by rewrite IH'].
    assert (snd <$> last (nodes name evs) = Some t) as Hl'.
    { by rewrite <- fmap_last, accepted_times, fmap_last, Hl. }
    destruct (last (nodes name evs)) as [x|] eqn:Hx; [|done].
    injection Hl' as <-.
    pose proof (in_order_last _ _ _ _ Ho Hn Hx).
    destruct (Z.ltb_spec (ev_at e) x.2); [lia|]. by rewrite IH'.
  - rewrite filter_cons_False, filter_nil by done. simpl.
    by rewrite app_nil_r.
Qed.

(** In the order of time no call is refused, and nothing is printed. *)
Lemma exec_in_order evs0 s0 evs s :
  inv evs0 s0 → in_order (evs0 ++ evs) → exec evs s0 = Some s →
  stdout s = stdout s0.
Proof.
  revert evs0 s0. induction evs as [|e evs IH]; intros evs0 s0 Hi Ho; simpl.
  { by intros [= <-]. }
  destruct (Inc_inv _ _ e Hi) as (s1 & HInc & H1). rewrite HInc. simpl.
  intros He.
  assert (in_order ((evs0 ++ [e]) ++ evs)) as Ho' by (by rewrite <- app_assoc).
  rewrite (IH (evs0 ++ [e]) s1 H1 Ho' He).
  destruct (current (rec s0) !! ev_name e) as [c|] eqn:Hc.
  - destruct (inv_chain _ _ Hi (ev_name e)) as (al & Hch & _ & Hl).
    rewrite Hc in Hl. symmetry in Hl.
    destruct (chain_last _ _ _ _ Hch Hl) as (x & Hx & Hrc).
    assert (x.2 ≤ ev_at e) as Hle.
    { apply (in_order_last (ev_name e) evs0 e x); [|done|done].
      intros i j e1 e2 Hij H1' H2'. apply (Ho' i j); [done| |].
      - by apply lookup_app_l_Some.
      - by apply lookup_app_l_Some. }
    rewrite (Inc_append_eq _ _ _ _ _ _ Hc Hrc Hle) in HInc.
    by injection HInc as <-.
  - rewrite (Inc_first_eq _ _ _ _ Hc) in HInc. by injection HInc as <-.
Qed.

Lemma tail_record evs s name (c : nat) :
  uint64_amounts evs → inv evs s → current (rec s) !! name = Some c →
  ∃ rc, mem s !! c = Some rc
        ∧ value rc = sumZ (accepted name evs).*1 mod two64.
Proof.
  intros Hu He Hc.
  destruct (inv_chain _ _ He name) as (al & Hch & _ & Hl).
  rewrite Hc in Hl. symmetry in Hl.
  destruct (chain_last _ _ _ _ Hch Hl) as (x & Hx & Hrc).
  exists (mkRecord x.1 x.2 None). split; [done|]. simpl.
  destruct (history name evs Hu) as [[Hats Hsum] _].
  assert (length (nodes name evs) = length (accepted name evs)) as Hlen.
  { by rewrite <- (length_fmap snd (nodes name evs)), Hats, length_fmap. }
  rewrite last_lookup in Hx. rewrite (Hsum _ _ Hx).
  apply lookup_lt_Some in Hx as Hlt.
  by rewrite take_ge by lia.
Qed.

(** X12. When the calls of [Inc] for each series come in the order of
    their timestamps, no call is ignored: nothing is printed, and the
    current record of a series carries the sum of the amounts of all the
    calls for the series, modulo 2^64. *)
Theorem Inc_in_order_keeps_all (evs : list event) (s : state) :
  uint64_amounts evs → in_order evs →
  exec evs newLinkedListRecorder = Some s →
  stdout s = []
  ∧ ∀ name (c : nat), current (rec s) !! name = Some c →
      ∃ rc, mem s !! c = Some rc
            ∧ value rc = sumZ (calls_of name evs).*1 mod 2 ^ 64.
Proof.
  intros Hu Ho He. split.
  - by rewrite (exec_in_order [] newLinkedListRecorder evs s inv_new Ho He).
  - intros name c Hc. rewrite <- (accepted_in_order name evs Ho).
    by apply (tail_record evs s name c Hu (exec_new_inv _ _ He)).
Qed.

Lemma Inc_in_order_keeps_all_witness :
  stdout (scenario_state 0) = []
  ∧ ∃ rc, mem (scenario_state 0) !! 4%nat = Some rc
          ∧ value rc = sumZ (calls_of "foo" (scenario 0)).*1 mod 2 ^ 64.
Proof.
  destruct (Inc_in_order_keeps_all (scenario 0) (scenario_state 0)) as [H1 H2].
  - repeat constructor; unfold two64; simpl; lia.
  - intros i j e1 e2 Hij H1 H2 _.
    do 5 (destruct i as [|i]; [injection H1 as <-;
      do 5 (destruct j as [|j]; [injection H2 as <-;
              first [lia | by vm_compute]|]);
      done|]).
    done.
  - reflexivity.
  - split; [exact H1|]. apply (H2 "foo" 4%nat). reflexivity.
Defined.

(** ** Labels and identities *)

Lemma append_String a (s t : string) : String a s +:+ t = String a (s +:+ t).
Proof. reflexivity. Qed.

Lemma length_append (s t : string) :
  String.length (s +:+ t) = (String.length s + String.length t)%nat.
Proof.
  induction s as [|a s IH]; [done|]. rewrite append_String. simpl. by rewrite IH.
Qed.

Lemma substring_append (s t : string) :
  substring 0 (String.length s) (s +:+ t) = s.
Proof.
  induction s as [|a s IH].
  - change (EmptyString +:+ t) with t. by destruct t.
  - rewrite append_String. simpl. by rewrite IH.
Qed.

Lemma slice_to_last (s : string) (c : ascii) :
  slice_to (s +:+ String c EmptyString)
    (Z.of_nat (String.length (s +:+ String c EmptyString)) - 1)
  = Some s.
Proof.
  unfold slice_to. rewrite length_append. simpl.
  replace (Z.of_nat (String.length s + 1) - 1) with (Z.of_nat (String.length s))
    by lia.
  rewrite Nat2Z.id, substring_append.
  destruct (Z.leb_spec 0 (Z.of_nat (String.length s))); [|lia].
  destruct (Z.leb_spec (Z.of_nat (String.length s))
              (Z.of_nat (String.length s + 1))); [done | lia].
Qed.

Lemma append_inv_head (s t t' : string) : s +:+ t = s +:+ t' → t = t'.
Proof.
  induction s as [|a s IH]; [done|]. rewrite !append_String.
  intros [= H]. by apply IH.
Qed.

Lemma append_inv_tail (s s' t : string) : s +:+ t = s' +:+ t → s = s'.
Proof.
  revert s'. induction s as [|a s IH]; intros [|a' s'].
  - done.
  - intros H. apply (f_equal String.length) in H.
    rewrite !length_append in H. simpl in H. lia.
  - intros H. apply (f_equal String.length) in H.
    rewrite !length_append in H. simpl in H. lia.
  - rewrite !append_String. intros [= -> H]. by rewrite (IH _ H).
Qed.

(** The loop of [labels.String]: every label followed by a comma. *)
Lemma labels_fold quote (l : list label.t) (acc : string) :
  fold_left
    (λ s lb, s +:+ (label.key lb +:+ "=" +:+ quote (label.value lb) +:+ ","))
    l acc
  = acc +:+ foldr (λ lb out, item quote lb +:+ "," +:+ out) EmptyString l.
Proof.
  revert acc. induction l as [|lb l IH]; intros acc; simpl.
  { by rewrite string_app_nil_r. }
  rewrite IH. unfold item. by rewrite !string_app_assoc.
Qed.

Lemma labels_snoc quote (l : list label.t) (lb : label.t) :
  String.concat "," (item quote <$> (l ++ [lb]))
  = foldr (λ lb out, item quote lb +:+ "," +:+ out) EmptyString l
    +:+ item quote lb.
Proof.
  induction l as [|lb' l IH]; [done|].
  change (String.concat "," (item quote <$> ((lb' :: l) ++ [lb])))
    with (String.concat "," (item quote lb' :: (item quote <$> (l ++ [lb])))).
  destruct (item quote <$> (l ++ [lb])) as [|x xs] eqn:Hx.
  { by destruct l. }
  change (String.concat "," (item quote lb' :: x :: xs))
    with (item quote lb' +:+ "," +:+ String.concat "," (x :: xs)).
  rewrite IH. simpl. by rewrite !string_app_assoc.
Qed.

Lemma labels_String_snoc quote (l : list label.t) (lb : label.t) :
  labels_String quote (l ++ [lb])
  = Some (String.concat "," (item quote <$> (l ++ [lb]))).
Proof.
  unfold labels_String. rewrite labels_fold, foldr_app. simpl.
  change (EmptyString
          +:+ foldr (λ lb0 out, item quote lb0 +:+ "," +:+ out)
                (item quote lb +:+ "," +:+ EmptyString) l)
    with (foldr (λ lb0 out, item quote lb0 +:+ "," +:+ out)
                (item quote lb +:+ "," +:+ EmptyString) l).
  assert (∀ tl, foldr (λ lb0 out, item quote lb0 +:+ "," +:+ out) tl l
                = foldr (λ lb0 out, item quote lb0 +:+ "," +:+ out) EmptyString l
                  +:+ tl) as Hf.
  { intros tl. induction l as [|lb' l IH]; simpl; [done|].
    by rewrite IH, !string_app_assoc. }
  rewrite Hf, labels_snoc.
  change (item quote lb +:+ "," +:+ EmptyString) with (item quote lb +:+ ",").
  rewrite <- string_app_assoc. apply slice_to_last.
Qed.

(** X13. On labels that are not empty, [labels.String] returns the items
    [key=quoted value] in the order of the labels, separated by commas,
    with no comma at the end; it does not panic. *)
Theorem labels_String_joined (quote : string → string) (l : list label.t) :
  l ≠ [] →
  labels_String quote l = Some (String.concat "," (item quote <$> l)).
Proof.
  intros Hl. destruct (decide (l = [])) as [|_]; [done|].
  assert (∃ l' lb, l = l' ++ [lb]) as (l' & lb & ->).
  { induction l as [|x l IH] using rev_ind; [done|]. by exists l, x. }
  apply labels_String_snoc.
Qed.

Lemma labels_String_joined_witness :
  labels_String quote_plain [label.mk "x" "foo"; label.mk "y" "baz"]
  = Some (String.concat ","
            (item quote_plain <$> [label.mk "x" "foo"; label.mk "y" "baz"])).
Proof.
  apply (labels_String_joined quote_plain
           [label.mk "x" "foo"; label.mk "y" "baz"]).
  discriminate.
Defined.

Lemma Metric_Inc_series quote {R : Type} `{!recorder R} (n : string)
    (l : list label.t) (lb : label.t) (v t : Z) (r : R) :
  Metric_Inc quote (mkMetric n (l ++ [lb])) v t r
  = rec_Inc (series quote n (l ++ [lb])) v t r.
Proof. unfold Metric_Inc. simpl. by rewrite labels_String_snoc. Qed.

(** X14. Once a label was added, by [Metric.With] or by [Metrics.With]
    before [Metrics.Metric], [Metric.Inc] does not panic: it calls [Inc]
    of the recorder for the series [name{labels}], the labels being those
    there were followed by the one added. The two ways give the same
    series. *)
Theorem Metric_Inc_after_With (quote : string → string) {R : Type}
    `{!recorder R} (ms : Metrics) (n key val : string) (v t : Z) (r : R) :
  Metric_Inc quote (Metric_With (Metrics_Metric ms n) key val) v t r
  = rec_Inc (series quote n (metrics_labels ms ++ [label.mk key val])) v t r
  ∧ Metric_Inc quote (Metrics_Metric (Metrics_With ms key val) n) v t r
    = rec_Inc (series quote n (metrics_labels ms ++ [label.mk key val])) v t r.
Proof. split; apply Metric_Inc_series. Qed.

(** ** The analysis of a chat export *)

Lemma exec_app (a b : list event) (s : state) :
  exec (a ++ b) s = exec a s ≫= exec b.
Proof.
  revert s. induction a as [|e a IH]; intros s; simpl; [done|].
  destruct (Inc _ _ _ s) as [s1|]; simpl; [apply IH | done].
Qed.

Lemma for_range_calls {A : Type} (body : A → state → option state)
    (calls : A → list event) (l : list A) (s : state) :
  (∀ x s, body x s = exec (calls x) s) →
  for_range body l s = exec (flat_map calls l) s.
Proof.
  intros Hb. revert s. induction l as [|x l IH]; intros s; simpl; [done|].
  rewrite exec_app, Hb. destruct (exec (calls x) s); simpl; [apply IH | done].
Qed.

Lemma for_range_filter {A : Type} (P : A → bool) (call : A → event)
    (l : list A) (s : state) :
  for_range
    (λ x s, if P x then Inc (ev_name (call x)) (ev_value (call x))
                           (ev_at (call x)) s
            else Some s) l s
  = exec (call <$> filter (λ x, P x = true) l) s.
Proof.
  revert s. induction l as [|x l IH]; intros s; simpl; [done|].
  destruct (P x) eqn:HP.
  - rewrite filter_cons_True by done. simpl.
    destruct (Inc _ _ _ s); simpl; [apply IH | done].
  - rewrite filter_cons_False by (by rewrite HP). simpl. apply IH.
Qed.

(** [analyzeChat] makes the calls [chat_calls], in this order. *)
Lemma analyzeChat_exec quote data metrics expressions (s : state) :
  analyzeChat quote data metrics expressions s
  = exec (chat_calls quote (metrics_labels metrics) expressions data) s.
Proof.
  unfold analyzeChat, chat_calls. apply for_range_calls.
  intros msg s1. unfold message_calls.
  destruct (decide (tgexport.From msg = EmptyString)); [done|].
  cbv zeta. unfold Metrics_Metric, Metrics_With, Metric_With, labels_with.
  cbn [metrics_labels name labels].
  rewrite Metric_Inc_series.
  change (exec (?e :: ?l) s1)
    with (Inc (ev_name e) (ev_value e) (ev_at e) s1 ≫= exec l).
  cbn [ev_name ev_value ev_at].
  change (rec_Inc ?n ?v ?t s1) with (Inc n v t s1).
  destruct (Inc _ _ _ s1) as [s2|]; [|done]. cbn [mbind option_bind].
  apply for_range_calls. intros txt s3.
  rewrite Metric_Inc_series.
  change (exec (?e :: ?l) s3)
    with (Inc (ev_name e) (ev_value e) (ev_at e) s3 ≫= exec l).
  cbn [ev_name ev_value ev_at].
  change (rec_Inc ?n ?v ?t s3) with (Inc n v t s3).
  destruct (Inc _ _ _ s3) as [s4|]; [|done]. cbn [mbind option_bind].
  rewrite <- (for_range_filter
                (λ expr, regexp.MatchString expr (tgexport.Text txt))
                (λ expr, Ev (series quote tgExpressionsTotal
                               ((metrics_labels metrics
                                 ++ [label.mk "sender" (tgexport.From msg)])
                                ++ [label.mk "expression" (regexp.String expr)]))
                            1 (tgexport.Date msg))).
  cbn [ev_name ev_value ev_at].
  generalize s4. clear.
  induction expressions as [|expr expressions IH]; intros s; [done|].
  cbn [for_range]. destruct (regexp.MatchString expr (tgexport.Text txt)).
  - rewrite Metric_Inc_series.
    change (rec_Inc ?n ?v ?t s) with (Inc n v t s).
    destruct (Inc _ _ _ s) as [s'|]; [|done]. cbn [mbind option_bind].
    apply IH.
  - cbn [mbind option_bind]. apply IH.
Qed.

(** X15. [analyzeChat] never panics, whatever the export, the labels of
    the metrics and the expressions: on a recorder reached by calls of
    [Inc] it makes the calls [chat_calls] and nothing else: for each message
    with a sender one call for the message, then for each text entity one
    with its length and one for each expression that matches. *)
Theorem analyzeChat_calls (quote : string → string) (data : tgexport.Result)
    (metrics : Metrics) (expressions : list regexp.Regexp)
    (evs : list event) (s : state) :
  exec evs newLinkedListRecorder = Some s →
  ∃ s', analyzeChat quote data metrics expressions s = Some s'
        ∧ exec (evs ++ chat_calls quote (metrics_labels metrics) expressions data)
            newLinkedListRecorder = Some s'.
Proof.
  intros He. rewrite analyzeChat_exec, exec_app, He. simpl.
  destruct (exec_inv evs s
              (chat_calls quote (metrics_labels metrics) expressions data)
              (exec_new_inv _ _ He)) as (s' & Hs & _).
  by exists s'.
Qed.

Lemma analyzeChat_calls_witness :
  ∃ s', analyzeChat quote_plain small_chat NewMetrics [] newLinkedListRecorder
        = Some s'
        ∧ exec ([] ++ chat_calls quote_plain (metrics_labels NewMetrics) []
                         small_chat)
            newLinkedListRecorder = Some s'.
Proof.
  apply (analyzeChat_calls quote_plain small_chat NewMetrics [] []
           newLinkedListRecorder).
  reflexivity.
Defined.

Lemma series_snoc quote n (l : list label.t) (lb : label.t) :
  series quote n (l ++ [lb])
  = n +:+ "{"
    +:+ foldr (λ lb out, item quote lb +:+ "," +:+ out) EmptyString l
    +:+ label.key lb +:+ "=" +:+ quote (label.value lb) +:+ "}".
Proof.
  unfold series. rewrite labels_snoc. unfold item.
  by rewrite !string_app_assoc.
Qed.

(** The series of two senders are the same only for the same sender. *)
Lemma series_sender_inj quote n base (a b : string) :
  (∀ x y, quote x = quote y → x = y) →
  series quote n (base ++ [label.mk "sender" a])
  = series quote n (base ++ [label.mk "sender" b]) →
  a = b.
Proof.
  intros Hq. rewrite !series_snoc. simpl.
  intros H. do 5 apply append_inv_head in H.
  apply append_inv_tail in H. by apply Hq.
Qed.

Lemma series_bytes_messages quote l l' :
  series quote tgBytesTotal l ≠ series quote tgMessagesTotal l'.
Proof.
  unfold series. intros H.
  apply (f_equal (String.get 3)) in H.
  rewrite <- !(append_correct1 _ _ 3) in H by (simpl; lia).
  discriminate.
Qed.

Lemma series_expressions_messages quote l l' :
  series quote tgExpressionsTotal l ≠ series quote tgMessagesTotal l'.
Proof.
  unfold series. intros H.
  apply (f_equal (String.get 3)) in H.
  rewrite <- !(append_correct1 _ _ 3) in H by (simpl; lia).
  discriminate.
Qed.

Lemma calls_of_app name (a b : list event) :
  calls_of name (a ++ b) = calls_of name a ++ calls_of name b.
Proof. unfold calls_of. by rewrite filter_app, fmap_app. Qed.

(** What the calls for a message are. *)
Lemma message_calls_cases quote base expressions msg e :
  e ∈ message_calls quote base expressions msg →
  ev_at e = tgexport.Date msg ∧ 0 ≤ ev_value e < two64.
Proof.
  unfold message_calls.
  destruct (decide (tgexport.From msg = EmptyString)); [by intros ?%elem_of_nil|].
  cbv zeta. intros [->|Hin]%elem_of_cons.
  { simpl. unfold two64. lia. }
  apply list_elem_of_In, in_flat_map in Hin as (txt & _ & Hin).
  apply list_elem_of_In, elem_of_cons in Hin as [->|Hin].
  { simpl. split; [done|]. unfold uint64_of_int. apply Z.mod_pos_bound.
    unfold two64. lia. }
  apply list_elem_of_fmap in Hin as (expr & -> & _). simpl. unfold two64. lia.
Qed.

Lemma calls_of_message quote base expressions msg (sender : string) :
  (∀ x y, quote x = quote y → x = y) → sender ≠ EmptyString →
  calls_of (series quote tgMessagesTotal (base ++ [label.mk "sender" sender]))
    (message_calls quote base expressions msg)
  = if decide (tgexport.From msg = sender) then [(1, tgexport.Date msg)] else [].
Proof.
  intros Hq Hs. unfold message_calls, calls_of.
  destruct (decide (tgexport.From msg = EmptyString)) as [He|He].
  { by destruct (decide (tgexport.From msg = sender)); [congruence|]. }
  cbv zeta.
  assert (filter
            (λ e, ev_name e
                  = series quote tgMessagesTotal
                      (base ++ [label.mk "sender" sender]))
            (flat_map
               (λ txt,
                  Ev (series quote tgBytesTotal
                        (base ++ [label.mk "sender" (tgexport.From msg)]))
                     (uint64_of_int (len (tgexport.Text txt)))
                     (tgexport.Date msg)
                  :: ((λ expr,
                         Ev (series quote tgExpressionsTotal
                               ((base ++ [label.mk "sender" (tgexport.From msg)])
                                ++ [label.mk "expression" (regexp.String expr)]))
                            1 (tgexport.Date msg))
                      <$> filter
                            (λ expr, regexp.MatchString expr (tgexport.Text txt)
                                     = true) expressions))
               (tgexport.TextEntities msg)) = []) as Hrest.
  { apply filter_none, Forall_forall. intros e Hin.
    apply list_elem_of_In, in_flat_map in Hin as (txt & _ & Hin).
    apply list_elem_of_In, elem_of_cons in Hin as [->|Hin].
    { apply series_bytes_messages. }
    apply list_elem_of_fmap in Hin as (expr & -> & _).
    apply series_expressions_messages. }
  destruct (decide (tgexport.From msg = sender)) as [Hf|Hf].
  - rewrite filter_cons_True by (simpl; by rewrite Hf). by rewrite Hrest.
  - rewrite filter_cons_False; [by rewrite Hrest|].
    simpl. intros H. by apply series_sender_inj in H.
Qed.

Lemma calls_of_chat quote base expressions msgs (sender : string) :
  (∀ x y, quote x = quote y → x = y) → sender ≠ EmptyString →
  calls_of (series quote tgMessagesTotal (base ++ [label.mk "sender" sender]))
    (flat_map (message_calls quote base expressions) msgs)
  = (λ m, (1, tgexport.Date m)) <$> filter (λ m, tgexport.From m = sender) msgs.
Proof.
  intros Hq Hs. induction msgs as [|m msgs IH]; [done|].
  simpl. rewrite calls_of_app, IH, calls_of_message by done.
  destruct (decide (tgexport.From m = sender)).
  - by rewrite filter_cons_True.
  - by rewrite filter_cons_False.
Qed.

Lemma by_date_cons m msgs :
  by_date (m :: msgs) →
  by_date msgs ∧ ∀ m', m' ∈ msgs → tgexport.Date m ≤ tgexport.Date m'.
Proof.
  intros H. split.
  - intros i j m1 m2 Hij H1 H2. apply (H (S i) (S j)); [lia|done|done].
  - intros m' [j Hj]%list_elem_of_lookup.
    apply (H 0%nat (S j)); [lia|done|done].
Qed.

Lemma chat_calls_dates quote base expressions msgs e :
  e ∈ flat_map (message_calls quote base expressions) msgs →
  ∃ m, m ∈ msgs ∧ ev_at e = tgexport.Date m.
Proof.
  intros (m & Hm & He)%list_elem_of_In%in_flat_map.
  exists m. split; [by apply list_elem_of_In|].
  apply list_elem_of_In in He. by apply message_calls_cases in He as [? _].
Qed.

(** The calls for an export in the order of its dates are in the order of
    time. *)
Lemma chat_calls_in_order quote base expressions msgs :
  by_date msgs →
  ∀ (i j : nat) e1 e2, (i ≤ j)%nat →
    flat_map (message_calls quote base expressions) msgs !! i = Some e1 →
    flat_map (message_calls quote base expressions) msgs !! j = Some e2 →
    ev_at e1 ≤ ev_at e2.
Proof.
  induction msgs as [|m msgs IH]; intros Hd i j e1 e2 Hij; [done|].
  apply by_date_cons in Hd as [Hd Hm]. simpl.
  intros [H1|[Hi H1]]%lookup_app_Some [H2|[Hj H2]]%lookup_app_Some.
  - apply list_elem_of_lookup_2, message_calls_cases in H1 as [-> _].
    apply list_elem_of_lookup_2, message_calls_cases in H2 as [-> _]. lia.
  - apply list_elem_of_lookup_2, message_calls_cases in H1 as [-> _].
    apply list_elem_of_lookup_2, chat_calls_dates in H2 as (m' & Hm' & ->).
    by apply Hm.
  - apply lookup_lt_Some in H2. lia.
  - eapply (IH Hd); [|exact H1|exact H2]. lia.
Qed.

Lemma chat_calls_amounts quote base expressions data :
  uint64_amounts (chat_calls quote base expressions data).
Proof.
  apply Forall_forall. intros e (m & _ & He)%list_elem_of_In%in_flat_map.
  apply list_elem_of_In in He. by apply message_calls_cases in He as [_ ?].
Qed.

Lemma sumZ_ones {A : Type} (f : A → Z) (l : list A) :
  sumZ ((λ m, (1, f m)) <$> l).*1 = Z.of_nat (length l).
Proof.
  induction l as [|x l IH]; [done|].
  rewrite !fmap_cons. cbn [foldr sumZ length]. unfold sumZ in IH.
  rewrite IH. simpl fst. lia.
Qed.

(** X16. For an export whose messages are in the order of their dates and
    a quoting of label values that is injective, [analyzeChat] on a new
    recorder counts the messages of each sender: the series
    [tg_messages_total] of a sender does not exist when the sender has no
    message, and otherwise its current record carries the number of the
    messages of the sender, modulo 2^64. *)
Theorem analyzeChat_counts_messages (quote : string → string)
    (data : tgexport.Result) (metrics : Metrics)
    (expressions : list regexp.Regexp) (sender : string) :
  (∀ x y, quote x = quote y → x = y) →
  by_date (tgexport.Messages data) →
  sender ≠ EmptyString →
  ∃ s, analyzeChat quote data metrics expressions newLinkedListRecorder = Some s
       ∧ match filter (λ m, tgexport.From m = sender) (tgexport.Messages data) with
         | [] =>
             current (rec s)
               !! series quote tgMessagesTotal
                    (metrics_labels metrics ++ [label.mk "sender" sender])
             = None
         | l =>
             ∃ (c : nat) rc,
               current (rec s)
                 !! series quote tgMessagesTotal
                      (metrics_labels metrics ++ [label.mk "sender" sender])
               = Some c
               ∧ mem s !! c = Some rc
               ∧ value rc = Z.of_nat (length l) mod 2 ^ 64
         end.
Proof.
  intros Hq Hd Hs.
  set (evs := chat_calls quote (metrics_labels metrics) expressions data).
  set (S0 := series quote tgMessagesTotal
               (metrics_labels metrics ++ [label.mk "sender" sender])).
  destruct (exec_new evs) as (s & He & Hi).
  exists s. split; [by rewrite analyzeChat_exec|].
  assert (uint64_amounts evs) as Hu by apply chat_calls_amounts.
  assert (in_order evs) as Ho.
  { intros i j e1 e2 Hij H1 H2 _.
    by apply (chat_calls_in_order quote (metrics_labels metrics) expressions
                (tgexport.Messages data) Hd i j e1 e2 Hij). }
  assert (accepted S0 evs
          = (λ m, (1, tgexport.Date m))
            <$> filter (λ m, tgexport.From m = sender) (tgexport.Messages data))
    as Hacc.
  { rewrite (accepted_in_order S0 evs Ho). by apply calls_of_chat. }
  destruct (inv_chain _ _ Hi S0) as (al & Hch & _ & Hl).
  assert (length al
          = length (filter (λ m, tgexport.From m = sender) (tgexport.Messages data)))
    as Hlen.
  { rewrite (chain_length _ _ _ Hch).
    rewrite <- (length_fmap snd (nodes S0 evs)), accepted_times, Hacc.
    by rewrite !length_fmap. }
  destruct (filter (λ m, tgexport.From m = sender) (tgexport.Messages data))
    as [|m l] eqn:Hf.
  - destruct al; [|done]. by rewrite Hl.
  - destruct (last al) as [c|] eqn:Hc.
    2:{ apply last_None in Hc. by subst al. }
    destruct (tail_record evs s S0 c Hu Hi Hl) as (rc & Hrc & Hv).
    exists c, rc. split; [done|]. split; [done|].
    rewrite Hv, Hacc. by rewrite (sumZ_ones tgexport.Date (m :: l)).
Qed.

Lemma quote_plain_inj (x y : string) : quote_plain x = quote_plain y → x = y.
Proof.
  unfold quote_plain. intros H. apply append_inv_head in H.
  by apply append_inv_tail in H.
Qed.

Lemma analyzeChat_counts_messages_witness :
  ∃ s, analyzeChat quote_plain small_chat NewMetrics [] newLinkedListRecorder
       = Some s
       ∧ ∃ (c : nat) rc,
           current (rec s)
             !! series quote_plain tgMessagesTotal [label.mk "sender" "ann"]
           = Some c
           ∧ mem s !! c = Some rc
           ∧ value rc = 2 mod 2 ^ 64.
Proof.
  refine (analyzeChat_counts_messages quote_plain small_chat NewMetrics []
            "ann" quote_plain_inj _ _).
  - intros i j m1 m2 Hij H1 H2.
    do 3 (destruct i as [|i]; [injection H1 as <-;
      do 3 (destruct j as [|j]; [injection H2 as <-;
              first [lia | unfold time.Second; simpl; lia]|]);
      done|]).
    done.
  - discriminate.
Defined.

(** ** Sender aliases *)

Lemma applySenderAliases_loop (aliases : aliasMap)
    (post pre : list tgexport.Message) :
  foldl
    (λ msgs i,
       match msgs !! i with
       | Some m =>
           match aliases !! tgexport.From m with
           | Some alias =>
               <[i := tgexport.mkMessage alias (tgexport.TextEntities m)
                        (tgexport.Date m)]> msgs
           | None => msgs
           end
       | None => msgs
       end)
    (pre ++ post) (seq (length pre) (length post))
  = pre ++ (renamed aliases <$> post).
Proof.
  revert pre. induction post as [|m post IH]; intros pre; [done|].
  cbn [length seq foldl].
  rewrite list_lookup_middle by done.
  assert (match aliases !! tgexport.From m with
          | Some alias =>
              <[length pre := tgexport.mkMessage alias (tgexport.TextEntities m)
                                (tgexport.Date m)]> (pre ++ m :: post)
          | None => pre ++ m :: post
          end = (pre ++ [renamed aliases m]) ++ post) as ->.
  { unfold renamed. rewrite <- app_assoc.
    destruct (aliases !! tgexport.From m); [|done].
    rewrite insert_app_r_alt, Nat.sub_diag by lia. done. }
  replace (S (length pre)) with (length (pre ++ [renamed aliases m]))
    by (rewrite length_app; simpl; lia).
  rewrite IH, <- app_assoc. done.
Qed.

Lemma applySenderAliases_renamed (data : tgexport.Result) (aliases : aliasMap) :
  applySenderAliases data aliases
  = tgexport.mkResult (renamed aliases <$> tgexport.Messages data).
Proof.
  unfold applySenderAliases. f_equal.
  apply (applySenderAliases_loop aliases (tgexport.Messages data) []).
Qed.

(** X17. [applySenderAliases] replaces the sender of every message whose
    sender has an alias by that alias, once, and changes nothing else:
    the messages keep their number, order, text entities and dates, and a
    message whose sender has no alias is left as it is. Without aliases
    the export is unchanged. *)
Theorem applySenderAliases_each (data : tgexport.Result) (aliases : aliasMap) :
  length (tgexport.Messages (applySenderAliases data aliases))
  = length (tgexport.Messages data)
  ∧ (∀ (i : nat) m, tgexport.Messages data !! i = Some m →
       ∃ m', tgexport.Messages (applySenderAliases data aliases) !! i = Some m'
             ∧ tgexport.From m'
               = default (tgexport.From m) (aliases !! tgexport.From m)
             ∧ tgexport.TextEntities m' = tgexport.TextEntities m
             ∧ tgexport.Date m' = tgexport.Date m)
  ∧ applySenderAliases data ∅ = data.
Proof.
  rewrite !applySenderAliases_renamed. cbn [tgexport.Messages].
  split; [by rewrite length_fmap|]. split.
  - intros i m Hm. exists (renamed aliases m).
    rewrite list_lookup_fmap, Hm. split; [done|]. unfold renamed.
    by destruct (aliases !! tgexport.From m).
  - destruct data as [msgs]. f_equal. cbn [tgexport.Messages].
    induction msgs as [|m msgs IH]; [done|].
    rewrite fmap_cons, IH. unfold renamed.
    by replace ((∅ : aliasMap) !! tgexport.From m) with (@None string)
      by (symmetry; apply lookup_empty).
Qed.

(** X18. When no alias is itself the name of a sender with another alias,
    [applySenderAliases] is idempotent: a second call changes nothing. *)
Theorem applySenderAliases_twice (data : tgexport.Result) (aliases : aliasMap) :
  (∀ k a, aliases !! k = Some a →
          aliases !! a = None ∨ aliases !! a = Some a) →
  applySenderAliases (applySenderAliases data aliases) aliases
  = applySenderAliases data aliases.
Proof.
  intros Ha. rewrite !applySenderAliases_renamed. cbn [tgexport.Messages].
  f_equal. rewrite <- list_fmap_compose. apply list_fmap_ext.
  intros i m _. simpl. unfold renamed at 2.
  destruct (aliases !! tgexport.From m) as [a|] eqn:Hm.
  - unfold renamed. cbn [tgexport.From tgexport.TextEntities tgexport.Date].
    rewrite Hm. destruct (Ha _ _ Hm) as [->| ->]; done.
  - unfold renamed. by rewrite Hm.
Qed.

Lemma applySenderAliases_twice_witness :
  applySenderAliases
    (applySenderAliases small_chat {["ann" := "Ann B."]}) {["ann" := "Ann B."]}
  = applySenderAliases small_chat {["ann" := "Ann B."]}.
Proof.
  apply (applySenderAliases_twice small_chat {["ann" := "Ann B."]}).
  intros k a Hk. apply lookup_singleton_Some in Hk as [<- <-].
  left. by apply lookup_singleton_ne.
Defined.

(** ** What [Write] never does, and what it writes *)

(** X19. On a recorder built by calls of [Inc], [Write] never panics:
    whatever the writer, the resolution, the order of the visits and the
    number of steps it is given, it dereferences no [nil] record, neither
    in its first loop nor in [forward] nor at a sample. *)
Theorem Write_never_panics {W : Type} `{!Writer W} (evs : list event)
    (s : state) fuel order resolution (w0 : W) :
  exec evs newLinkedListRecorder = Some s →
  out (Write fuel order resolution s w0) ≠ Panicked.
Proof. apply Write_no_panic. Qed.

Lemma Write_never_panics_witness :
  out (Write 7 (λ _, ["foo"]) (10 * time.Second) (scenario_state 0) ClosedPipe)
  ≠ Panicked.
Proof.
  apply (Write_never_panics (scenario 0) (scenario_state 0) 7 (λ _, ["foo"])
           (10 * time.Second) ClosedPipe).
  reflexivity.
Defined.

(** X20. What [Write] leaves in a [strings.Builder] is what was in it
    followed by one line for each sample, in the order of the calls of
    [Fprintf]: the name, the value and the time in seconds, in decimal,
    separated by one space and ended by a newline. *)
Theorem Write_output_is_lines fuel order resolution (s : state) (b0 : string) :
  sink (Write fuel order resolution s b0)
  = b0 +:+ lines (samples (Write fuel order resolution s b0))
  ∧ ∀ xs x, lines (xs ++ [x])
            = lines xs +:+ x.1.1 +:+ " " +:+ fmt_d x.1.2 +:+ " "
              +:+ fmt_d (time.Unix x.2) +:+ newline.
Proof.
  split; [apply Write_Builder|].
  intros xs x. rewrite lines_app. unfold lines at 2. cbn [foldr].
  unfold render, line. by rewrite string_app_nil_r.
Qed.
